(** * Telegram-to-WhatsApp router: a shallow embedding and its properties

    The development follows the Python sources:
    - [PyStr] is the fragment of Python's [str] the program uses (code
      points, [len], slices, [rfind], [lstrip], [strip]);
    - [whatsapp_sender.py]: [_split_text], [send_text] and [send_media],
      over an HTTP client that records the requests it is given;
    - [content_filter.py]: [evaluate] and [_run_filter];
    - [router.py]: [forward], [_forward_single], [_flush_album],
      [flush_pending], [_detect_media] and the formatting helpers.

    The loops of the source are the fixpoints [split_loop],
    [send_text_loop], [evaluate_loop], [album_loop] and [for_each]; the long
    functions [_forward_single] and [_flush_album] are cut where the source
    has its early returns ([deliver_single], [process_album],
    [deliver_album]). *)

From Stdlib Require Import ZArith NArith Lia Ascii String DecimalString.
From stdpp Require Import base tactics option list numbers.

Local Open Scope Z_scope.

(** ** Python strings *)

Module PyStr.

(** A Python [str] is a sequence of Unicode code points; [len] counts code
    points. *)
Definition char := N.
Definition str := list char.

(** A literal of the source, written as a Rocq string. *)
Definition lit (s : string) : str :=
  List.map N_of_ascii (list_ascii_of_string s).

Arguments lit : simpl never.

Definition NL : char := 10%N.
Definition SP : char := 32%N.

Definition len (s : str) : Z := Z.of_nat (length s).

(** Truth value of a string: the empty string is falsy. *)
Definition truthy (s : str) : bool :=
  match s with [] => false | _ :: _ => true end.

(** Truth value of an optional string ([None] and [""] are falsy). *)
Definition truthy_opt (o : option str) : bool :=
  match o with Some s => truthy s | None => false end.

(** Clamping of a slice bound against a length, as CPython's
    [PySlice_AdjustIndices] does for a step of 1. *)
Definition adjust (i n : Z) : Z :=
  if i <? 0 then Z.max (i + n) 0 else Z.min i n.

(** [s[:j]] and [s[i:]]. *)
Definition slice_to (s : str) (j : Z) : str :=
  take (Z.to_nat (adjust j (len s))) s.
Definition slice_from (s : str) (i : Z) : str :=
  drop (Z.to_nat (adjust i (len s))) s.

(** [rfind_at s c i lo hi]: the highest index [k] with [lo <= k < hi] at which
    [s] holds [c], where the head of [s] has index [i]; [-1] if none. *)
Fixpoint rfind_at (s : str) (c : char) (i lo hi : Z) : Z :=
  match s with
  | [] => -1
  | x :: s' =>
      let r := rfind_at s' c (i + 1) lo hi in
      if 0 <=? r then r
      else if (N.eqb x c && (lo <=? i) && (i <? hi))%bool then i
      else -1
  end.

(** [s.rfind(c, start, end)] for a one-character needle [c]. *)
Definition rfind (s : str) (c : char) (start stop : Z) : Z :=
  rfind_at s c 0 (adjust start (len s)) (adjust stop (len s)).

(** [s.lstrip(chars)]. *)
Fixpoint lstrip_with (p : char -> bool) (s : str) : str :=
  match s with
  | [] => []
  | x :: s' => if p x then lstrip_with p s' else s
  end.

(** The characters of the argument ["\n "] of [lstrip] in [_split_text]. *)
Definition is_nl_sp (c : char) : bool := (N.eqb c NL || N.eqb c SP)%bool.

(** [str.isspace] on one code point (CPython's [Py_UNICODE_ISSPACE]). *)
Definition isspace (c : char) : bool :=
  ((9 <=? c) && (c <=? 13) || (28 <=? c) && (c <=? 32)
   || (c =? 133) || (c =? 160) || (c =? 5760)
   || (8192 <=? c) && (c <=? 8202)
   || (c =? 8232) || (c =? 8233) || (c =? 8239) || (c =? 8287)
   || (c =? 12288))%bool%N.

(** [s.lstrip()] and [s.strip()]. *)
Definition lstrip (s : str) : str := lstrip_with isspace s.
Definition strip (s : str) : str := rev (lstrip (rev (lstrip s))).

(** [str(n)] for an integer. *)
Definition of_int (n : Z) : str :=
  lit (NilZero.string_of_int (Z.to_int n)).
Arguments of_int : simpl never.

End PyStr.

Import PyStr.

(** ** whatsapp_sender.py: the text splitter *)

Definition MAX_TEXT : Z := 4096.
Definition MAX_CAPTION : Z := 1024.

(** The cut point chosen by one round of the [while] loop of [_split_text]. *)
Definition split_cut (text : str) (limit : Z) : Z :=
  let cut := rfind text NL 0 limit in
  let cut := if cut <=? 0 then rfind text SP 0 limit else cut in
  if cut <=? 0 then limit else cut.

(** The [while text:] loop of [_split_text], with the list [chunks] it
    appends to.  The loop has no bound in the source; [fuel] counts the
    rounds still allowed and [None] means they ran out. *)
Fixpoint split_loop (fuel : nat) (text : str) (limit : Z) (chunks : list str)
  : option (list str) :=
  match fuel with
  | O => None
  | S fuel' =>
      if negb (truthy text) then Some chunks
      else if len text <=? limit then Some (chunks ++ [text])
      else
        let cut := split_cut text limit in
        split_loop fuel' (lstrip_with is_nl_sp (slice_from text cut)) limit
                   (chunks ++ [slice_to text cut])
  end.

Definition _split_text (text : str) (limit : Z) : option (list str) :=
  if len text <=? limit then Some [text]
  else split_loop (S (length text)) text limit [].

(** ** Effects

    The program talks to four collaborators: the LLM client of the content
    filter, Telegram (chat lookup and media download, carried by the message
    object), the sink (the [sender] object of the router) and, inside the
    sender, the HTTP client.  Every call to a collaborator is recorded in
    [trace], in program order; what the collaborator answers is given by a
    [World], indexed by the position of the call in the trace, so that any
    sequence of answers can be described.  Calls to [logger] go to [log]. *)

Definition bytes := list Byte.byte.

(** Requests given to [self.client.post] by [send_text] and [send_media]:
    the [json=payload] dictionaries, field by field. *)
Inductive Payload :=
| TextPayload (to body : str)
    (* {"messaging_product": "whatsapp", "to": to, "type": "text",
        "text": {"body": body}} *)
| MediaPayload (to media_type media_id : str) (caption : option str).
    (* {"messaging_product": "whatsapp", "to": to, "type": media_type,
        media_type: {"id": media_id[, "caption": caption]}} *)

Inductive Event :=
| LLMParse (model system_prompt user_text : str)
| DownloadMedia (message_id : Z)
| SendText (text : str)
| UploadMedia (file_bytes : bytes) (mime_type filename : str)
| SendMedia (media_type media_id : str) (caption : option str)
| Post (url : str) (payload : Payload).

Inductive Level := INFO | WARNING | ERROR.

Inductive Action := FORWARD | SKIP.

Record FilterDecision := { decision_action : Action; decision_reason : str }.

(** A decoded JSON document. *)
Unset Elimination Schemes.
Inductive Json :=
| JNull
| JBool (b : bool)
| JNumber (literal : str)
| JString (s : str)
| JArray (items : list Json)
| JObject (members : list (str * Json)).
Set Elimination Schemes.

(** An HTTP response: its status code, its body as text and what
    [response.json()] gives, [None] when the body is not JSON and decoding
    raises. *)
Record Response := {
  status_code : Z;
  response_text : str;
  response_json : option Json;
}.

(** [response.is_error]: a 4xx or 5xx status. *)
Definition is_error (response : Response) : bool :=
  ((400 <=? status_code response) && (status_code response <=? 599))%bool.

(** [response.is_success]: a 2xx status. *)
Definition is_success (response : Response) : bool :=
  ((200 <=? status_code response) && (status_code response <=? 299))%bool.

Record World := {
  (** [timestamp.astimezone().strftime("%Y-%m-%d %H:%M")] *)
  strftime_local : Z -> str;
  (** Outcome of the LLM call recorded at a trace position: the parsed
      decision, or [None] when the call (or reading its result) raises. *)
  llm : nat -> option FilterDecision;
  (** Whether the sink call recorded at a trace position raises. *)
  sink_raises : nat -> bool;
  (** The media id returned by the [upload_media] call at a position. *)
  uploaded_id : nat -> str;
  (** The response to the HTTP request recorded at a position; every
      request is taken to get one. *)
  http : nat -> Response;
}.

(** *** Telegram objects *)

Inductive DocumentAttribute :=
| DocumentAttributeFilename (file_name : str)
| DocumentAttributeVideo (round_message : bool)
| DocumentAttributeAudio (voice : bool)
| DocumentAttributeSticker
| DocumentAttributeAnimated
| DocumentAttributeOther.   (* image size, has-stickers, custom emoji *)

Record Document := {
  mime_type : option str;
  attributes : list DocumentAttribute;
}.

Record Chat := { username : option str }.

(** A message, with what Telegram answers when asked about it: a message is
    asked for its chat and for its media at most once while it is handled,
    so the two answers are fields.  [download_media] is [None] when the
    download gives nothing, which is how the router tests for a failed
    fetch. *)
Record Message := {
  msg_id : Z;
  msg_text : option str;
  msg_date : Z;
  grouped_id : option Z;
  photo : bool;                    (* [message.photo] is present *)
  document : option Document;
  get_chat : Chat;                 (* result of [await message.get_chat()] *)
  download_media : option bytes;   (* result of [download_media(bytes)] *)
}.

(** *** Router state *)

Record _PendingAlbum := {
  album_channel_name : str;
  album_messages : list Message;
  album_timer : option nat;        (* handle returned by [loop.call_later] *)
}.

Record State := {
  (** [self._pending_albums], a dict in insertion order *)
  _pending_albums : list (Z * _PendingAlbum);
  (** the event loop: timers scheduled by [call_later] and not yet fired or
      cancelled (handle, group id of the callback), the next fresh handle,
      and the [_flush_album] tasks created by fired callbacks *)
  loop_timers : list (nat * Z);
  loop_next : nat;
  loop_tasks : list Z;
  trace : list Event;
  log : list (Level * str);
}.

Definition initial : State :=
  {| _pending_albums := []; loop_timers := []; loop_next := O;
     loop_tasks := []; trace := []; log := [] |}.

Inductive Exn :=
| HTTPStatusError    (* [response.raise_for_status()], and the sink *)
| ValueError         (* [response.json()] on a body that is not JSON:
                         a [JSONDecodeError] *)
| IndexError         (* [messages[0]] on an empty list *)
| AttributeError     (* [chat.id] when there is no chat *)
| RPCError.          (* a request to Telegram fails *)

Inductive Outcome (A : Type) :=
| Ret (a : A)
| Raise (e : Exn)
| Diverge.
Arguments Ret {A} a.
Arguments Raise {A} e.
Arguments Diverge {A}.

Definition M (A : Type) : Type := State -> Outcome A * State.

Definition ret {A} (a : A) : M A := fun st => (Ret a, st).

Definition bind {A B} (m : M A) (k : A -> M B) : M B :=
  fun st =>
    match m st with
    | (Ret a, st') => k a st'
    | (Raise e, st') => (Raise e, st')
    | (Diverge, st') => (Diverge, st')
    end.

Declare Scope m_scope.
Delimit Scope m_scope with M.
Notation "x <- m ;; k" := (bind m (fun x => k))
  (at level 100, m at next level, right associativity) : m_scope.
Notation "m ;; k" := (bind m (fun _ => k))
  (at level 100, right associativity) : m_scope.
Local Open Scope m_scope.

Definition raise {A} (e : Exn) : M A := fun st => (Raise e, st).
Definition diverge {A} : M A := fun st => (Diverge, st).

Definition set_pending (p : list (Z * _PendingAlbum)) (st : State) : State :=
  {| _pending_albums := p; loop_timers := loop_timers st;
     loop_next := loop_next st; loop_tasks := loop_tasks st;
     trace := trace st; log := log st |}.

Definition set_loop (ts : list (nat * Z)) (n : nat) (tk : list Z) (st : State)
  : State :=
  {| _pending_albums := _pending_albums st; loop_timers := ts;
     loop_next := n; loop_tasks := tk; trace := trace st; log := log st |}.

(** Record a collaborator call; the result is its position in the trace. *)
Definition emit (e : Event) : M nat :=
  fun st =>
    (Ret (length (trace st)),
     {| _pending_albums := _pending_albums st; loop_timers := loop_timers st;
        loop_next := loop_next st; loop_tasks := loop_tasks st;
        trace := trace st ++ [e]; log := log st |}).

Definition logger (lv : Level) (msg : str) : M unit :=
  fun st =>
    (Ret tt,
     {| _pending_albums := _pending_albums st; loop_timers := loop_timers st;
        loop_next := loop_next st; loop_tasks := loop_tasks st;
        trace := trace st; log := log st ++ [(lv, msg)] |}).

(** [for x in xs: body(x)] *)
Fixpoint for_each {A} (xs : list A) (body : A -> M unit) : M unit :=
  match xs with
  | [] => ret tt
  | x :: xs' => body x ;; for_each xs' body
  end.

Definition str_eqb (a b : str) : bool := bool_decide (a = b).

(** An f-string: the concatenation of its pieces. *)
Definition fmt (pieces : list str) : str := concat pieces.
Arguments fmt : simpl never.

Section Program.

Variable w : World.

(** ** whatsapp_sender.py: the sender *)

Record WhatsAppSender := {
  phone_number_id : str;
  recipient : str;
}.

Definition BASE_URL : str := lit "https://graph.facebook.com/v21.0".

Definition _messages_url (self : WhatsAppSender) : str :=
  fmt [BASE_URL; lit "/"; phone_number_id self; lit "/messages"].

(** [response.raise_for_status()]: raises unless the status is a 2xx. *)
Definition raise_for_status (response : Response) : M unit :=
  if is_success response then ret tt else raise HTTPStatusError.

(** [response.json()]: raises when the body is not JSON. *)
Definition json (response : Response) : M Json :=
  match response_json response with
  | Some body => ret body
  | None => raise ValueError
  end.

(** The body of [for chunk in _split_text(text, MAX_TEXT)] in [send_text];
    [results] collects the decoded responses. *)
Fixpoint send_text_loop (self : WhatsAppSender) (chunks : list str)
  (results : list Json) : M (list Json) :=
  match chunks with
  | [] => ret results
  | chunk :: rest =>
      pos <- emit (Post (_messages_url self)
                        (TextPayload (recipient self) chunk)) ;;
      let response := http w pos in
      (if is_error response
       then logger ERROR (fmt [lit "WhatsApp API error: ";
                               response_text response])
       else ret tt) ;;
      raise_for_status response ;;
      body <- json response ;;
      send_text_loop self rest (results ++ [body])
  end.

Definition send_text (self : WhatsAppSender) (text : str)
  : M (list Json) :=
  match _split_text text MAX_TEXT with
  | None => diverge
  | Some chunks => send_text_loop self chunks []
  end.

Definition caption_types : list str :=
  [lit "image"; lit "video"; lit "document"].

Definition send_media (self : WhatsAppSender) (media_type media_id : str)
  (caption : option str) : M (list Json) :=
  let '(media_caption, overflow) :=
    if (truthy_opt caption && existsb (str_eqb media_type) caption_types)%bool
    then
      let caption := default [] caption in
      if MAX_CAPTION <? len caption then
        let cut := rfind caption SP 0 MAX_CAPTION in
        let cut := if cut <=? 0 then MAX_CAPTION else cut in
        (Some (slice_to caption cut), Some (lstrip (slice_from caption cut)))
      else (Some caption, None)
    else (None, None) in
  pos <- emit (Post (_messages_url self)
                    (MediaPayload (recipient self) media_type media_id
                                  media_caption)) ;;
  let response := http w pos in
  raise_for_status response ;;
  body <- json response ;;
  if truthy_opt overflow then
    more <- send_text self (default [] overflow) ;;
    ret ([body] ++ more)
  else ret [body].

(** ** content_filter.py *)

Record FilterRule := { name : str; prompt : str }.

Record LLMConfig := { model : str; filters : list FilterRule }.

Record FilterResult := {
  action : Action;
  reason : str;
  filter_name : str;
}.

Definition action_value (a : Action) : str :=
  match a with FORWARD => lit "FORWARD" | SKIP => lit "SKIP" end.

Definition is_skip (a : Action) : bool :=
  match a with SKIP => true | FORWARD => false end.

(** [BASE_SYSTEM_PROMPT.format(prompt=prompt)] *)
Definition system_prompt_of (prompt : str) : str :=
  fmt [lit "You are a content filter for a Telegram-to-WhatsApp message forwarder.";
       [NL];
       lit "Analyze the message and decide if it should be forwarded or skipped based on the following rule:";
       [NL; NL];
       prompt].

Definition _run_filter (config : LLMConfig) (name prompt text : str)
  : M FilterResult :=
  let system_prompt := system_prompt_of prompt in
  pos <- emit (LLMParse (model config) system_prompt text) ;;
  match llm w pos with
  | Some decision =>
      ret {| action := decision_action decision;
             reason := decision_reason decision;
             filter_name := name |}
  | None =>
      logger ERROR (fmt [lit "Filter ["; name;
                         lit "] failed, forwarding by default"]) ;;
      ret {| action := FORWARD; reason := lit "Filter error";
             filter_name := name |}
  end.

(** The [for rule in self.config.filters] loop of [evaluate], followed by the
    final [return] of the function. *)
Fixpoint evaluate_loop (config : LLMConfig) (rules : list FilterRule)
  (text : str) : M FilterResult :=
  match rules with
  | [] =>
      ret {| action := FORWARD; reason := lit "Passed all filters";
             filter_name := lit "all" |}
  | rule :: rest =>
      decision <- _run_filter config (name rule) (prompt rule) text ;;
      logger INFO (fmt [lit "Filter ["; name rule; lit "]: ";
                        action_value (action decision);
                        [32; 8212; 32]%N; reason decision]) ;;
      if is_skip (action decision) then ret decision
      else evaluate_loop config rest text
  end.

Definition evaluate (config : LLMConfig) (text : str) : M FilterResult :=
  if (negb (truthy text) || negb (truthy (strip text)))%bool then
    ret {| action := FORWARD; reason := lit "No text to analyze";
           filter_name := lit "none" |}
  else if match filters config with [] => true | _ => false end then
    ret {| action := FORWARD; reason := lit "No filters configured";
           filter_name := lit "none" |}
  else evaluate_loop config (filters config) text.

(** ** router.py *)

Definition WA_SUPPORTED_MIMES : list str :=
  [lit "audio/aac"; lit "audio/mp4"; lit "audio/mpeg"; lit "audio/amr";
   lit "audio/ogg"; lit "audio/opus";
   lit "application/vnd.ms-powerpoint"; lit "application/msword";
   lit "application/vnd.openxmlformats-officedocument.wordprocessingml.document";
   lit "application/vnd.openxmlformats-officedocument.presentationml.presentation";
   lit "application/vnd.openxmlformats-officedocument.spreadsheetml.sheet";
   lit "application/pdf"; lit "text/plain"; lit "application/vnd.ms-excel";
   lit "image/jpeg"; lit "image/png"; lit "image/webp";
   lit "video/mp4"; lit "video/3gpp"].

Definition supported (mime : str) : bool :=
  existsb (str_eqb mime) WA_SUPPORTED_MIMES.

(** *** The dict [_pending_albums], in insertion order *)

Definition dict := list (Z * _PendingAlbum).

(** [d.get(k)] *)
Fixpoint dict_get (k : Z) (d : dict) : option _PendingAlbum :=
  match d with
  | [] => None
  | (k', v) :: d' => if Z.eqb k k' then Some v else dict_get k d'
  end.

(** [d[k] = v]: an existing key keeps its place, a new key goes last. *)
Fixpoint dict_set (k : Z) (v : _PendingAlbum) (d : dict) : dict :=
  match d with
  | [] => [(k, v)]
  | (k', v') :: d' =>
      if Z.eqb k k' then (k, v) :: d' else (k', v') :: dict_set k v d'
  end.

(** [d.pop(k, None)]: the dict without the first entry of key [k]. *)
Fixpoint dict_del (k : Z) (d : dict) : dict :=
  match d with
  | [] => []
  | (k', v) :: d' => if Z.eqb k k' then d' else (k', v) :: dict_del k d'
  end.

(** [list(d)] *)
Definition dict_keys (d : dict) : list Z := List.map fst d.

(** *** The event loop *)

(** [loop.call_later(self._album_timeout, lambda gid=grouped_id:
    asyncio.ensure_future(self._flush_album(gid)))]; the delay itself is not
    modelled, a scheduled timer may fire at any later step. *)
Definition call_later (gid : Z) : M nat :=
  fun st =>
    let h := loop_next st in
    (Ret h, set_loop (loop_timers st ++ [(h, gid)]) (S h) (loop_tasks st) st).

(** [handle.cancel()] *)
Definition timer_cancel (h : nat) : M unit :=
  fun st =>
    (Ret tt,
     set_loop (List.filter (fun t => negb (Nat.eqb (fst t) h)) (loop_timers st))
              (loop_next st) (loop_tasks st) st).

(** *** Media classification *)

Record Flags := {
  filename : str;
  is_voice : bool;
  is_video : bool;
  is_audio : bool;
  is_sticker : bool;
  is_gif : bool;
}.

(** One round of [for attr in doc.attributes] in [_detect_media]. *)
Definition detect_attr (f : Flags) (attr : DocumentAttribute) : Flags :=
  match attr with
  | DocumentAttributeFilename file_name =>
      {| filename := file_name; is_voice := is_voice f;
         is_video := is_video f; is_audio := is_audio f;
         is_sticker := is_sticker f; is_gif := is_gif f |}
  | DocumentAttributeVideo round_message =>
      {| filename := if round_message then lit "video_note.mp4"
                     else filename f;
         is_voice := is_voice f; is_video := true; is_audio := is_audio f;
         is_sticker := is_sticker f; is_gif := is_gif f |}
  | DocumentAttributeAudio voice =>
      {| filename := if voice then lit "voice.ogg" else filename f;
         is_voice := if voice then true else is_voice f;
         is_video := is_video f; is_audio := true;
         is_sticker := is_sticker f; is_gif := is_gif f |}
  | DocumentAttributeSticker =>
      {| filename := lit "sticker.webp"; is_voice := is_voice f;
         is_video := is_video f; is_audio := is_audio f;
         is_sticker := true; is_gif := is_gif f |}
  | DocumentAttributeAnimated =>
      {| filename := filename f; is_voice := is_voice f;
         is_video := is_video f; is_audio := is_audio f;
         is_sticker := is_sticker f; is_gif := true |}
  | DocumentAttributeOther => f
  end.

Definition _detect_media (message : Message) : option (str * str * str) :=
  if photo message then Some (lit "image", lit "image/jpeg", lit "photo.jpg")
  else
    match document message with
    | None => None
    | Some doc =>
        let mime :=
          if truthy_opt (mime_type doc) then default [] (mime_type doc)
          else lit "application/octet-stream" in
        let f :=
          fold_left detect_attr (attributes doc)
            {| filename := lit "file"; is_voice := false; is_video := false;
               is_audio := false; is_sticker := false; is_gif := false |} in
        if is_sticker f then Some (lit "sticker", mime, filename f)
        else if is_voice f then Some (lit "audio", lit "audio/ogg", filename f)
        else if is_audio f then Some (lit "audio", mime, filename f)
        else if (is_video f || is_gif f)%bool
             then Some (lit "video", mime, filename f)
        else Some (lit "document", mime, filename f)
    end.

(** *** Formatting *)

Definition _build_source_link (chat : Chat) (message_id : Z) : option str :=
  if truthy_opt (username chat) then
    Some (fmt [lit "https://t.me/"; default [] (username chat); lit "/";
               of_int message_id])
  else None.

Definition _format_header (channel_name : str) (timestamp : Z)
  (source_link : option str) : str :=
  let local_time := strftime_local w timestamp in
  let header := fmt [lit "["; channel_name; lit "] "; local_time] in
  if truthy_opt source_link
  then header ++ fmt [[NL]; default [] source_link]
  else header.

Definition _format_text (channel_name : str) (timestamp : Z) (text : str)
  (source_link : option str) : str :=
  fmt [_format_header channel_name timestamp source_link; [NL; NL]; text].

Definition _format_caption (channel_name : str) (timestamp : Z)
  (text : option str) (source_link : option str) : str :=
  let header := _format_header channel_name timestamp source_link in
  if truthy_opt text then fmt [header; [NL; NL]; default [] text]
  else header.

(** [skip_msg] of [_forward_single] and [_flush_album]. *)
Definition skip_notice (channel_name : str) (result : FilterResult)
  (source_link : option str) : str :=
  let skip_msg :=
    fmt [lit "[Skipped from "; channel_name; lit "] (";
         filter_name result; lit ") "; reason result] in
  if truthy_opt source_link
  then skip_msg ++ fmt [[NL]; default [] source_link]
  else skip_msg.

(** *** The sink, as the router sees it ([self.sender]) *)

Definition sender_send_text (text : str) : M unit :=
  pos <- emit (SendText text) ;;
  if sink_raises w pos then raise HTTPStatusError else ret tt.

Definition sender_upload_media (file_bytes : bytes) (mime filename : str)
  : M str :=
  pos <- emit (UploadMedia file_bytes mime filename) ;;
  if sink_raises w pos then raise HTTPStatusError
  else ret (uploaded_id w pos).

Definition sender_send_media (media_type media_id : str)
  (caption : option str) : M unit :=
  pos <- emit (SendMedia media_type media_id caption) ;;
  if sink_raises w pos then raise HTTPStatusError else ret tt.

(** [await message.download_media(bytes)] *)
Definition fetch (message : Message) : M (option bytes) :=
  emit (DownloadMedia (msg_id message)) ;;
  ret (download_media message).

(** *** The router *)

Record MessageRouter := {
  (** [self.filter]: the configuration of the content filter, if any *)
  filter : option LLMConfig;
}.

Variable self : MessageRouter.

(** [_forward_single] from [media_info = self._detect_media(message)] on:
    what is done with a single message the filter did not reject. *)
Definition deliver_single (channel_name : str) (message : Message)
  : M unit :=
  let timestamp := msg_date message in
  let chat := get_chat message in
  let source_link := _build_source_link chat (msg_id message) in
  let text := default [] (msg_text message) in
  match _detect_media message with
  | None =>
      if negb (truthy_opt (msg_text message)) then ret tt
      else
        sender_send_text
          (_format_text channel_name timestamp text source_link) ;;
        logger INFO (fmt [lit "Forwarded text from ["; channel_name;
                          lit "]"])
  | Some (wa_type, mime, filename) =>
      if negb (supported mime) then
        let skip_msg :=
          fmt [lit "["; channel_name; lit "] Unsupported media (";
               mime; [41; 32; 226; 8364; 8221; 32]%N;
               lit "view on Telegram"] in
        let skip_msg :=
          if truthy_opt source_link
          then skip_msg ++ fmt [[NL]; default [] source_link]
          else skip_msg in
        sender_send_text skip_msg ;;
        logger INFO (fmt [lit "Skipped unsupported "; mime;
                          lit " from ["; channel_name; lit "]"])
      else
        let caption :=
          _format_caption channel_name timestamp (msg_text message)
                          source_link in
        file_bytes <- fetch message ;;
        match file_bytes with
        | None =>
            logger WARNING
              (fmt [lit "Could not download media from ["; channel_name;
                    lit "], msg "; of_int (msg_id message)]) ;;
            if truthy_opt (msg_text message) then
              sender_send_text
                (_format_text channel_name timestamp text source_link)
            else ret tt
        | Some file_bytes =>
            media_id <- sender_upload_media file_bytes mime filename ;;
            sender_send_media wa_type media_id (Some caption) ;;
            logger INFO (fmt [lit "Forwarded "; wa_type; lit " from [";
                              channel_name; lit "]"])
        end
  end.

Definition _forward_single (channel_name : str) (message : Message)
  : M unit :=
  let chat := get_chat message in
  let source_link := _build_source_link chat (msg_id message) in
  let text := default [] (msg_text message) in
  match filter self with
  | Some config =>
      if truthy_opt (msg_text message) then
        result <- evaluate config text ;;
        logger INFO
          (fmt [lit "["; channel_name; lit "] filter="; filter_name result;
                lit " action="; action_value (action result);
                lit " reason="; reason result]) ;;
        if is_skip (action result) then
          sender_send_text (skip_notice channel_name result source_link)
        else deliver_single channel_name message
      else deliver_single channel_name message
  | None => deliver_single channel_name message
  end.

(** [next((m.text for m in messages if m.text), None)] *)
Fixpoint first_text (messages : list Message) : option str :=
  match messages with
  | [] => None
  | m :: rest =>
      if truthy_opt (msg_text m) then msg_text m else first_text rest
  end.

(** The [for msg in messages] loop of [_flush_album]; the result is the
    value of [is_first] when the loop ends. *)
Fixpoint album_loop (channel_name caption : str) (msgs : list Message)
  (is_first : bool) : M bool :=
  match msgs with
  | [] => ret is_first
  | msg :: rest =>
      match _detect_media msg with
      | None => album_loop channel_name caption rest is_first
      | Some (wa_type, mime, filename) =>
          if negb (supported mime) then
            logger INFO (fmt [lit "Skipped unsupported "; mime;
                              lit " in album from ["; channel_name;
                              lit "]"]) ;;
            album_loop channel_name caption rest is_first
          else
            file_bytes <- fetch msg ;;
            match file_bytes with
            | None =>
                logger WARNING
                  (fmt [lit "Could not download album media from [";
                        channel_name; lit "], msg "; of_int (msg_id msg)]) ;;
                album_loop channel_name caption rest is_first
            | Some file_bytes =>
                media_id <- sender_upload_media file_bytes mime filename ;;
                sender_send_media wa_type media_id
                  (if is_first then Some caption else None) ;;
                logger INFO (fmt [lit "Forwarded album "; wa_type;
                                  lit " from ["; channel_name; lit "]"]) ;;
                album_loop channel_name caption rest false
            end
      end
  end.

(** [_flush_album] from [caption = self._format_caption(...)] on: what is
    done with an album the filter did not reject. *)
Definition deliver_album (album : _PendingAlbum) (first_msg : Message)
  : M unit :=
  let channel_name := album_channel_name album in
  let messages := album_messages album in
  let album_text := first_text messages in
  let chat := get_chat first_msg in
  let source_link := _build_source_link chat (msg_id first_msg) in
  let timestamp := msg_date first_msg in
  let caption :=
    _format_caption channel_name timestamp album_text source_link in
  is_first <- album_loop channel_name caption messages true ;;
  if (is_first && truthy_opt album_text)%bool then
    sender_send_text
      (_format_text channel_name timestamp (default [] album_text)
                    source_link) ;;
    logger INFO (fmt [lit "Forwarded album text-only from [";
                      channel_name; lit "]"])
  else ret tt.

(** [_flush_album] from [channel_name = album.channel_name] on: what is
    done with an album once it has been popped from the pending dict. *)
Definition process_album (album : _PendingAlbum) : M unit :=
  let channel_name := album_channel_name album in
  let messages := album_messages album in
  let album_text := first_text messages in
  match messages with
  | [] => raise IndexError
  | first_msg :: _ =>
      let chat := get_chat first_msg in
      let source_link := _build_source_link chat (msg_id first_msg) in
      match filter self with
      | Some config =>
          if truthy_opt album_text then
            result <- evaluate config (default [] album_text) ;;
            logger INFO
              (fmt [lit "["; channel_name; lit "] album filter=";
                    filter_name result;
                    lit " action="; action_value (action result);
                    lit " reason="; reason result]) ;;
            if is_skip (action result) then
              sender_send_text
                (skip_notice channel_name result source_link) ;;
              logger INFO
                (fmt [lit "Skipped album (";
                      of_int (Z.of_nat (length messages));
                      lit " items) from ["; channel_name; lit "]"])
            else deliver_album album first_msg
          else deliver_album album first_msg
      | None => deliver_album album first_msg
      end
  end.

(** [album = self._pending_albums.pop(grouped_id, None)], the first
    statement of [_flush_album]; nothing is awaited before it. *)
Definition pop_album (grouped_id : Z) : M (option _PendingAlbum) :=
  fun st =>
    match dict_get grouped_id (_pending_albums st) with
    | Some album =>
        (Ret (Some album),
         set_pending (dict_del grouped_id (_pending_albums st)) st)
    | None => (Ret None, st)
    end.

Definition _flush_album (grouped_id : Z) : M unit :=
  album <- pop_album grouped_id ;;
  match album with
  | None => ret tt
  | Some album => process_album album
  end.

Definition forward (channel_name : str) (message : Message) : M unit :=
  match grouped_id message with
  | None => _forward_single channel_name message
  | Some gid =>
      if Z.eqb gid 0 then _forward_single channel_name message
      else
        album <-
          (fun st =>
             match dict_get gid (_pending_albums st) with
             | Some album =>
                 (* [album.messages.append(message)] on the object the dict
                    holds, then [album.timer.cancel()] *)
                 let album :=
                   {| album_channel_name := album_channel_name album;
                      album_messages := album_messages album ++ [message];
                      album_timer := album_timer album |} in
                 bind
                   (match album_timer album with
                    | Some h => timer_cancel h
                    | None => ret tt
                    end)
                   (fun _ => ret album)
                   (set_pending (dict_set gid album (_pending_albums st)) st)
             | None =>
                 let album :=
                   {| album_channel_name := channel_name;
                      album_messages := [message];
                      album_timer := None |} in
                 (Ret album,
                  set_pending (dict_set gid album (_pending_albums st)) st)
             end) ;;
        h <- call_later gid ;;
        (* [album.timer = ...], again on the object the dict holds *)
        fun st =>
          (Ret tt,
           set_pending
             (dict_set gid
                {| album_channel_name := album_channel_name album;
                   album_messages := album_messages album;
                   album_timer := Some h |}
                (_pending_albums st)) st)
  end.

(** The body of [for gid in list(self._pending_albums)] in
    [flush_pending]. *)
(** The two statements of the body of the loop of [flush_pending] that
    come before its [await]: [album = self._pending_albums.get(gid)] and
    [if album and album.timer is not None: album.timer.cancel()]. *)
Definition cancel_timer_at (gid : Z) : M unit :=
  fun st =>
    match dict_get gid (_pending_albums st) with
    | Some album =>
        match album_timer album with
        | Some h => timer_cancel h st
        | None => (Ret tt, st)
        end
    | None => (Ret tt, st)
    end.

Definition flush_one (gid : Z) : M unit :=
  cancel_timer_at gid ;;
  _flush_album gid.

Definition flush_pending : M unit :=
  fun st => for_each (dict_keys (_pending_albums st)) flush_one st.

(** *** What the event loop does with the router

    A scheduled timer fires: it leaves the loop's timers and its callback
    runs, [asyncio.ensure_future(self._flush_album(gid))], which queues the
    flush as a task. *)
Definition loop_fire (h : nat) : M unit :=
  fun st =>
    match List.find (fun t => Nat.eqb (fst t) h) (loop_timers st) with
    | Some (_, gid) =>
        (Ret tt,
         set_loop
           (List.filter (fun t => negb (Nat.eqb (fst t) h)) (loop_timers st))
           (loop_next st) (loop_tasks st ++ [gid]) st)
    | None => (Ret tt, st)
    end.

(** The loop runs the oldest queued task. *)
Definition loop_run_task : M unit :=
  fun st =>
    match loop_tasks st with
    | gid :: rest =>
        _flush_album gid (set_loop (loop_timers st) (loop_next st) rest st)
    | [] => (Ret tt, st)
    end.

(** The steps a running program is made of: a message arrives, a timer
    fires, a queued flush runs, shutdown flushes everything.  An exception
    raised by a step is caught by its caller (the listener's handler logs
    it); the state the step reached stays. *)
Inductive Step :=
| Arrive (channel_name : str) (message : Message)
| Fire (h : nat)
| RunTask
| FlushPending.

Definition exec (s : Step) (st : State) : State :=
  snd (match s with
       | Arrive channel_name message => forward channel_name message st
       | Fire h => loop_fire h st
       | RunTask => loop_run_task st
       | FlushPending => flush_pending st
       end).

Definition run (steps : list Step) (st : State) : State :=
  fold_left (fun st s => exec s st) steps st.

End Program.


(** ** telegram_listener.py: the handler registered for new messages *)

(** What [await event.get_chat()] gives: it raises, it returns [None], or it
    returns a chat.  [title] is [None] when the chat object has no [title]
    attribute (a user rather than a channel or a group). *)
Inductive ChatLookup :=
| ChatRaises (e : Exn)
| ChatMissing
| ChatFound (title : option str) (id : Z).

(** A [NewMessage] event: its message and the answer to its chat lookup. *)
Record NewMessageEvent := {
  event_get_chat : ChatLookup;
  event_message : Message;
}.

(** [getattr(chat, "title", str(chat.id))] on a chat. *)
Definition channel_name_of (title : option str) (id : Z) : str :=
  match title with
  | Some title => title
  | None => of_int id
  end.

(** The [handler] closure of [register_handler], for the callback
    [router.forward] that [main] registers.  The chat lookup and the
    channel name come before the [try]: an exception of the lookup leaves
    the handler, and so does the [AttributeError] of [chat.id], evaluated
    for the default of [getattr], when the lookup returned [None].  An
    exception of the callback is caught and logged. *)
Definition handler (w : World) (self : MessageRouter)
  (event : NewMessageEvent) : M unit :=
  match event_get_chat event with
  | ChatRaises e => raise e
  | ChatMissing => raise AttributeError
  | ChatFound title id =>
      let channel_name := channel_name_of title id in
      fun st =>
        match forward w self channel_name (event_message event) st with
        | (Raise _, st') =>
            logger ERROR (fmt [lit "Callback failed for channel ";
                               channel_name]) st'
        | other => other
        end
  end.

(** ** config.py: the channel list of [AppConfig.from_env] *)

Definition COMMA : char := 44%N.

(** [s.split(sep)] for a separator of one character: the pieces between the
    occurrences of the separator, one more than there are occurrences. *)
Fixpoint split (sep : char) (s : str) : list str :=
  match s with
  | [] => [[]]
  | c :: rest =>
      if N.eqb c sep then [] :: split sep rest
      else match split sep rest with
           | piece :: pieces => (c :: piece) :: pieces
           | [] => [[c]]
           end
  end.

(** [[ch.strip() for ch in channels_raw.split(",") if ch.strip()]] *)
Definition parse_channels (channels_raw : str) : list str :=
  map strip (List.filter (fun ch => truthy (strip ch))
                         (split COMMA channels_raw)).

(** ** The event loop with the suspensions of the coroutines

    [exec] runs every step to its end.  In the program a coroutine can be
    suspended at each [await], and the loop runs other callbacks and tasks
    before it goes on.  For the albums this matters in [_flush_album] and in
    [flush_pending]: both take an album out of the dict and then await
    Telegram, the LLM and the sink while they process it.  [forward] awaits
    nothing on its album path and a timer callback is an ordinary function,
    so arrivals and timers are steps of the loop as they are.

    What follows cuts the two coroutines at the first [await] after the pop
    ([pop_album], and [cancel_timer_at] before it in [flush_pending]).
    The processing that comes after it, [process_album], is kept in one
    piece: it neither reads nor writes the pending dict, the timers or the
    queued tasks, so where the other steps fall between its own awaits makes
    no difference to them. *)

(** A coroutine suspended after it has popped an album: a task running
    [_flush_album], or a call of [flush_pending] inside the
    [await self._flush_album(gid)] of one key, with the keys its [for] loop
    has still to visit. *)
Inductive Coroutine :=
| InFlushAlbum (album : _PendingAlbum)
| InFlushPending (album : _PendingAlbum) (todo : list Z).

(** [flush_pending] from the head of its [for] loop to its next suspension:
    a key whose album is gone is passed over, since [_flush_album] returns
    for it without awaiting anything; at the first key that holds an album
    the timer of the album is cancelled and the album is popped. *)
Fixpoint flush_pending_to_await (todo : list Z) (st : State)
  : option Coroutine * State :=
  match todo with
  | [] => (None, st)
  | gid :: rest =>
      match pop_album gid (snd (cancel_timer_at gid st)) with
      | (Ret (Some album), st') => (Some (InFlushPending album rest), st')
      | (_, st') => flush_pending_to_await rest st'
      end
  end.

(** The loop: the state of the program, the suspended coroutines, and the
    albums whose processing has run, in the order in which it ran.  The last
    is a history kept for the proofs; the program has no such list. *)
Record Loop := {
  now : State;
  suspended : list Coroutine;
  processed : list _PendingAlbum;
}.

Definition boot : Loop :=
  {| now := initial; suspended := []; processed := [] |}.

Definition park (c : option Coroutine) (cs : list Coroutine)
  : list Coroutine :=
  match c with Some c => cs ++ [c] | None => cs end.

(** What the loop does next: a message arrives and [forward] runs; a timer
    fires; the oldest queued flush starts and runs to its first await; a
    suspended coroutine goes on; [flush_pending] is called and runs to its
    first await.  An exception that leaves a task or the handler ends it;
    the state it reached stays. *)
Inductive Tick :=
| Arrives (channel_name : str) (message : Message)
| Fires (h : nat)
| Starts
| Resumes (i : nat)
| Shutdown.

Definition tick (w : World) (self : MessageRouter) (t : Tick) (s : Loop)
  : Loop :=
  match t with
  | Arrives channel_name message =>
      {| now := snd (forward w self channel_name message (now s));
         suspended := suspended s; processed := processed s |}
  | Fires h =>
      {| now := snd (loop_fire h (now s));
         suspended := suspended s; processed := processed s |}
  | Starts =>
      match loop_tasks (now s) with
      | [] => s
      | gid :: rest =>
          let st :=
            set_loop (loop_timers (now s)) (loop_next (now s)) rest (now s) in
          match pop_album gid st with
          | (Ret (Some album), st') =>
              {| now := st';
                 suspended := suspended s ++ [InFlushAlbum album];
                 processed := processed s |}
          | (_, st') =>
              {| now := st'; suspended := suspended s;
                 processed := processed s |}
          end
      end
  | Resumes i =>
      match suspended s !! i with
      | None => s
      | Some (InFlushAlbum album) =>
          {| now := snd (process_album w self album (now s));
             suspended := delete i (suspended s);
             processed := processed s ++ [album] |}
      | Some (InFlushPending album todo) =>
          match process_album w self album (now s) with
          | (Ret _, st) =>
              let '(c, st') := flush_pending_to_await todo st in
              {| now := st'; suspended := park c (delete i (suspended s));
                 processed := processed s ++ [album] |}
          | (_, st) =>
              {| now := st; suspended := delete i (suspended s);
                 processed := processed s ++ [album] |}
          end
      end
  | Shutdown =>
      let '(c, st') :=
        flush_pending_to_await (dict_keys (_pending_albums (now s)))
                               (now s) in
      {| now := st'; suspended := park c (suspended s);
         processed := processed s |}
  end.

Definition play (w : World) (self : MessageRouter) (ticks : list Tick)
  (s : Loop) : Loop :=
  fold_left (fun s t => tick w self t s) ticks s.

(** * Vocabulary of the properties *)

(** What "the chunks give back the text, up to the characters stripped at
    the cuts" means: the text is the chunks in order, each followed by a
    (possibly empty) run of newlines and spaces. *)
Definition gaps_ok (gaps : list str) : Prop :=
  Forall (Forall (fun c => is_nl_sp c = true)) gaps.

Definition rebuild (chunks gaps : list str) : str :=
  concat (zip_with app chunks gaps).

(** The requests [send_text] makes for a list of chunks when none fails. *)
Definition text_posts (self : WhatsAppSender) (chunks : list str)
  : list Event :=
  map (fun chunk => Post (_messages_url self)
                         (TextPayload (recipient self) chunk)) chunks.

(** A request respects the limits of the sink. *)
Definition within_limits (e : Event) : Prop :=
  match e with
  | Post _ (TextPayload _ body) => len body <= MAX_TEXT
  | Post _ (MediaPayload _ _ _ (Some caption)) => len caption <= MAX_CAPTION
  | _ => True
  end.

(** No HTTP request fails: every response has a 2xx status, so that
    [raise_for_status] does not raise, and a body that is JSON, so that
    [json] does not raise. *)
Definition http_ok (w : World) : Prop :=
  forall n,
    is_success (http w n) = true /\ response_json (http w n) <> None.

(** The cut [send_media] makes in a caption that is too long. *)
Definition caption_cut (caption : str) : Z :=
  let cut := rfind caption SP 0 MAX_CAPTION in
  if cut <=? 0 then MAX_CAPTION else cut.

(** A world for the examples: the clock prints a fixed time, the LLM
    rejects everything as an advertisement, the sink and the HTTP server
    accept everything. *)
Definition world_ok : World :=
  {| strftime_local := fun _ => lit "2026-02-13 14:30";
     llm := fun _ => Some {| decision_action := SKIP;
                             decision_reason := lit "ad" |};
     sink_raises := fun _ => false;
     uploaded_id := fun _ => lit "media-id-123";
     http := fun _ => {| status_code := 200; response_text := lit "{}";
                         response_json := Some (JObject []) |} |}.

Definition sender_ex : WhatsAppSender :=
  {| phone_number_id := lit "1234567890"; recipient := lit "15551234567" |}.

(** The filename an attribute assigns in the loop of [_detect_media], if it
    assigns one. *)
Definition filename_set_by (attr : DocumentAttribute) : option str :=
  match attr with
  | DocumentAttributeFilename file_name => Some file_name
  | DocumentAttributeVideo true => Some (lit "video_note.mp4")
  | DocumentAttributeAudio true => Some (lit "voice.ogg")
  | DocumentAttributeSticker => Some (lit "sticker.webp")
  | _ => None
  end.

(** A message that carries the given document and no photo. *)
Definition document_message (doc : Document) : Message :=
  {| msg_id := 1; msg_text := None; msg_date := 0; grouped_id := None;
     photo := false; document := Some doc;
     get_chat := {| username := None |}; download_media := None |}.

(** A text with nothing to analyse: empty, or white space only. *)
Definition blank (text : str) : Prop :=
  Forall (fun c => isspace c = true) text.

(** The call [_run_filter] makes to the LLM for a rule. *)
Definition llm_event (config : LLMConfig) (text : str) (rule : FilterRule)
  : Event :=
  LLMParse (model config) (system_prompt_of (prompt rule)) text.

(** An outcome of the LLM that rejects the text. *)
Definition rejects (outcome : option FilterDecision) : bool :=
  match outcome with
  | Some decision => is_skip (decision_action decision)
  | None => false
  end.

(** The record [_run_filter] logs when the call to the LLM fails. *)
Definition failure_record (rule_name : str) : Level * str :=
  (ERROR, fmt [lit "Filter ["; rule_name;
               lit "] failed, forwarding by default"]).

(** A world in which every call to the LLM raises. *)
Definition world_llm_down : World :=
  {| strftime_local := strftime_local world_ok;
     llm := fun _ => None;
     sink_raises := sink_raises world_ok;
     uploaded_id := uploaded_id world_ok;
     http := http world_ok |}.

Definition rule_ads : FilterRule :=
  {| name := lit "ads"; prompt := lit "Skip advertisements." |}.
Definition rule_spam : FilterRule :=
  {| name := lit "spam"; prompt := lit "Skip spam." |}.
Definition config_ex : LLMConfig :=
  {| model := lit "gpt"; filters := [rule_ads; rule_spam] |}.

(** A world in which the LLM accepts at its first call and rejects, as
    spam, from then on. *)
Definition world_second_rejects : World :=
  {| strftime_local := strftime_local world_ok;
     llm := fun n =>
              if Nat.eqb n 0
              then Some {| decision_action := FORWARD;
                           decision_reason := lit "fine" |}
              else Some {| decision_action := SKIP;
                           decision_reason := lit "spam detected" |};
     sink_raises := sink_raises world_ok;
     uploaded_id := uploaded_id world_ok;
     http := http world_ok |}.

(** [sub] occurs in [s]. *)
Definition contains (sub s : str) : Prop := exists a b, s = a ++ sub ++ b.

Definition is_llm_call (e : Event) : Prop :=
  match e with LLMParse _ _ _ => True | _ => False end.

(** The calls to the sink among some events. *)
Definition is_sink_call (e : Event) : bool :=
  match e with
  | SendText _ | UploadMedia _ _ _ | SendMedia _ _ _ => true
  | _ => false
  end.
Definition sink_calls (events : list Event) : list Event :=
  List.filter is_sink_call events.

(** The downloads among some events. *)
Definition is_download (e : Event) : bool :=
  match e with DownloadMedia _ => true | _ => false end.
Definition downloads (events : list Event) : list Event :=
  List.filter is_download events.

(** No call to the sink raises. *)
Definition sink_ok (w : World) : Prop := forall n, sink_raises w n = false.

(** The part of the state that belongs to the router and the event loop. *)
Definition router_of (st : State)
  : dict * list (nat * Z) * nat * list Z :=
  (_pending_albums st, loop_timers st, loop_next st, loop_tasks st).

(** A message whose media is classified as supported: its download is
    attempted. *)
Definition fetched (m : Message) : bool :=
  match _detect_media m with
  | Some (_, mime, _) => supported mime
  | None => false
  end.

(** A message whose media is supported and downloads: category, MIME type,
    filename and bytes of the media. *)
Definition media_of (m : Message) : option (str * str * str * bytes) :=
  match _detect_media m with
  | Some (wa_type, mime, filename) =>
      if supported mime then
        match download_media m with
        | Some file_bytes => Some (wa_type, mime, filename, file_bytes)
        | None => None
        end
      else None
  | None => None
  end.

(** One [upload_media] and one [send_media] call per media, in order, the
    uploads answered by the given ids; [caption] goes to the first
    [send_media] only. *)
Fixpoint media_pairs (caption : option str)
  (media : list (str * str * str * bytes)) (ids : list str) : list Event :=
  match media, ids with
  | (wa_type, mime, filename, file_bytes) :: media', id :: ids' =>
      UploadMedia file_bytes mime filename
      :: SendMedia wa_type id caption
      :: media_pairs None media' ids'
  | _, _ => []
  end.

(** The verdict of the filter on the text of a unit of work, when a filter
    is configured and the unit has text. *)
Definition verdict_on (w : World) (self : MessageRouter) (text : option str)
  (st : State) : option FilterResult :=
  match filter self with
  | Some config =>
      if truthy_opt text then
        match fst (evaluate w config (default [] text) st) with
        | Ret result => Some result
        | _ => None
        end
      else None
  | None => None
  end.

Definition skipped (w : World) (self : MessageRouter) (text : option str)
  (st : State) : bool :=
  match verdict_on w self text st with
  | Some result => is_skip (action result)
  | None => false
  end.

(** A computation that leaves the pending albums and the event loop alone
    and only adds to the trace. *)
Definition quiet {A} (m : M A) : Prop :=
  forall st,
    router_of (snd (m st)) = router_of st /\
    exists new, trace (snd (m st)) = trace st ++ new.

(** A computation that does not depend on the pending albums: it runs the
    same way whatever the dict holds. *)
Definition blind {A} (m : M A) : Prop :=
  forall (p : dict) (st : State),
    m (set_pending p st) = (fst (m st), set_pending p (snd (m st))).

(** A world for the examples in which the LLM accepts everything. *)
Definition world_accepts : World :=
  {| strftime_local := strftime_local world_ok;
     llm := fun _ => Some {| decision_action := FORWARD;
                             decision_reason := lit "fine" |};
     sink_raises := sink_raises world_ok;
     uploaded_id := uploaded_id world_ok;
     http := http world_ok |}.

(** Routers and messages for the examples. *)
Definition router_plain : MessageRouter := {| filter := None |}.
Definition router_filtering : MessageRouter :=
  {| filter := Some config_ex |}.

Definition photo_message (text : option str) (gid : option Z) (id : Z)
  (file : option bytes) : Message :=
  {| msg_id := id; msg_text := text; msg_date := 0; grouped_id := gid;
     photo := true; document := None;
     get_chat := {| username := Some (lit "chan") |};
     download_media := file |}.

(** The download attempts an album makes: one per message whose media is
    classified as supported, in order. *)
Definition album_downloads (msgs : list Message) : list Event :=
  map (fun m => DownloadMedia (msg_id m)) (List.filter fetched msgs).

(** No message of the list has a media that is supported and downloads. *)
Definition no_media (msgs : list Message) : bool :=
  match omap media_of msgs with [] => true | _ :: _ => false end.

(** An album of three photos arrived under group 10, the text on the
    second; the third does not download. *)
Definition album_arrivals : list Message :=
  [photo_message None (Some 10) 1 (Some []);
   photo_message (Some (lit "cap")) (Some 10) 2 (Some []);
   photo_message None (Some 10) 3 None].

Definition album_ex : _PendingAlbum :=
  {| album_channel_name := lit "Ch"; album_messages := album_arrivals;
     album_timer := Some 2%nat |}.

(** The same album when nothing downloads. *)
Definition album_lost : _PendingAlbum :=
  {| album_channel_name := lit "Ch";
     album_messages := [photo_message (Some (lit "cap")) (Some 10) 1 None;
                        photo_message None (Some 10) 2 None];
     album_timer := None |}.

Definition state_with (gid : Z) (album : _PendingAlbum) : State :=
  set_pending [(gid, album)] initial.

(** The completion of one entry of the pending dict, as [flush_pending]
    performs it: the album's timer is cancelled, the album leaves the dict,
    and only then is it processed. *)
Definition complete_album (w : World) (self : MessageRouter)
  (entry : Z * _PendingAlbum) : M unit :=
  let '(gid, album) := entry in
  bind (match album_timer album with
        | Some h => timer_cancel h
        | None => ret tt
        end)
       (fun _ st =>
          process_album w self album
            (set_pending (dict_del gid (_pending_albums st)) st)).

(** The album a group holds once [message] has been added to it. *)
Definition album_after (channel_name : str) (message : Message)
  (before : option _PendingAlbum) (h : nat) : _PendingAlbum :=
  match before with
  | Some album =>
      {| album_channel_name := album_channel_name album;
         album_messages := album_messages album ++ [message];
         album_timer := Some h |}
  | None =>
      {| album_channel_name := channel_name;
         album_messages := [message];
         album_timer := Some h |}
  end.

(** No group key is pending twice. *)
Definition keys_unique (st : State) : Prop :=
  NoDup (dict_keys (_pending_albums st)).

(** The captions of the [send_media] calls among some events. *)
Definition captions (events : list Event) : list (option str) :=
  omap (fun e => match e with
                 | SendMedia _ _ caption => Some caption
                 | _ => None
                 end) events.

(** * Vocabulary of the further properties *)

(** A string that does not begin with a newline or a space. *)
Definition starts_clean (s : str) : Prop :=
  match s with [] => True | x :: _ => is_nl_sp x = false end.

(** The character at an index of a string, for an index given as the source
    has it (an integer). *)
Definition char_at (s : str) (i : Z) : option char :=
  if i <? 0 then None else s !! Z.to_nat i.

(** A response the sender goes on after: a 2xx status, so that
    [raise_for_status] does not raise, and a body that is JSON, so that
    [json] does not raise. *)
Definition accepted (response : Response) : bool :=
  (is_success response
   && match response_json response with Some _ => true | None => false end)%bool.

(** Kinds of attributes, as [_detect_media] tells them apart. *)
Definition is_sticker_attr (a : DocumentAttribute) : bool :=
  match a with DocumentAttributeSticker => true | _ => false end.
Definition is_voice_attr (a : DocumentAttribute) : bool :=
  match a with DocumentAttributeAudio true => true | _ => false end.
Definition is_audio_attr (a : DocumentAttribute) : bool :=
  match a with DocumentAttributeAudio _ => true | _ => false end.
Definition is_video_attr (a : DocumentAttribute) : bool :=
  match a with
  | DocumentAttributeVideo _ | DocumentAttributeAnimated => true
  | _ => false
  end.

(** The MIME type [_detect_media] starts from: the declared one, or the
    default when none is declared. *)
Definition declared_mime (doc : Document) : str :=
  if truthy_opt (mime_type doc) then default [] (mime_type doc)
  else lit "application/octet-stream".

(** Category and MIME type of a classification. *)
Definition kind_of (r : option (str * str * str)) : option (str * str) :=
  match r with
  | Some (wa_type, mime, _) => Some (wa_type, mime)
  | None => None
  end.

(** A computation whose new events all satisfy [P], and which neither fails
    to return nor raises [IndexError]: it returns, or raises the sink's
    [HTTPStatusError]. *)
Definition tame (P : Event -> Prop) {A} (m : M A) : Prop :=
  forall st,
    (exists new, trace (snd (m st)) = trace st ++ new /\ Forall P new) /\
    fst (m st) <> Diverge /\ fst (m st) <> Raise IndexError.

Definition not_llm_call (e : Event) : Prop := ~ is_llm_call e.

(** A call to the LLM about the given text. *)
Definition llm_call_about (text : str) (e : Event) : Prop :=
  exists model system_prompt, e = LLMParse model system_prompt text.

(** Every pending album has a non-zero key, at least one message, and only
    messages of its group. *)
Definition albums_well_formed (st : State) : Prop :=
  forall gid album,
    In (gid, album) (_pending_albums st) ->
    gid <> 0 /\ album_messages album <> [] /\
    Forall (fun m => grouped_id m = Some gid) (album_messages album).

(** An outcome other than the two the router cannot recover from by itself:
    an [IndexError] on an empty album and a computation that does not
    return. *)
Definition sound_outcome {A} (o : Outcome A) : Prop :=
  o <> Diverge /\ o <> Raise IndexError.

(** The timers left when the timer of an album, if there is one, is
    cancelled. *)
Definition cancel_timer_of (o : option _PendingAlbum)
  (timers : list (nat * Z)) : list (nat * Z) :=
  match o with
  | Some album =>
      match album_timer album with
      | Some h => List.filter (fun t => negb (Nat.eqb (fst t) h)) timers
      | None => timers
      end
  | None => timers
  end.

(** Every scheduled timer has a handle the loop has already given out. *)
Definition timers_fresh (st : State) : Prop :=
  forall h g, In (h, g) (loop_timers st) -> (h < loop_next st)%nat.

(** Every pending album holds the handle of a timer of its own that is
    still scheduled, unless a flush of its key is already queued. *)
Definition albums_timed (st : State) : Prop :=
  forall gid album,
    In (gid, album) (_pending_albums st) ->
    exists h,
      album_timer album = Some h /\ (h < loop_next st)%nat /\
      (forall g, In (h, g) (loop_timers st) -> g = gid) /\
      (In (h, gid) (loop_timers st) \/ In gid (loop_tasks st)).

(** Worlds and messages for the examples of the further properties. *)

(** A world in which every HTTP request is answered with an error. *)
Definition world_http_down : World :=
  {| strftime_local := strftime_local world_ok;
     llm := llm world_ok;
     sink_raises := sink_raises world_ok;
     uploaded_id := uploaded_id world_ok;
     http := fun _ => {| status_code := 400;
                         response_text := lit "bad request";
                         response_json := None |} |}.

(** A world in which the second HTTP request is answered with a redirect. *)
Definition world_http_redirects_second : World :=
  {| strftime_local := strftime_local world_ok;
     llm := llm world_ok;
     sink_raises := sink_raises world_ok;
     uploaded_id := uploaded_id world_ok;
     http := fun n => if Nat.eqb n 1
                      then {| status_code := 302;
                              response_text := [];
                              response_json := None |}
                      else http world_ok n |}.

(** A world in which every call to the sink raises. *)
Definition world_sink_down : World :=
  {| strftime_local := strftime_local world_ok;
     llm := llm world_ok;
     sink_raises := fun _ => true;
     uploaded_id := uploaded_id world_ok;
     http := http world_ok |}.

(** A message with a text and no media. *)
Definition text_message (text : str) : Message :=
  {| msg_id := 7; msg_text := Some text; msg_date := 0; grouped_id := None;
     photo := false; document := None;
     get_chat := {| username := Some (lit "chan") |};
     download_media := None |}.

(** A caption of 1000 letters, a space and 100 letters. *)
Definition long_caption : str := repeat 97%N 1000 ++ [SP] ++ repeat 98%N 100.

(** A text of 5000 letters, without newline or space. *)
Definition long_word : str := repeat 97%N 5000.

(** [sep.join(pieces)] for a separator of one character. *)
Fixpoint join (sep : char) (pieces : list str) : str :=
  match pieces with
  | [] => []
  | [piece] => piece
  | piece :: rest => piece ++ sep :: join sep rest
  end.

(** A string that does not begin with white space. *)
Definition starts_solid (s : str) : Prop :=
  match s with [] => True | c :: _ => isspace c = false end.

(** A channel name as the configuration keeps it: not empty, without comma,
    and without white space at either end. *)
Definition channel_name_ok (ch : str) : Prop :=
  truthy ch = true /\ ~ In COMMA ch /\
  starts_solid ch /\ starts_solid (rev ch).

(** *** Vocabulary of the loop with suspensions *)

(** The album a suspended coroutine has popped and is about to process. *)
Definition coroutine_album (c : Coroutine) : _PendingAlbum :=
  match c with
  | InFlushAlbum album => album
  | InFlushPending album _ => album
  end.

(** Every album there is: those whose processing has run, those popped by a
    coroutine that is suspended, and those pending. *)
Definition albums (s : Loop) : list _PendingAlbum :=
  processed s ++ map coroutine_album (suspended s)
  ++ map snd (_pending_albums (now s)).

(** The messages of all these albums. *)
Definition held (s : Loop) : list Message :=
  flat_map album_messages (albums s).

(** A message [forward] buffers: its group id is neither absent nor 0. *)
Definition buffered (m : Message) : bool :=
  match grouped_id m with
  | Some gid => negb (Z.eqb gid 0)
  | None => false
  end.

(** The buffered messages a schedule brings, in the order of arrival. *)
Definition arrived (t : Tick) : list Message :=
  match t with
  | Arrives _ m => if buffered m then [m] else []
  | _ => []
  end.
Definition arrivals (ticks : list Tick) : list Message :=
  flat_map arrived ticks.

(** The three invariants of the pending dict and its timers. *)
Definition timed (st : State) : Prop :=
  keys_unique st /\ timers_fresh st /\ albums_timed st.

(** Every album holds messages that arrived, in the order of arrival. *)
Definition in_order (arrived_so_far : list Message) (s : Loop) : Prop :=
  forall album,
    In album (albums s) -> sublist (album_messages album) arrived_so_far.

(** A state with the pending dict and the loop replaced. *)
Definition restate (p : dict) (timers : list (nat * Z)) (next : nat)
  (tasks : list Z) (st : State) : State :=
  {| _pending_albums := p; loop_timers := timers; loop_next := next;
     loop_tasks := tasks; trace := trace st; log := log st |}.

(** A computation that keeps clear of the pending dict and of the loop: it
    runs the same way whatever they hold, and leaves them as they are. *)
Definition aloof {A} (m : M A) : Prop :=
  forall (p : dict) (timers : list (nat * Z)) (next : nat) (tasks : list Z)
         (st : State),
    m (restate p timers next tasks st)
    = (fst (m st), restate p timers next tasks (snd (m st))).
(** * Properties *)

(** ** Strings *)

Lemma adjust_inside (i n : Z) : 0 <= i <= n -> adjust i n = i.
Proof.
  intros H. unfold adjust.
  destruct (Z.ltb_spec i 0); lia.
Qed.

Lemma rfind_at_range (s : str) (c : char) (i lo hi : Z) :
  rfind_at s c i lo hi = -1 \/
  (lo <= rfind_at s c i lo hi < hi /\ i <= rfind_at s c i lo hi).
Proof.
  revert i. induction s as [|x s IH]; intros i; simpl; [now left|].
  destruct (Z.leb_spec 0 (rfind_at s c (i + 1) lo hi)) as [Hr|Hr].
  - destruct (IH (i + 1)) as [E|[? ?]]; [lia|]. right. lia.
  - destruct (N.eqb x c); simpl; [|now left].
    destruct (Z.leb_spec lo i); simpl; [|now left].
    destruct (Z.ltb_spec i hi); simpl; [|now left].
    right. lia.
Qed.

Lemma rfind_lt (s : str) (c : char) (limit : Z) :
  0 < limit -> rfind s c 0 limit < limit.
Proof.
  intros Hl. unfold rfind.
  assert (Hs : adjust limit (len s) <= limit).
  { unfold adjust. destruct (Z.ltb_spec limit 0); lia. }
  destruct (rfind_at_range s c 0 (adjust 0 (len s)) (adjust limit (len s)))
    as [E|[? ?]]; lia.
Qed.

Lemma split_cut_range (text : str) (limit : Z) :
  0 < limit -> 1 <= split_cut text limit <= limit.
Proof.
  intros Hl. unfold split_cut.
  pose proof (rfind_lt text NL limit Hl).
  pose proof (rfind_lt text SP limit Hl).
  repeat match goal with
         | |- context [?a <=? ?b] => destruct (Z.leb_spec a b)
         end; lia.
Qed.

Lemma slice_split (s : str) (i : Z) : s = slice_to s i ++ slice_from s i.
Proof. unfold slice_to, slice_from. now rewrite take_drop. Qed.

Lemma len_slice_to (s : str) (i : Z) :
  0 <= i <= len s -> len (slice_to s i) = i.
Proof.
  intros H. unfold slice_to, len in *.
  rewrite adjust_inside by exact H.
  rewrite length_take. lia.
Qed.

Lemma len_slice_from (s : str) (i : Z) :
  0 <= i <= len s -> len (slice_from s i) = len s - i.
Proof.
  intros H. unfold slice_from, len in *.
  rewrite adjust_inside by exact H.
  rewrite length_drop. lia.
Qed.

(** [lstrip] removes a prefix made of the stripped characters only. *)
Lemma lstrip_with_prefix (p : char -> bool) (s : str) :
  exists gap, Forall (fun c => p c = true) gap /\ s = gap ++ lstrip_with p s.
Proof.
  induction s as [|x s [gap [Hg E]]]; simpl.
  - exists []. split; [constructor|reflexivity].
  - destruct (p x) eqn:Hx.
    + exists (x :: gap). split; [now constructor|]. simpl. now f_equal.
    + exists []. split; [constructor|reflexivity].
Qed.

Lemma lstrip_with_length (p : char -> bool) (s : str) :
  (length (lstrip_with p s) <= length s)%nat.
Proof.
  induction s as [|x s IH]; simpl; [lia|].
  destruct (p x); simpl; lia.
Qed.

(** ** The text splitter *)

Lemma split_loop_spec (limit : Z) :
  0 < limit ->
  forall (fuel : nat) (text : str) (chunks : list str),
    (length text < fuel)%nat ->
    exists cs gaps,
      split_loop fuel text limit chunks = Some (chunks ++ cs) /\
      Forall (fun c => len c <= limit) cs /\
      length gaps = length cs /\ gaps_ok gaps /\
      text = rebuild cs gaps.
Proof.
  intros Hl. induction fuel as [|fuel IH]; intros text chunks Hf; [lia|].
  simpl. destruct text as [|x text'] eqn:Et.
  { exists [], []. simpl. rewrite app_nil_r.
    repeat split; constructor. }
  rewrite <- Et in *. assert (Htr : truthy text = true) by now subst.
  rewrite Htr. simpl.
  destruct (Z.leb_spec (len text) limit) as [Hshort|Hlong].
  { exists [text], [[]]. unfold rebuild. simpl. rewrite !app_nil_r.
    repeat split; repeat constructor; assumption. }
  pose proof (split_cut_range text limit Hl) as Hc.
  set (cut := split_cut text limit) in *.
  destruct (lstrip_with_prefix is_nl_sp (slice_from text cut))
    as [gap [Hgap Egap]].
  assert (Hlen : (length (lstrip_with is_nl_sp (slice_from text cut))
                  < fuel)%nat).
  { pose proof (lstrip_with_length is_nl_sp (slice_from text cut)).
    pose proof (len_slice_from text cut ltac:(lia)) as Hd.
    unfold len in *. lia. }
  destruct (IH _ (chunks ++ [slice_to text cut]) Hlen)
    as [cs [gaps [Hrun [Hle [Hn [Hg Hre]]]]]].
  exists (slice_to text cut :: cs), (gap :: gaps).
  split; [rewrite Hrun, <- app_assoc; reflexivity|].
  split; [constructor; [rewrite len_slice_to; lia|exact Hle]|].
  split; [simpl; now f_equal|].
  split; [now constructor|].
  unfold rebuild in *. simpl. rewrite <- Hre, <- app_assoc, <- Egap.
  apply slice_split.
Qed.

(** The splitter returns, with chunks within the limit. *)
Lemma split_text_returns (text : str) (limit : Z) :
  0 < limit ->
  exists chunks,
    _split_text text limit = Some chunks /\
    Forall (fun c => len c <= limit) chunks.
Proof.
  intros Hl. unfold _split_text.
  destruct (Z.leb_spec (len text) limit) as [Hshort|Hlong].
  - exists [text]. split; [reflexivity|]. repeat constructor; assumption.
  - destruct (split_loop_spec limit Hl (S (length text)) text [] ltac:(lia))
      as [cs [gaps [H1 [H2 _]]]].
    exists cs. split; [exact H1|exact H2].
Qed.

(** C3. For every text and every limit [L > 0] the splitter returns (the loop
    ends within the rounds it is given); every chunk has length at most [L];
    and the text is the chunks in order, each followed by the newlines and
    spaces the splitter stripped after that cut. *)
Theorem split_text_chunks (text : str) (limit : Z) :
  0 < limit ->
  exists chunks gaps,
    _split_text text limit = Some chunks /\
    Forall (fun c => len c <= limit) chunks /\
    length gaps = length chunks /\ gaps_ok gaps /\
    text = rebuild chunks gaps.
Proof.
  intros Hl. unfold _split_text.
  destruct (Z.leb_spec (len text) limit) as [Hshort|Hlong].
  - exists [text], [[]]. unfold rebuild. simpl. rewrite !app_nil_r.
    repeat split; repeat constructor; assumption.
  - destruct (split_loop_spec limit Hl (S (length text)) text [] ltac:(lia))
      as [cs [gaps H]].
    exists cs, gaps. exact H.
Qed.

Lemma split_text_chunks_witness :
  exists chunks gaps,
    _split_text (lit "hello world foo bar") 7 = Some chunks /\
    Forall (fun c => len c <= 7) chunks /\
    length gaps = length chunks /\ gaps_ok gaps /\
    lit "hello world foo bar" = rebuild chunks gaps.
Proof.
  apply (split_text_chunks (lit "hello world foo bar") 7). reflexivity.
Defined.

(** ** The sender: what reaches the HTTP client *)

Section SenderFacts.

Variable w : World.
Variable self : WhatsAppSender.

Lemma is_error_not_success (response : Response) :
  is_error response = true -> is_success response = false.
Proof. unfold is_error, is_success. lia. Qed.

Lemma http_ok_at (n : nat) :
  http_ok w ->
  is_error (http w n) = false /\ is_success (http w n) = true /\
  exists body, response_json (http w n) = Some body.
Proof.
  intros Hok. destruct (Hok n) as [Hs Hj].
  split; [|split; [exact Hs|]].
  - destruct (is_error (http w n)) eqn:E; [|reflexivity].
    apply is_error_not_success in E. congruence.
  - destruct (response_json (http w n)) as [body|]; [now exists body|].
    now contradiction Hj.
Qed.

(** The three ways a response is taken: with a status other than 2xx
    [raise_for_status] raises; with a 2xx status and a body that is not JSON
    [json] raises; otherwise the decoded body is the result. *)
Ltac answer_cases st :=
  unfold raise_for_status, json;
  destruct (is_error (http w (length (trace st))));
  destruct (is_success (http w (length (trace st))));
  destruct (response_json (http w (length (trace st))));
  simpl.

Lemma send_text_loop_trace (chunks : list str) :
  forall (results : list Json) (st : State),
    exists k,
      trace (snd (send_text_loop w self chunks results st))
      = trace st ++ take k (text_posts self chunks).
Proof.
  induction chunks as [|chunk rest IH]; intros results st; simpl.
  - exists O. simpl. now rewrite app_nil_r.
  - unfold bind, emit, logger, ret, raise. simpl.
    answer_cases st;
      try (exists 1%nat; reflexivity);
      match goal with
      | |- context [send_text_loop w self rest ?r ?s] =>
          destruct (IH r s) as [k Hk];
          exists (S k); (etransitivity; [exact Hk|]); simpl;
          now rewrite <- app_assoc
      end.
Qed.

Lemma send_text_loop_ok (chunks : list str) :
  http_ok w ->
  forall (results : list Json) (st : State),
    exists out,
      fst (send_text_loop w self chunks results st) = Ret out /\
      trace (snd (send_text_loop w self chunks results st))
      = trace st ++ text_posts self chunks.
Proof.
  intros Hok. induction chunks as [|chunk rest IH]; intros results st; simpl.
  - exists results. simpl. now rewrite app_nil_r.
  - destruct (http_ok_at (length (trace st)) Hok) as [He [Hs [body Hb]]].
    unfold bind, ret, raise_for_status, json. simpl.
    rewrite He, Hs, Hb. simpl.
    match goal with
    | |- context [send_text_loop w self rest ?r ?s] =>
        destruct (IH r s) as [out [Ho Ht]]
    end.
    exists out. split; [exact Ho|]. etransitivity; [exact Ht|]. simpl.
    now rewrite <- app_assoc.
Qed.

Lemma text_posts_within (chunks : list str) :
  Forall (fun c => len c <= MAX_TEXT) chunks ->
  Forall within_limits (text_posts self chunks).
Proof.
  intros H. unfold text_posts.
  induction H as [|c cs Hc _ IH]; simpl; constructor; [exact Hc|exact IH].
Qed.

Lemma send_text_trace (text : str) (st : State) :
  exists chunks k,
    _split_text text MAX_TEXT = Some chunks /\
    Forall (fun c => len c <= MAX_TEXT) chunks /\
    trace (snd (send_text w self text st))
    = trace st ++ take k (text_posts self chunks).
Proof.
  destruct (split_text_returns text MAX_TEXT ltac:(reflexivity))
    as [chunks [Hs Hle]].
  unfold send_text. rewrite Hs.
  destruct (send_text_loop_trace chunks [] st) as [k Hk].
  exists chunks, k. auto.
Qed.

Lemma send_text_within (text : str) (st : State) :
  exists new,
    trace (snd (send_text w self text st)) = trace st ++ new /\
    Forall within_limits new.
Proof.
  destruct (send_text_trace text st) as [chunks [k [_ [Hle Ht]]]].
  exists (take k (text_posts self chunks)). split; [exact Ht|].
  apply Forall_take. now apply text_posts_within.
Qed.

Lemma caption_cut_range (caption : str) : 1 <= caption_cut caption <= MAX_CAPTION.
Proof.
  unfold caption_cut.
  pose proof (rfind_lt caption SP MAX_CAPTION ltac:(reflexivity)).
  assert (1 <= MAX_CAPTION) by (unfold MAX_CAPTION; lia).
  destruct (Z.leb_spec (rfind caption SP 0 MAX_CAPTION) 0); lia.
Qed.

Lemma send_media_within (media_type media_id : str) (caption : option str)
  (st : State) :
  exists new,
    trace (snd (send_media w self media_type media_id caption st))
    = trace st ++ new /\
    Forall within_limits new.
Proof.
  unfold send_media.
  set (cond := (truthy_opt caption
                && existsb (str_eqb media_type) caption_types)%bool).
  destruct cond.
  - destruct (Z.ltb_spec MAX_CAPTION (len (default [] caption))) as [Hlong|Hs].
    + fold (caption_cut (default [] caption)).
      pose proof (caption_cut_range (default [] caption)) as Hc.
      assert (Hw : within_limits
                     (Post (_messages_url self)
                        (MediaPayload (recipient self) media_type media_id
                           (Some (slice_to (default [] caption)
                                    (caption_cut (default [] caption)))))))
        by (simpl; rewrite len_slice_to; lia).
      unfold bind at 1. unfold bind at 1. unfold bind at 1.
      unfold emit, ret, raise. simpl.
      answer_cases st;
        try (eexists; split; [reflexivity|]; repeat constructor; exact Hw).
      all: destruct (truthy _);
        [|simpl; eexists; split; [reflexivity|];
          repeat constructor; exact Hw].
      all: unfold bind;
        match goal with
        | |- context [send_text w self ?t ?s] =>
            destruct (send_text_within t s) as [new [Hn Hf]];
            destruct (send_text w self t s) as [[out|e|] s'] eqn:E
        end; simpl in *; rewrite Hn, <- app_assoc;
        (eexists; split; [reflexivity|]);
        (constructor; [exact Hw|exact Hf]).
    + assert (Hw : within_limits
                     (Post (_messages_url self)
                        (MediaPayload (recipient self) media_type media_id
                           (Some (default [] caption))))) by exact Hs.
      unfold bind, emit, ret, raise. simpl.
      answer_cases st;
        (eexists; split; [reflexivity|]); repeat constructor; exact Hw.
  - unfold bind, emit, ret, raise. simpl.
    answer_cases st;
      (eexists; split; [reflexivity|]); repeat constructor.
Qed.

Lemma caption_types_accept (media_type : str) :
  In media_type caption_types ->
  existsb (str_eqb media_type) caption_types = true.
Proof.
  intros [E|[E|[E|[]]]]; subst media_type; vm_compute; reflexivity.
Qed.

Lemma len_pos_truthy (s : str) : 0 < len s -> truthy s = true.
Proof. destruct s; [unfold len; simpl; lia|reflexivity]. Qed.

(** A caption that is too long, sent with an image, a video or a document,
    every request being answered with a 2xx status and a JSON body: the
    media request carries the caption up to the cut, and the rest, stripped
    of leading white space, follows as text if anything is left of it. *)
Lemma send_media_overflow (media_type media_id caption : str) (st : State) :
  In media_type caption_types ->
  MAX_CAPTION < len caption ->
  http_ok w ->
  let head := slice_to caption (caption_cut caption) in
  let overflow := lstrip (slice_from caption (caption_cut caption)) in
  exists chunks gap,
    _split_text overflow MAX_TEXT = Some chunks /\
    Forall (fun c => isspace c = true) gap /\
    caption = head ++ gap ++ overflow /\
    trace (snd (send_media w self media_type media_id (Some caption) st))
    = trace st
      ++ Post (_messages_url self)
              (MediaPayload (recipient self) media_type media_id (Some head))
      :: (if truthy overflow then text_posts self chunks else []).
Proof.
  intros Hin Hlong Hok head overflow.
  destruct (split_text_returns overflow MAX_TEXT ltac:(reflexivity))
    as [chunks [Hs _]].
  destruct (lstrip_with_prefix isspace
              (slice_from caption (caption_cut caption))) as [gap [Hg Eg]].
  exists chunks, gap. split; [exact Hs|]. split; [exact Hg|].
  split.
  { unfold head, overflow, lstrip. rewrite <- Eg. apply slice_split. }
  unfold send_media. unfold truthy_opt.
  change (default [] (Some caption)) with caption.
  rewrite (len_pos_truthy caption) by (unfold MAX_CAPTION in Hlong; lia).
  rewrite (caption_types_accept _ Hin). simpl andb.
  destruct (Z.ltb_spec MAX_CAPTION (len caption)) as [_|Hs']; [|lia].
  fold (caption_cut caption). fold head. fold overflow.
  destruct (http_ok_at (length (trace st)) Hok) as [_ [Hsucc [body Hb]]].
  unfold bind at 1. unfold bind at 1. unfold bind at 1.
  unfold raise_for_status, json. simpl. rewrite Hsucc, Hb. simpl.
  destruct (truthy overflow) eqn:Et.
  - unfold bind, send_text. rewrite Hs.
    match goal with
    | |- context [send_text_loop w self chunks ?r ?s] =>
        destruct (send_text_loop_ok chunks Hok r s) as [out [Ho Ht]];
        destruct (send_text_loop w self chunks r s) as [o s'] eqn:E
    end.
    simpl in Ho, Ht. subst o. simpl. rewrite Ht. simpl.
    now rewrite <- app_assoc.
  - reflexivity.
Qed.

(** A media request that is not accepted: [send_media] raises after that one
    request, whatever the caption. *)
Lemma send_media_refused (media_type media_id : str) (caption : option str)
  (st : State) :
  accepted (http w (length (trace st))) = false ->
  fst (send_media w self media_type media_id caption st)
  = Raise (if is_success (http w (length (trace st)))
           then ValueError else HTTPStatusError) /\
  exists attached,
    trace (snd (send_media w self media_type media_id caption st))
    = trace st ++ [Post (_messages_url self)
                        (MediaPayload (recipient self) media_type media_id
                                      attached)].
Proof.
  intros Hno. unfold accepted in Hno. unfold send_media.
  destruct (truthy_opt caption && existsb (str_eqb media_type) caption_types)%bool;
    [destruct (MAX_CAPTION <? len (default [] caption))|];
    unfold bind, emit, raise, ret, raise_for_status, json; simpl;
    destruct (is_success (http w (length (trace st))));
    destruct (response_json (http w (length (trace st))));
    simpl in *; try discriminate;
    (split; [reflexivity|eexists; reflexivity]).
Qed.

(** C4, amended.  Every text body given to the HTTP client has length at most
    [MAX_TEXT] and every caption put in a media request has length at most
    [MAX_CAPTION], whatever is sent and whatever the server answers.  When a
    caption longer than [MAX_CAPTION] is sent with an image, a video or a
    document and every request is answered with a 2xx status and a body that
    is JSON, the media request carries the caption up to the cut and the part
    after the cut, stripped of leading white space, follows the media
    request as text, in chunks of at most [MAX_TEXT], provided it is not
    empty.  When the media request is answered otherwise, [send_media] raises
    and that request is the only one made: the part after the cut is not
    sent. *)
Theorem sender_respects_limits :
  (forall (text : str) (st : State),
     exists new,
       trace (snd (send_text w self text st)) = trace st ++ new /\
       Forall within_limits new) /\
  (forall (media_type media_id : str) (caption : option str) (st : State),
     exists new,
       trace (snd (send_media w self media_type media_id caption st))
       = trace st ++ new /\
       Forall within_limits new) /\
  (forall (media_type media_id caption : str) (st : State),
     In media_type caption_types ->
     MAX_CAPTION < len caption ->
     http_ok w ->
     let head := slice_to caption (caption_cut caption) in
     let overflow := lstrip (slice_from caption (caption_cut caption)) in
     exists chunks gap,
       _split_text overflow MAX_TEXT = Some chunks /\
       Forall (fun c => isspace c = true) gap /\
       caption = head ++ gap ++ overflow /\
       trace (snd (send_media w self media_type media_id (Some caption) st))
       = trace st
         ++ Post (_messages_url self)
                 (MediaPayload (recipient self) media_type media_id
                               (Some head))
         :: (if truthy overflow then text_posts self chunks else [])) /\
  (forall (media_type media_id : str) (caption : option str) (st : State),
     accepted (http w (length (trace st))) = false ->
     fst (send_media w self media_type media_id caption st)
     = Raise (if is_success (http w (length (trace st)))
              then ValueError else HTTPStatusError) /\
     exists attached,
       trace (snd (send_media w self media_type media_id caption st))
       = trace st ++ [Post (_messages_url self)
                           (MediaPayload (recipient self) media_type
                                         media_id attached)]).
Proof.
  split; [exact send_text_within|].
  split; [exact send_media_within|].
  split; [exact send_media_overflow|].
  exact send_media_refused.
Qed.

(** C10. A sticker or audio send never carries the caption it is given: the
    only request made is the media request, without a caption field; no text
    follows it and nothing is logged. *)
Theorem send_media_drops_caption (media_type media_id : str)
  (caption : option str) (st : State) :
  media_type = lit "sticker" \/ media_type = lit "audio" ->
  trace (snd (send_media w self media_type media_id caption st))
  = trace st ++ [Post (_messages_url self)
                      (MediaPayload (recipient self) media_type media_id
                                    None)] /\
  log (snd (send_media w self media_type media_id caption st)) = log st.
Proof.
  intros Hty. unfold send_media.
  assert (Hno : existsb (str_eqb media_type) caption_types = false).
  { destruct Hty; subst media_type; vm_compute; reflexivity. }
  rewrite Hno, andb_false_r.
  unfold bind, emit, raise, ret. simpl.
  answer_cases st; split; reflexivity.
Qed.

End SenderFacts.

(** The caption used in the examples below: 1000 letters, a space, 100
    letters. *)
Lemma sender_respects_limits_witness :
  let caption := repeat 97%N 1000 ++ [SP] ++ repeat 98%N 100 in
  exists chunks gap,
    _split_text (lstrip (slice_from caption (caption_cut caption))) MAX_TEXT
    = Some chunks /\
    Forall (fun c => isspace c = true) gap /\
    caption = slice_to caption (caption_cut caption) ++ gap
              ++ lstrip (slice_from caption (caption_cut caption)) /\
    trace (snd (send_media world_ok sender_ex (lit "image") (lit "m1")
                           (Some caption) initial))
    = trace initial
      ++ Post (_messages_url sender_ex)
              (MediaPayload (recipient sender_ex) (lit "image") (lit "m1")
                 (Some (slice_to caption (caption_cut caption))))
      :: (if truthy (lstrip (slice_from caption (caption_cut caption)))
          then text_posts sender_ex chunks else []).
Proof.
  intros caption.
  destruct (sender_respects_limits world_ok sender_ex) as [_ [_ [H _]]].
  apply (H (lit "image") (lit "m1") caption initial).
  - left. reflexivity.
  - reflexivity.
  - intros n. split; [reflexivity|discriminate].
Defined.

(** C4 as stated fails: a caption of 1030 characters sent with a sticker is
    over the caption limit, and the only request made is the media request;
    nothing of the caption is delivered again as text. *)
Lemma long_sticker_caption_not_redelivered :
  let caption := repeat 97%N 1030 in
  MAX_CAPTION < len caption /\
  trace (snd (send_media world_ok sender_ex (lit "sticker") (lit "m1")
                         (Some caption) initial))
  = [Post (_messages_url sender_ex)
          (MediaPayload (recipient sender_ex) (lit "sticker") (lit "m1")
                        None)].
Proof. split; vm_compute; reflexivity. Qed.

Lemma send_media_drops_caption_witness :
  trace (snd (send_media world_ok sender_ex (lit "audio") (lit "m1")
                         (Some (lit "a caption")) initial))
  = trace initial
    ++ [Post (_messages_url sender_ex)
             (MediaPayload (recipient sender_ex) (lit "audio") (lit "m1")
                           None)] /\
  log (snd (send_media world_ok sender_ex (lit "audio") (lit "m1")
                       (Some (lit "a caption")) initial)) = log initial.
Proof.
  apply (send_media_drops_caption world_ok sender_ex (lit "audio")).
  right. reflexivity.
Defined.

(** ** Media classification *)

Lemma detect_attr_keeps_filename (f : Flags) (attr : DocumentAttribute) :
  filename_set_by attr = None -> filename (detect_attr f attr) = filename f.
Proof.
  destruct attr as [n|[|]|[|]| | |]; simpl; intros H;
    try discriminate; reflexivity.
Qed.

Lemma detect_attr_sets_filename (f : Flags) (attr : DocumentAttribute)
  (n : str) :
  filename_set_by attr = Some n -> filename (detect_attr f attr) = n.
Proof.
  destruct attr as [n'|[|]|[|]| | |]; simpl; intros H;
    try discriminate; now inversion H.
Qed.

Lemma fold_keeps_filename (attrs : list DocumentAttribute) :
  Forall (fun a => filename_set_by a = None) attrs ->
  forall f, filename (fold_left detect_attr attrs f) = filename f.
Proof.
  induction 1 as [|a attrs Ha _ IH]; intros f; simpl; [reflexivity|].
  rewrite IH. now apply detect_attr_keeps_filename.
Qed.

(** The filename returned for a document is the one assigned by the last
    attribute of the list that assigns one. *)
Lemma detect_media_filename (message : Message) (doc : Document)
  (pre post : list DocumentAttribute) (attr : DocumentAttribute) (n : str) :
  photo message = false ->
  document message = Some doc ->
  attributes doc = pre ++ attr :: post ->
  filename_set_by attr = Some n ->
  Forall (fun a => filename_set_by a = None) post ->
  exists wa_type mime, _detect_media message = Some (wa_type, mime, n).
Proof.
  intros Hp Hd Ha Hn Hpost. unfold _detect_media. rewrite Hp, Hd, Ha.
  rewrite fold_left_app. simpl fold_left.
  match goal with
  | |- context [fold_left detect_attr post (detect_attr ?f0 attr)] =>
      pose proof (fold_keeps_filename post Hpost (detect_attr f0 attr)) as Hf;
      rewrite (detect_attr_sets_filename f0 attr n Hn) in Hf;
      destruct (fold_left detect_attr post (detect_attr f0 attr))
        as [fn v vi au stk gif]
  end.
  simpl in Hf. subst fn. simpl.
  destruct stk; [eauto|]. destruct v; [eauto|]. destruct au; [eauto|].
  destruct (vi || gif)%bool; eauto.
Qed.

(** What the loop over the attributes does with the filename: the last
    attribute of the list that assigns a filename decides.  The forced
    filename of a sticker attribute, of a video attribute with the round flag
    or of a voice-flagged audio attribute is returned when no attribute that
    assigns a filename comes after it, and a declared filename that comes
    after every such attribute is itself the filename returned. *)
Lemma forced_filename_wins_when_last (message : Message) (doc : Document)
  (pre post : list DocumentAttribute) (attr : DocumentAttribute) :
  photo message = false ->
  document message = Some doc ->
  attributes doc = pre ++ attr :: post ->
  Forall (fun a => filename_set_by a = None) post ->
  (attr = DocumentAttributeSticker ->
   exists wa_type mime,
     _detect_media message = Some (wa_type, mime, lit "sticker.webp")) /\
  (attr = DocumentAttributeVideo true ->
   exists wa_type mime,
     _detect_media message = Some (wa_type, mime, lit "video_note.mp4")) /\
  (attr = DocumentAttributeAudio true ->
   exists wa_type mime,
     _detect_media message = Some (wa_type, mime, lit "voice.ogg")) /\
  (forall file_name,
     attr = DocumentAttributeFilename file_name ->
     exists wa_type mime,
       _detect_media message = Some (wa_type, mime, file_name)).
Proof.
  intros Hp Hd Ha Hpost.
  repeat split; intros; subst attr;
    eapply detect_media_filename; eauto.
Qed.

Lemma forced_filename_wins_when_last_witness :
  let doc := {| mime_type := Some (lit "image/webp");
                attributes := [DocumentAttributeFilename (lit "cat.webp");
                               DocumentAttributeSticker;
                               DocumentAttributeAnimated] |} in
  exists wa_type mime,
    _detect_media (document_message doc)
    = Some (wa_type, mime, lit "sticker.webp").
Proof.
  intros doc.
  refine (proj1 (forced_filename_wins_when_last (document_message doc) doc
                   [DocumentAttributeFilename (lit "cat.webp")]
                   [DocumentAttributeAnimated] DocumentAttributeSticker
                   eq_refl eq_refl eq_refl _) eq_refl).
  repeat constructor.
Defined.

(** C2.  The forced filename does not always win: a document whose attribute
    list holds a sticker attribute and then a declared filename is
    classified as a sticker, with its MIME type, but under the declared
    filename and not under "sticker.webp".  The category and the MIME type of the same
    document do not depend on the order of the attributes; only the filename
    is left to the last assignment of the loop. *)
Theorem declared_filename_after_sticker_wins :
  _detect_media
    (document_message
       {| mime_type := Some (lit "image/webp");
          attributes := [DocumentAttributeSticker;
                         DocumentAttributeFilename (lit "cat.webp")] |})
  = Some (lit "sticker", lit "image/webp", lit "cat.webp").
Proof. vm_compute. reflexivity. Qed.

(** ** The content filter *)

Lemma lstrip_with_nil (p : char -> bool) (s : str) :
  lstrip_with p s = [] <-> Forall (fun c => p c = true) s.
Proof.
  induction s as [|x s IH]; simpl.
  - split; [constructor|reflexivity].
  - destruct (p x) eqn:Hx.
    + rewrite IH. split; [now constructor|now inversion 1].
    + split; [discriminate|]. inversion 1; congruence.
Qed.

Lemma strip_nil (s : str) : strip s = [] <-> blank s.
Proof.
  unfold strip, blank, lstrip. split.
  - intros H. apply (f_equal (@rev _)) in H. rewrite rev_involutive in H.
    simpl in H. apply lstrip_with_nil in H.
    destruct (lstrip_with_prefix isspace s) as [gap [Hg E]].
    rewrite E. apply Forall_app. split; [exact Hg|].
    apply Forall_rev in H. now rewrite rev_involutive in H.
  - intros H. apply lstrip_with_nil in H. rewrite H. reflexivity.
Qed.

(** The test [not text or not text.strip()] of [evaluate]. *)
Lemma blank_test (text : str) :
  (negb (truthy text) || negb (truthy (strip text)))%bool = true
  <-> blank text.
Proof.
  rewrite <- strip_nil. destruct text as [|c text]; simpl.
  - split; reflexivity.
  - destruct (strip (c :: text)); simpl; split; congruence.
Qed.

Section FilterFacts.

Variable w : World.
Variable config : LLMConfig.
Variable text : str.

(** When the LLM rejects at the next trace position, [_run_filter] returns
    that verdict under the rule's name; otherwise it returns a forward
    verdict.  Either way it returns, with one call recorded. *)
Lemma run_filter_cases (rule_name rule_prompt : str) (st : State) :
  exists result st',
    _run_filter w config rule_name rule_prompt text st = (Ret result, st') /\
    trace st' = trace st
                ++ [LLMParse (model config) (system_prompt_of rule_prompt)
                             text] /\
    filter_name result = rule_name /\
    match llm w (length (trace st)) with
    | Some decision =>
        action result = decision_action decision /\
        reason result = decision_reason decision /\
        log st' = log st
    | None =>
        action result = FORWARD /\ reason result = lit "Filter error" /\
        log st' = log st ++ [failure_record rule_name]
    end.
Proof.
  unfold _run_filter, bind, emit, ret. simpl.
  destruct (llm w (length (trace st))) as [decision|]; simpl;
    eexists; eexists; repeat split; reflexivity.
Qed.

Lemma evaluate_loop_total (rules : list FilterRule) :
  forall st,
    exists result st',
      evaluate_loop w config rules text st = (Ret result, st').
Proof.
  induction rules as [|rule rest IH]; intros st; simpl.
  - eexists; eexists; reflexivity.
  - destruct (run_filter_cases (name rule) (prompt rule) st)
      as [result [st1 [Hrun _]]].
    unfold bind at 1. rewrite Hrun. unfold bind at 1. simpl.
    destruct (is_skip (action result)).
    + eexists; eexists; reflexivity.
    + apply IH.
Qed.

Lemma evaluate_total (st : State) :
  exists result st', evaluate w config text st = (Ret result, st').
Proof.
  unfold evaluate.
  destruct (negb (truthy text) || negb (truthy (strip text)))%bool.
  { eexists; eexists; reflexivity. }
  destruct (filters config) as [|rule rest] eqn:Ef.
  { eexists; eexists; reflexivity. }
  apply evaluate_loop_total.
Qed.

(** Rules whose outcome is not a rejection are passed over, one call
    each. *)
Lemma evaluate_loop_pass (pre rest : list FilterRule) :
  forall st,
    (forall j, (j < length pre)%nat ->
               rejects (llm w (length (trace st) + j)) = false) ->
    exists st1,
      evaluate_loop w config (pre ++ rest) text st
      = evaluate_loop w config rest text st1 /\
      trace st1 = trace st ++ map (llm_event config text) pre.
Proof.
  induction pre as [|rule pre IH]; intros st Hpass; simpl.
  - exists st. now rewrite app_nil_r.
  - destruct (run_filter_cases (name rule) (prompt rule) st)
      as [result [st1 [Hrun [Htr [_ Hout]]]]].
    unfold bind at 1. rewrite Hrun. unfold bind at 1. simpl.
    assert (Hfw : is_skip (action result) = false).
    { specialize (Hpass O ltac:(simpl; lia)).
      rewrite Nat.add_0_r in Hpass. unfold rejects in Hpass.
      destruct (llm w (length (trace st))) as [decision|].
      - destruct Hout as [-> _]. exact Hpass.
      - destruct Hout as [-> _]. reflexivity. }
    rewrite Hfw.
    match goal with
    | |- context [evaluate_loop w config (pre ++ rest) text ?s] =>
        destruct (IH s) as [st2 [Heq Htr2]]
    end.
    { intros j Hj. simpl. rewrite Htr, length_app. simpl.
      replace (length (trace st) + 1 + j)%nat
        with (length (trace st) + S j)%nat by lia.
      apply Hpass. simpl. lia. }
    exists st2. split; [exact Heq|].
    rewrite Htr2. simpl. rewrite Htr, <- app_assoc. reflexivity.
Qed.

Lemma result_eta (result : FilterResult) (a : Action) (r n : str) :
  action result = a -> reason result = r -> filter_name result = n ->
  result = {| action := a; reason := r; filter_name := n |}.
Proof. destruct result; simpl; intros; subst; reflexivity. Qed.

Lemma evaluate_not_blank (st : State) :
  ~ blank text ->
  evaluate w config text st
  = match filters config with
    | [] => (Ret {| action := FORWARD; reason := lit "No filters configured";
                    filter_name := lit "none" |}, st)
    | _ :: _ => evaluate_loop w config (filters config) text st
    end.
Proof.
  intros Hnb. unfold evaluate.
  destruct (negb (truthy text) || negb (truthy (strip text)))%bool eqn:E.
  { apply blank_test in E. contradiction. }
  destruct (filters config); reflexivity.
Qed.

Lemma evaluate_loop_first_skip (pre post : list FilterRule)
  (rule : FilterRule) (decision : FilterDecision) (st : State) :
  (forall j, (j < length pre)%nat ->
             rejects (llm w (length (trace st) + j)) = false) ->
  llm w (length (trace st) + length pre) = Some decision ->
  decision_action decision = SKIP ->
  exists st',
    evaluate_loop w config (pre ++ rule :: post) text st
    = (Ret {| action := SKIP; reason := decision_reason decision;
              filter_name := name rule |}, st') /\
    trace st' = trace st ++ map (llm_event config text) (pre ++ [rule]).
Proof.
  intros Hpass Hllm Hskip.
  destruct (evaluate_loop_pass pre (rule :: post) st Hpass)
    as [st1 [Heq Htr]].
  rewrite Heq. simpl.
  destruct (run_filter_cases (name rule) (prompt rule) st1)
    as [result [st2 [Hrun [Htr2 [Hname Hout]]]]].
  rewrite Htr, length_app, length_map, Hllm in Hout.
  destruct Hout as [Ha [Hr _]]. rewrite Hskip in Ha.
  unfold bind at 1. rewrite Hrun. unfold bind at 1. simpl.
  rewrite Ha. simpl. unfold ret. eexists. split.
  - rewrite (result_eta result _ _ _ Ha Hr Hname). reflexivity.
  - simpl. rewrite Htr2, Htr, map_app, <- app_assoc. reflexivity.
Qed.

(** C5. Evaluation of a blank text, or with no rule configured, returns a
    forward verdict named "none" and leaves the state as it was: the LLM is
    not called.  Otherwise the verdict is that of the first rule the LLM
    rejects, under that rule's name, and the LLM has been called once for
    each rule up to that one and for no later rule; when no rule is
    rejected, the verdict is forward under the name "all". *)
Theorem evaluate_first_skip_wins (st : State) :
  (blank text ->
   evaluate w config text st
   = (Ret {| action := FORWARD; reason := lit "No text to analyze";
             filter_name := lit "none" |}, st)) /\
  (filters config = [] ->
   exists result,
     evaluate w config text st = (Ret result, st) /\
     action result = FORWARD /\ filter_name result = lit "none") /\
  (forall (pre post : list FilterRule) (rule : FilterRule)
          (decision : FilterDecision),
     ~ blank text ->
     filters config = pre ++ rule :: post ->
     (forall j, (j < length pre)%nat ->
                rejects (llm w (length (trace st) + j)) = false) ->
     llm w (length (trace st) + length pre) = Some decision ->
     decision_action decision = SKIP ->
     exists st',
       evaluate w config text st
       = (Ret {| action := SKIP; reason := decision_reason decision;
                 filter_name := name rule |}, st') /\
       trace st' = trace st ++ map (llm_event config text) (pre ++ [rule])) /\
  (~ blank text ->
   filters config <> [] ->
   (forall j, (j < length (filters config))%nat ->
              rejects (llm w (length (trace st) + j)) = false) ->
   exists st',
     evaluate w config text st
     = (Ret {| action := FORWARD; reason := lit "Passed all filters";
               filter_name := lit "all" |}, st') /\
     trace st' = trace st ++ map (llm_event config text) (filters config)).
Proof.
  split; [|split; [|split]].
  - intros Hb. unfold evaluate. apply blank_test in Hb. now rewrite Hb.
  - intros Hf. unfold evaluate. rewrite Hf.
    destruct (negb (truthy text) || negb (truthy (strip text)))%bool;
      eexists; repeat split.
  - intros pre post rule decision Hnb Hf Hpass Hllm Hskip.
    rewrite (evaluate_not_blank st Hnb), Hf.
    destruct (evaluate_loop_first_skip pre post rule decision st
                Hpass Hllm Hskip) as [st' [He Ht]].
    exists st'. split; [|exact Ht].
    rewrite <- He. destruct pre; reflexivity.
  - intros Hnb Hne Hpass.
    rewrite (evaluate_not_blank st Hnb).
    destruct (evaluate_loop_pass (filters config) [] st Hpass)
      as [st1 [Heq Htr]].
    rewrite app_nil_r in Heq.
    destruct (filters config) as [|r rs] eqn:Ef; [congruence|].
    rewrite Heq. simpl. exists st1. split; [reflexivity|exact Htr].
Qed.

(** C6. When the call to the LLM for a rule raises, [_run_filter] returns a
    forward verdict for that rule and logs the failure; the loop of
    [evaluate] then goes on with the remaining rules; and [evaluate] always
    returns a verdict: it neither raises nor fails to return, whatever the
    LLM does. *)
Theorem filter_fails_open :
  (forall (rule_name rule_prompt : str) (st : State),
     llm w (length (trace st)) = None ->
     exists st',
       _run_filter w config rule_name rule_prompt text st
       = (Ret {| action := FORWARD; reason := lit "Filter error";
                 filter_name := rule_name |}, st') /\
       log st' = log st ++ [failure_record rule_name]) /\
  (forall (rule : FilterRule) (rest : list FilterRule) (st : State),
     llm w (length (trace st)) = None ->
     exists st',
       evaluate_loop w config (rule :: rest) text st
       = evaluate_loop w config rest text st' /\
       trace st' = trace st ++ [llm_event config text rule] /\
       In (failure_record (name rule)) (log st')) /\
  (forall st : State,
     exists result st', evaluate w config text st = (Ret result, st')).
Proof.
  split; [|split].
  - intros rule_name rule_prompt st Hllm.
    destruct (run_filter_cases rule_name rule_prompt st)
      as [result [st' [Hrun [_ [Hname Hout]]]]].
    rewrite Hllm in Hout. destruct Hout as [Ha [Hr Hlog]].
    exists st'. split; [|exact Hlog].
    rewrite Hrun, (result_eta result _ _ _ Ha Hr Hname). reflexivity.
  - intros rule rest st Hllm.
    destruct (run_filter_cases (name rule) (prompt rule) st)
      as [result [st' [Hrun [Htr [_ Hout]]]]].
    rewrite Hllm in Hout. destruct Hout as [Ha [_ Hlog]].
    simpl. unfold bind at 1. rewrite Hrun. unfold bind at 1. simpl.
    rewrite Ha. simpl. eexists. split; [reflexivity|]. simpl.
    split; [exact Htr|]. rewrite Hlog. apply in_or_app. left.
    apply in_or_app. right. now left.
  - apply evaluate_total.
Qed.

End FilterFacts.

Lemma not_blank_buy_now : ~ blank (lit "buy now").
Proof. intros H. inversion H as [|c s Hc _]. vm_compute in Hc. discriminate. Qed.

Lemma evaluate_first_skip_wins_witness :
  exists st',
    evaluate world_second_rejects config_ex (lit "buy now") initial
    = (Ret {| action := SKIP; reason := lit "spam detected";
              filter_name := lit "spam" |}, st') /\
    trace st' = trace initial
                ++ map (llm_event config_ex (lit "buy now"))
                       ([rule_ads] ++ [rule_spam]).
Proof.
  refine (proj1 (proj2 (proj2 (evaluate_first_skip_wins world_second_rejects
                                 config_ex (lit "buy now") initial)))
            [rule_ads] [] rule_spam
            {| decision_action := SKIP;
               decision_reason := lit "spam detected" |}
            not_blank_buy_now eq_refl _ eq_refl eq_refl).
  intros j Hj. destruct j as [|j]; [reflexivity|simpl in Hj; lia].
Defined.

Lemma filter_fails_open_witness :
  exists st',
    evaluate_loop world_llm_down config_ex [rule_ads; rule_spam]
                  (lit "buy now") initial
    = evaluate_loop world_llm_down config_ex [rule_spam] (lit "buy now") st'
    /\ trace st' = trace initial ++ [llm_event config_ex (lit "buy now")
                                               rule_ads]
    /\ In (failure_record (name rule_ads)) (log st').
Proof.
  refine (proj1 (proj2 (filter_fails_open world_llm_down config_ex
                          (lit "buy now")))
            rule_ads [rule_spam] initial eq_refl).
Defined.

(** [_flush_album], by what the dict holds for the key. *)
Lemma flush_album_eq (w : World) (self : MessageRouter) (gid : Z)
  (st : State) :
  _flush_album w self gid st
  = match dict_get gid (_pending_albums st) with
    | None => (Ret tt, st)
    | Some album =>
        process_album w self album
          (set_pending (dict_del gid (_pending_albums st)) st)
    end.
Proof.
  unfold _flush_album, bind, pop_album.
  destruct (dict_get gid (_pending_albums st)); reflexivity.
Qed.

(** ** The router: what a computation may touch *)

Lemma quiet_ret {A} (a : A) : quiet (ret a).
Proof. intros st. split; [reflexivity|]. exists []. simpl. now rewrite app_nil_r. Qed.

Lemma quiet_raise {A} (e : Exn) : quiet (@raise A e).
Proof. intros st. split; [reflexivity|]. exists []. simpl. now rewrite app_nil_r. Qed.

Lemma quiet_emit (e : Event) : quiet (emit e).
Proof. intros st. split; [reflexivity|]. exists [e]. reflexivity. Qed.

Lemma quiet_logger (lv : Level) (msg : str) : quiet (logger lv msg).
Proof. intros st. split; [reflexivity|]. exists []. simpl. now rewrite app_nil_r. Qed.

Lemma quiet_bind {A B} (m : M A) (k : A -> M B) :
  quiet m -> (forall a, quiet (k a)) -> quiet (bind m k).
Proof.
  intros Hm Hk st. unfold bind.
  destruct (Hm st) as [Hr [new Hn]].
  destruct (m st) as [[a|e|] st1]; simpl in *.
  - destruct (Hk a st1) as [Hr2 [new2 Hn2]]. split; [congruence|].
    exists (new ++ new2). rewrite Hn2, Hn. now rewrite app_assoc.
  - split; [exact Hr|]. exists new. exact Hn.
  - split; [exact Hr|]. exists new. exact Hn.
Qed.

Lemma quiet_if {A} (b : bool) (m1 m2 : M A) :
  quiet m1 -> quiet m2 -> quiet (if b then m1 else m2).
Proof. destruct b; auto. Qed.

Create HintDb quiet.

#[local] Hint Resolve quiet_ret quiet_raise quiet_emit quiet_logger : quiet.

Ltac quiet_tac :=
  repeat first
    [ apply quiet_ret | apply quiet_raise | apply quiet_emit
    | apply quiet_logger
    | apply quiet_bind; [|intros ?]
    | apply quiet_if
    | match goal with
      | |- quiet (match ?x with _ => _ end) => destruct x
      end
    | solve [auto with quiet] ].

Section RouterFrame.

Variable w : World.

Lemma quiet_sender_send_text (text : str) : quiet (sender_send_text w text).
Proof. unfold sender_send_text. quiet_tac. Qed.

Lemma quiet_sender_upload_media (b : bytes) (mime fn : str) :
  quiet (sender_upload_media w b mime fn).
Proof. unfold sender_upload_media. quiet_tac. Qed.

Lemma quiet_sender_send_media (ty id : str) (caption : option str) :
  quiet (sender_send_media w ty id caption).
Proof. unfold sender_send_media. quiet_tac. Qed.

Lemma quiet_fetch (m : Message) : quiet (fetch m).
Proof. unfold fetch. quiet_tac. Qed.

#[local] Hint Resolve quiet_sender_send_text quiet_sender_upload_media
  quiet_sender_send_media quiet_fetch : quiet.

Lemma quiet_run_filter (config : LLMConfig) (n p text : str) :
  quiet (_run_filter w config n p text).
Proof. unfold _run_filter. quiet_tac. Qed.

#[local] Hint Resolve quiet_run_filter : quiet.

Lemma quiet_evaluate_loop (config : LLMConfig) (rules : list FilterRule)
  (text : str) : quiet (evaluate_loop w config rules text).
Proof. induction rules as [|rule rest IH]; simpl; quiet_tac. Qed.

#[local] Hint Resolve quiet_evaluate_loop : quiet.

Lemma quiet_evaluate (config : LLMConfig) (text : str) :
  quiet (evaluate w config text).
Proof. unfold evaluate. quiet_tac. Qed.

#[local] Hint Resolve quiet_evaluate : quiet.

Lemma quiet_album_loop (ch caption : str) (msgs : list Message) :
  forall is_first, quiet (album_loop w ch caption msgs is_first).
Proof.
  induction msgs as [|msg rest IH]; intros is_first; simpl; quiet_tac.
Qed.

#[local] Hint Resolve quiet_album_loop : quiet.

Lemma quiet_deliver_single (ch : str) (m : Message) :
  quiet (deliver_single w ch m).
Proof. unfold deliver_single. quiet_tac. Qed.

Lemma quiet_deliver_album (album : _PendingAlbum) (first : Message) :
  quiet (deliver_album w album first).
Proof. unfold deliver_album. quiet_tac. Qed.

#[local] Hint Resolve quiet_deliver_single quiet_deliver_album : quiet.

Variable self : MessageRouter.

Lemma quiet_forward_single (ch : str) (m : Message) :
  quiet (_forward_single w self ch m).
Proof. unfold _forward_single. quiet_tac. Qed.

Lemma quiet_process_album (album : _PendingAlbum) :
  quiet (process_album w self album).
Proof. unfold process_album. quiet_tac. Qed.

End RouterFrame.

(** ** The router: the filter stage *)

Section RouterGate.

Variable w : World.
Variable self : MessageRouter.

(** [evaluate] returns, and all it adds to the trace are calls to the LLM. *)
Lemma evaluate_loop_calls (config : LLMConfig) (text : str)
  (rules : list FilterRule) :
  forall st,
    exists result st' calls,
      evaluate_loop w config rules text st = (Ret result, st') /\
      trace st' = trace st ++ calls /\ Forall is_llm_call calls /\
      router_of st' = router_of st.
Proof.
  induction rules as [|rule rest IH]; intros st; simpl.
  - eexists; eexists; exists []. rewrite app_nil_r.
    repeat split; constructor.
  - destruct (run_filter_cases w config text (name rule) (prompt rule) st)
      as [result [st1 [Hrun [Htr _]]]].
    pose proof (proj1 (quiet_run_filter w config (name rule) (prompt rule)
                         text st)) as Hq.
    rewrite Hrun in Hq. simpl in Hq.
    unfold bind at 1. rewrite Hrun. unfold bind at 1. simpl.
    destruct (is_skip (action result)).
    + eexists; eexists; eexists. split; [reflexivity|]. simpl.
      split; [exact Htr|]. split; [repeat constructor|exact Hq].
    + match goal with
      | |- context [evaluate_loop w config rest text ?s] =>
          destruct (IH s) as [r2 [st2 [calls [He [Ht [Hc Hr]]]]]]
      end.
      exists r2, st2. eexists. split; [exact He|].
      split; [rewrite Ht; simpl; rewrite Htr, <- app_assoc; reflexivity|].
      split; [constructor; [exact I|exact Hc]|].
      rewrite Hr. exact Hq.
Qed.

Lemma evaluate_calls (config : LLMConfig) (text : str) (st : State) :
  exists result st' calls,
    evaluate w config text st = (Ret result, st') /\
    trace st' = trace st ++ calls /\ Forall is_llm_call calls /\
    router_of st' = router_of st.
Proof.
  unfold evaluate.
  destruct (negb (truthy text) || negb (truthy (strip text)))%bool.
  { eexists; eexists; exists []. rewrite app_nil_r.
    repeat split; constructor. }
  destruct (filters config) as [|rule rest] eqn:Ef.
  { eexists; eexists; exists []. rewrite app_nil_r.
    repeat split; constructor. }
  apply evaluate_loop_calls.
Qed.

(** The content filter does not look at the pending albums. *)
Lemma blind_ret {A} (a : A) : blind (ret a).
Proof. intros p st. reflexivity. Qed.

Lemma blind_logger (lv : Level) (msg : str) : blind (logger lv msg).
Proof. intros p st. reflexivity. Qed.

Lemma blind_bind {A B} (m : M A) (k : A -> M B) :
  blind m -> (forall a, blind (k a)) -> blind (bind m k).
Proof.
  intros Hm Hk p st. unfold bind. rewrite Hm.
  destruct (m st) as [[a|e|] st1]; simpl; [apply Hk|reflexivity|reflexivity].
Qed.

Lemma blind_run_filter (config : LLMConfig) (n pr text : str) :
  blind (_run_filter w config n pr text).
Proof.
  intros p st. unfold _run_filter, bind, emit, ret, logger. simpl.
  destruct (llm w (length (trace st))); reflexivity.
Qed.

Lemma blind_evaluate_loop (config : LLMConfig) (text : str)
  (rules : list FilterRule) : blind (evaluate_loop w config rules text).
Proof.
  induction rules as [|rule rest IH]; simpl; [apply blind_ret|].
  apply blind_bind; [apply blind_run_filter|]. intros result.
  apply blind_bind; [apply blind_logger|]. intros _.
  destruct (is_skip (action result)); [apply blind_ret|exact IH].
Qed.

Lemma evaluate_set_pending (config : LLMConfig) (text : str) (p : dict)
  (st : State) :
  evaluate w config text (set_pending p st)
  = (fst (evaluate w config text st),
     set_pending p (snd (evaluate w config text st))).
Proof.
  unfold evaluate.
  destruct (negb (truthy text) || negb (truthy (strip text)))%bool;
    [reflexivity|].
  destruct (filters config) as [|rule rest] eqn:Ef; [reflexivity|].
  apply blind_evaluate_loop.
Qed.

Lemma verdict_on_set_pending (text : option str) (p : dict) (st : State) :
  verdict_on w self text (set_pending p st) = verdict_on w self text st.
Proof.
  unfold verdict_on. destruct (filter self) as [config|]; [|reflexivity].
  destruct (truthy_opt text); [|reflexivity].
  now rewrite evaluate_set_pending.
Qed.

(** [_forward_single]: the filter stage, then either the skip notice or the
    delivery. *)
Lemma forward_single_gate (ch : str) (m : Message) (st : State) :
  exists calls st1,
    Forall is_llm_call calls /\
    trace st1 = trace st ++ calls /\
    router_of st1 = router_of st /\
    _forward_single w self ch m st
    = match verdict_on w self (msg_text m) st with
      | Some result =>
          if is_skip (action result) then
            sender_send_text w
              (skip_notice ch result
                 (_build_source_link (get_chat m) (msg_id m))) st1
          else deliver_single w ch m st1
      | None => deliver_single w ch m st1
      end.
Proof.
  unfold _forward_single, verdict_on.
  destruct (filter self) as [config|].
  2:{ exists [], st. rewrite app_nil_r. repeat split. constructor. }
  destruct (truthy_opt (msg_text m)).
  2:{ exists [], st. rewrite app_nil_r. repeat split. constructor. }
  destruct (evaluate_calls config (default [] (msg_text m)) st)
    as [result [st0 [calls [He [Ht [Hc Hr]]]]]].
  unfold bind at 1. rewrite He. simpl. unfold bind at 1. simpl.
  eexists calls, _. split; [exact Hc|].
  split; [|split].
  3:{ destruct (is_skip (action result)); reflexivity. }
  all: simpl; assumption.
Qed.

(** [_flush_album] of a pending album: the album leaves the dict, then the
    filter stage, then either the skip notice or the delivery. *)
Lemma flush_album_gate (gid : Z) (album : _PendingAlbum) (first : Message)
  (rest : list Message) (st : State) :
  dict_get gid (_pending_albums st) = Some album ->
  album_messages album = first :: rest ->
  exists calls st1,
    Forall is_llm_call calls /\
    trace st1 = trace st ++ calls /\
    _pending_albums st1 = dict_del gid (_pending_albums st) /\
    _flush_album w self gid st
    = match verdict_on w self (first_text (album_messages album)) st with
      | Some result =>
          if is_skip (action result) then
            (sender_send_text w
               (skip_notice (album_channel_name album) result
                  (_build_source_link (get_chat first) (msg_id first))) ;;
             logger INFO
               (fmt [lit "Skipped album (";
                     of_int (Z.of_nat (length (album_messages album)));
                     lit " items) from ["; album_channel_name album;
                     lit "]"])) st1
          else deliver_album w album first st1
      | None => deliver_album w album first st1
      end.
Proof.
  intros Hget Hmsgs. rewrite flush_album_eq, Hget.
  rewrite <- (verdict_on_set_pending _ (dict_del gid (_pending_albums st)) st).
  set (st0 := set_pending (dict_del gid (_pending_albums st)) st).
  assert (Ht0 : trace st0 = trace st) by reflexivity.
  assert (Hp0 : _pending_albums st0 = dict_del gid (_pending_albums st))
    by reflexivity.
  rewrite <- Ht0, <- Hp0. clearbody st0.
  unfold process_album, verdict_on. rewrite Hmsgs.
  destruct (filter self) as [config|].
  2:{ exists [], st0. rewrite app_nil_r. repeat split. constructor. }
  destruct (truthy_opt (first_text (first :: rest))).
  2:{ exists [], st0. rewrite app_nil_r. repeat split. constructor. }
  destruct (evaluate_calls config (default [] (first_text (first :: rest)))
              st0) as [result [st1 [calls [He [Ht [Hc Hr]]]]]].
  unfold bind at 1. rewrite He. simpl. unfold bind at 1. simpl.
  eexists calls, _. split; [exact Hc|].
  split; [|split].
  3:{ destruct (is_skip (action result)); reflexivity. }
  - simpl. assumption.
  - simpl. unfold router_of in Hr. congruence.
Qed.

End RouterGate.

(** ** The router: a unit the filter rejects *)

Lemma contains_fmt (x : str) (pieces : list str) :
  In x pieces -> contains x (fmt pieces).
Proof.
  intros Hin. apply in_split in Hin. destruct Hin as [l1 [l2 ->]].
  exists (concat l1), (concat l2). unfold fmt.
  rewrite concat_app. simpl. reflexivity.
Qed.

Lemma contains_app_l (x a b : str) : contains x a -> contains x (a ++ b).
Proof.
  intros [p [q ->]]. exists p, (q ++ b). now rewrite <- !app_assoc.
Qed.

Lemma contains_app_r (x a b : str) : contains x b -> contains x (a ++ b).
Proof.
  intros [p [q ->]]. exists (a ++ p), q. now rewrite <- !app_assoc.
Qed.

Lemma llm_calls_no_sink (calls : list Event) :
  Forall is_llm_call calls -> sink_calls calls = [] /\ downloads calls = [].
Proof.
  induction 1 as [|e calls He _ [IH1 IH2]]; [split; reflexivity|].
  destruct e; simpl in He; try contradiction. simpl. auto.
Qed.

(** A source link, when there is one, is not the empty string. *)
Lemma source_link_truthy (chat : Chat) (id : Z) (url : str) :
  _build_source_link chat id = Some url -> truthy url = true.
Proof.
  unfold _build_source_link. destruct (truthy_opt (username chat)); [|discriminate].
  intros H. inversion H. reflexivity.
Qed.

Lemma skip_notice_contents (ch : str) (result : FilterResult) (chat : Chat)
  (id : Z) :
  let notice := skip_notice ch result (_build_source_link chat id) in
  contains ch notice /\
  contains (filter_name result) notice /\
  contains (reason result) notice /\
  (forall url, _build_source_link chat id = Some url -> contains url notice).
Proof.
  intros notice. unfold notice, skip_notice.
  assert (Hc : forall x,
             In x [ch; filter_name result; reason result] ->
             contains x (fmt [lit "[Skipped from "; ch; lit "] (";
                              filter_name result; lit ") "; reason result])).
  { intros x Hx. apply contains_fmt. simpl in *. tauto. }
  destruct (_build_source_link chat id) as [url|] eqn:El.
  - rewrite (source_link_truthy _ _ _ El : truthy_opt (Some url) = true).
    repeat split; try (apply contains_app_l, Hc; simpl; tauto).
    intros url' E. inversion E; subst url'. apply contains_app_r.
    apply contains_fmt. simpl. tauto.
  - simpl. repeat split; try (apply Hc; simpl; tauto). discriminate.
Qed.

Lemma sender_send_text_trace (w : World) (text : str) (st : State) :
  trace (snd (sender_send_text w text st)) = trace st ++ [SendText text].
Proof.
  unfold sender_send_text, bind, emit. simpl.
  destruct (sink_raises w (length (trace st))); reflexivity.
Qed.

Section RouterSkip.

Variable w : World.
Variable self : MessageRouter.

(** C7. When the filter rejects the text of a single message, or of an album
    being flushed, all that happens besides the calls to the LLM is one
    [send_text] call: nothing is downloaded, uploaded or sent as media.  The
    text sent contains the channel name, the name of the rule, the reason
    and, when the chat has a username, the link to the message. *)
Theorem skip_sends_one_notice :
  (forall (ch : str) (m : Message) (st : State) (result : FilterResult),
     verdict_on w self (msg_text m) st = Some result ->
     action result = SKIP ->
     let link := _build_source_link (get_chat m) (msg_id m) in
     let notice := skip_notice ch result link in
     exists calls,
       trace (snd (_forward_single w self ch m st))
       = trace st ++ calls ++ [SendText notice] /\
       Forall is_llm_call calls /\
       downloads (calls ++ [SendText notice]) = [] /\
       sink_calls (calls ++ [SendText notice]) = [SendText notice] /\
       contains ch notice /\ contains (filter_name result) notice /\
       contains (reason result) notice /\
       (forall url, link = Some url -> contains url notice)) /\
  (forall (gid : Z) (album : _PendingAlbum) (first : Message)
          (rest : list Message) (st : State) (result : FilterResult),
     dict_get gid (_pending_albums st) = Some album ->
     album_messages album = first :: rest ->
     verdict_on w self (first_text (album_messages album)) st = Some result ->
     action result = SKIP ->
     let link := _build_source_link (get_chat first) (msg_id first) in
     let notice := skip_notice (album_channel_name album) result link in
     exists calls,
       trace (snd (_flush_album w self gid st))
       = trace st ++ calls ++ [SendText notice] /\
       Forall is_llm_call calls /\
       downloads (calls ++ [SendText notice]) = [] /\
       sink_calls (calls ++ [SendText notice]) = [SendText notice] /\
       contains (album_channel_name album) notice /\
       contains (filter_name result) notice /\
       contains (reason result) notice /\
       (forall url, link = Some url -> contains url notice)).
Proof.
  assert (Hfilter : forall calls notice,
             Forall is_llm_call calls ->
             downloads (calls ++ [SendText notice]) = [] /\
             sink_calls (calls ++ [SendText notice]) = [SendText notice]).
  { intros calls notice Hc. destruct (llm_calls_no_sink calls Hc) as [H1 H2].
    unfold downloads, sink_calls in *. rewrite !filter_app, H1, H2.
    split; reflexivity. }
  split.
  - intros ch m st result Hv Hskip link notice.
    destruct (forward_single_gate w self ch m st)
      as [calls [st1 [Hc [Ht [_ Hrun]]]]].
    rewrite Hv, Hskip in Hrun. simpl in Hrun.
    exists calls. rewrite Hrun, sender_send_text_trace, Ht, <- app_assoc.
    destruct (Hfilter calls notice Hc) as [Hd Hs].
    destruct (skip_notice_contents ch result (get_chat m) (msg_id m))
      as [H1 [H2 [H3 H4]]].
    repeat split; assumption.
  - intros gid album first rest st result Hget Hmsgs Hv Hskip link notice.
    destruct (flush_album_gate w self gid album first rest st Hget Hmsgs)
      as [calls [st1 [Hc [Ht [_ Hrun]]]]].
    rewrite Hv, Hskip in Hrun. simpl in Hrun.
    exists calls. rewrite Hrun.
    assert (Hsend : trace (snd ((sender_send_text w notice ;;
                                 logger INFO
                                   (fmt [lit "Skipped album (";
                                         of_int (Z.of_nat (length
                                                   (album_messages album)));
                                         lit " items) from [";
                                         album_channel_name album;
                                         lit "]"])) st1))
                    = trace st1 ++ [SendText notice]).
    { unfold sender_send_text, bind, emit. simpl.
      destruct (sink_raises w (length (trace st1))); reflexivity. }
    fold link. fold notice. rewrite Hsend, Ht, <- app_assoc.
    destruct (Hfilter calls notice Hc) as [Hd Hs].
    destruct (skip_notice_contents (album_channel_name album) result
                (get_chat first) (msg_id first)) as [H1 [H2 [H3 H4]]].
    repeat split; assumption.
Qed.

End RouterSkip.

(** ** The router: the loop over the messages of an album *)

Section AlbumLoop.

Variable w : World.
Variable ch caption : str.

(** When no message has a media that is supported and downloads, the loop
    only attempts downloads: it calls the sink for nothing, cannot raise and
    leaves [is_first] as it was. *)
Lemma album_loop_excluded (msgs : list Message) :
  Forall (fun m => media_of m = None) msgs ->
  forall (is_first : bool) (st : State),
    exists st',
      album_loop w ch caption msgs is_first st = (Ret is_first, st') /\
      trace st' = trace st ++ album_downloads msgs.
Proof.
  induction 1 as [|m rest Hm _ IH]; intros is_first st.
  - exists st. split; [reflexivity|]. unfold album_downloads. simpl.
    now rewrite app_nil_r.
  - unfold album_downloads, media_of, fetched in *. simpl.
    destruct (_detect_media m) as [[[wa mime] fn]|]; [|apply IH].
    destruct (supported mime); simpl.
    + destruct (download_media m) as [b|] eqn:Ed; [discriminate|].
      unfold bind, fetch, emit, logger, ret. simpl. rewrite Ed.
      match goal with
      | |- context [album_loop w ch caption rest is_first ?s] =>
          destruct (IH is_first s) as [st' [He Ht]]
      end.
      exists st'. split; [exact He|]. rewrite Ht. simpl.
      now rewrite <- app_assoc.
    + unfold bind, logger, ret. simpl.
      match goal with
      | |- context [album_loop w ch caption rest is_first ?s] =>
          destruct (IH is_first s) as [st' [He Ht]]
      end.
      exists st'. split; [exact He|exact Ht].
Qed.

(** When the sink does not raise, the loop makes one upload and one send per
    message whose media is supported and downloads, in order; the caption
    goes with the first of them if [is_first] holds on entry, and with none
    otherwise. *)
Lemma album_loop_delivers (msgs : list Message) :
  sink_ok w ->
  forall (is_first : bool) (st : State),
    exists st' new ids,
      album_loop w ch caption msgs is_first st
      = (Ret (is_first && no_media msgs)%bool, st') /\
      trace st' = trace st ++ new /\
      length ids = length (omap media_of msgs) /\
      sink_calls new
      = media_pairs (if is_first then Some caption else None)
                    (omap media_of msgs) ids /\
      downloads new = album_downloads msgs.
Proof.
  intros Hok. induction msgs as [|m rest IH]; intros is_first st.
  - exists st, [], []. simpl. rewrite app_nil_r, andb_true_r.
    repeat split; destruct is_first; reflexivity.
  - unfold album_downloads, no_media, media_of, fetched in *. simpl.
    destruct (_detect_media m) as [[[wa mime] fn]|]; [|apply IH].
    destruct (supported mime); simpl.
    + unfold sender_upload_media, sender_send_media, fetch.
      unfold bind, emit, logger, ret, raise. simpl.
      destruct (download_media m) as [b|] eqn:Ed; simpl.
      * repeat (rewrite Hok; simpl).
        match goal with
        | |- context [album_loop w ch caption rest false ?s] =>
            destruct (IH false s) as [st' [new [ids [He [Ht [Hl [Hs Hd]]]]]]]
        end.
        exists st'. eexists (_ :: _ :: _ :: new), (_ :: ids).
        split; [rewrite He, andb_false_r; reflexivity|].
        split; [rewrite Ht; simpl; rewrite <- !app_assoc; reflexivity|].
        split; [simpl; now f_equal|].
        split; [simpl; rewrite Hs; reflexivity|].
        simpl. now rewrite Hd.
      * match goal with
        | |- context [album_loop w ch caption rest is_first ?s] =>
            destruct (IH is_first s) as [st' [new [ids [He [Ht [Hl [Hs Hd]]]]]]]
        end.
        exists st'. eexists (_ :: new), ids.
        split; [exact He|].
        split; [rewrite Ht; simpl; rewrite <- !app_assoc; reflexivity|].
        split; [exact Hl|]. split; [exact Hs|].
        simpl. now rewrite Hd.
    + unfold bind, logger, ret. simpl.
      match goal with
      | |- context [album_loop w ch caption rest is_first ?s] =>
          destruct (IH is_first s) as [st' [new [ids [He [Ht [Hl [Hs Hd]]]]]]]
      end.
      exists st', new, ids. auto.
Qed.

End AlbumLoop.

(** ** The router: delivery of a unit the filter lets through *)

Section Delivery.

Variable w : World.

Lemma deliver_single_absent (ch : str) (m : Message) (st : State)
  (wa mime fn : str) :
  _detect_media m = Some (wa, mime, fn) ->
  supported mime = true ->
  download_media m = None ->
  let text_send :=
    SendText (_format_text w ch (msg_date m) (default [] (msg_text m))
                (_build_source_link (get_chat m) (msg_id m))) in
  trace (snd (deliver_single w ch m st))
  = trace st ++ DownloadMedia (msg_id m)
             :: (if truthy_opt (msg_text m) then [text_send] else []) /\
  (truthy_opt (msg_text m) = false ->
   fst (deliver_single w ch m st) = Ret tt) /\
  (sink_ok w -> fst (deliver_single w ch m st) = Ret tt).
Proof.
  intros Hd Hs Hf text_send. unfold deliver_single. rewrite Hd, Hs. simpl.
  unfold fetch, sender_send_text, bind, emit, logger, ret, raise. simpl.
  rewrite Hf. simpl.
  destruct (truthy_opt (msg_text m)); simpl.
  - destruct (sink_raises w (length (trace st ++ [DownloadMedia (msg_id m)])))
      eqn:Er; simpl.
    + rewrite <- app_assoc. repeat split; try discriminate.
      intros Hok. rewrite Hok in Er. discriminate.
    + rewrite <- app_assoc. repeat split.
  - repeat split.
Qed.

Lemma deliver_album_excluded (album : _PendingAlbum) (first : Message)
  (st : State) :
  Forall (fun m => media_of m = None) (album_messages album) ->
  let msgs := album_messages album in
  let text_send :=
    SendText (_format_text w (album_channel_name album) (msg_date first)
                (default [] (first_text msgs))
                (_build_source_link (get_chat first) (msg_id first))) in
  trace (snd (deliver_album w album first st))
  = trace st ++ album_downloads msgs
             ++ (if truthy_opt (first_text msgs) then [text_send] else []) /\
  (truthy_opt (first_text msgs) = false ->
   fst (deliver_album w album first st) = Ret tt) /\
  (sink_ok w -> fst (deliver_album w album first st) = Ret tt).
Proof.
  intros Hall msgs text_send.
  remember (deliver_album w album first st) as r eqn:Er.
  unfold deliver_album in Er. fold msgs in Er.
  match type of Er with
  | context [album_loop w ?c ?cap msgs true] =>
      destruct (album_loop_excluded w c cap msgs Hall true st)
        as [st1 [He Ht]]
  end.
  unfold bind at 1 in Er. rewrite He in Er. simpl in Er.
  destruct (truthy_opt (first_text msgs)); simpl in Er.
  - unfold sender_send_text, bind, emit, logger, ret, raise in Er.
    simpl in Er.
    destruct (sink_raises w (length (trace st1))) eqn:Es; simpl in Er;
      subst r; simpl; rewrite Ht, <- app_assoc;
      repeat split; try discriminate.
    intros Hok. rewrite Hok in Es. discriminate.
  - subst r. simpl. rewrite Ht, app_nil_r. repeat split.
Qed.

Lemma deliver_album_delivers (album : _PendingAlbum) (first : Message)
  (st : State) :
  sink_ok w ->
  let msgs := album_messages album in
  let caption :=
    _format_caption w (album_channel_name album) (msg_date first)
      (first_text msgs) (_build_source_link (get_chat first) (msg_id first)) in
  let text_send :=
    SendText (_format_text w (album_channel_name album) (msg_date first)
                (default [] (first_text msgs))
                (_build_source_link (get_chat first) (msg_id first))) in
  exists new ids,
    fst (deliver_album w album first st) = Ret tt /\
    trace (snd (deliver_album w album first st)) = trace st ++ new /\
    length ids = length (omap media_of msgs) /\
    sink_calls new
    = media_pairs (Some caption) (omap media_of msgs) ids
      ++ (if (no_media msgs && truthy_opt (first_text msgs))%bool
          then [text_send] else []) /\
    downloads new = album_downloads msgs.
Proof.
  intros Hok msgs caption text_send.
  remember (deliver_album w album first st) as r eqn:Er.
  unfold deliver_album in Er. fold msgs in Er. fold caption in Er.
  destruct (album_loop_delivers w (album_channel_name album) caption msgs
              Hok true st) as [st1 [new [ids [He [Ht [Hl [Hs Hd]]]]]]].
  unfold bind at 1 in Er. rewrite He in Er. simpl in Er.
  destruct (no_media msgs && truthy_opt (first_text msgs))%bool;
    simpl in Er.
  - unfold sender_send_text, bind, emit, logger, ret, raise in Er.
    simpl in Er. rewrite Hok in Er. simpl in Er. subst r. simpl.
    exists (new ++ [text_send]), ids.
    split; [reflexivity|]. split; [rewrite Ht, <- app_assoc; reflexivity|].
    split; [exact Hl|].
    unfold sink_calls, downloads in *. rewrite !filter_app, Hs, Hd.
    simpl. rewrite app_nil_r. split; reflexivity.
  - subst r. simpl. exists new, ids. rewrite app_nil_r. auto.
Qed.

Variable self : MessageRouter.

Lemma not_skipped_gate {A} (text : option str) (st : State)
  (on_skip : FilterResult -> A) (otherwise : A) :
  skipped w self text st = false ->
  match verdict_on w self text st with
  | Some result => if is_skip (action result) then on_skip result
                   else otherwise
  | None => otherwise
  end = otherwise.
Proof.
  unfold skipped. destruct (verdict_on w self text st) as [result|];
    [|reflexivity].
  intros ->. reflexivity.
Qed.

End Delivery.

(** ** The router: absent media, albums and captions *)

Lemma first_text_truthy (msgs : list Message) :
  truthy_opt (first_text msgs) = true \/ first_text msgs = None.
Proof.
  induction msgs as [|m rest IH]; simpl; [now right|].
  destruct (truthy_opt (msg_text m)) eqn:E; [left; exact E|exact IH].
Qed.

(** The album text is the text of the first message, in the order of the
    list, that has one. *)
Lemma first_text_first (pre post : list Message) (m : Message) :
  Forall (fun x => truthy_opt (msg_text x) = false) pre ->
  truthy_opt (msg_text m) = true ->
  first_text (pre ++ m :: post) = msg_text m.
Proof.
  induction 1 as [|x pre Hx _ IH]; intros Hm; simpl.
  - now rewrite Hm.
  - rewrite Hx. now apply IH.
Qed.

Lemma format_header_contents (w : World) (ch : str) (ts : Z) (chat : Chat)
  (id : Z) :
  let header := _format_header w ch ts (_build_source_link chat id) in
  contains ch header /\
  contains (strftime_local w ts) header /\
  (forall url, _build_source_link chat id = Some url -> contains url header).
Proof.
  intros header. unfold header, _format_header.
  assert (Hc : forall x,
             In x [ch; strftime_local w ts] ->
             contains x (fmt [lit "["; ch; lit "] "; strftime_local w ts])).
  { intros x Hx. apply contains_fmt. simpl in *. tauto. }
  destruct (_build_source_link chat id) as [url|] eqn:El.
  - rewrite (source_link_truthy _ _ _ El : truthy_opt (Some url) = true).
    repeat split; try (apply contains_app_l, Hc; simpl; tauto).
    intros url' E. inversion E; subst url'. apply contains_app_r.
    apply contains_fmt. simpl. tauto.
  - simpl. repeat split; try (apply Hc; simpl; tauto). discriminate.
Qed.

Lemma format_caption_contents (w : World) (ch : str) (ts : Z)
  (text : option str) (chat : Chat) (id : Z) :
  let caption := _format_caption w ch ts text (_build_source_link chat id) in
  contains ch caption /\
  contains (strftime_local w ts) caption /\
  (forall url, _build_source_link chat id = Some url -> contains url caption)
  /\
  (forall t, text = Some t -> truthy t = true -> contains t caption).
Proof.
  intros caption. unfold caption, _format_caption.
  destruct (format_header_contents w ch ts chat id) as [H1 [H2 H3]].
  assert (Hh : forall x header, contains x header ->
                                contains x (fmt [header; [NL; NL];
                                                 default [] text])).
  { intros x header [a [b ->]]. unfold fmt. simpl.
    exists a, (b ++ [NL; NL] ++ default [] text ++ []).
    now rewrite <- !app_assoc. }
  destruct (truthy_opt text) eqn:Et.
  - repeat split; auto.
    intros t -> _. apply contains_fmt. simpl. tauto.
  - repeat split; auto. intros t -> Ht. simpl in Et. congruence.
Qed.

Section RouterClaims.

Variable w : World.
Variable self : MessageRouter.

(** Flushing an album the filter lets through, when the sink does not
    raise. *)
Lemma flush_album_delivers (gid : Z) (album : _PendingAlbum)
  (first : Message) (rest : list Message) (st : State) :
  sink_ok w ->
  dict_get gid (_pending_albums st) = Some album ->
  album_messages album = first :: rest ->
  skipped w self (first_text (album_messages album)) st = false ->
  let msgs := album_messages album in
  let caption :=
    _format_caption w (album_channel_name album) (msg_date first)
      (first_text msgs)
      (_build_source_link (get_chat first) (msg_id first)) in
  let text_send :=
    SendText (_format_text w (album_channel_name album) (msg_date first)
                (default [] (first_text msgs))
                (_build_source_link (get_chat first) (msg_id first))) in
  exists calls new ids,
    Forall is_llm_call calls /\
    fst (_flush_album w self gid st) = Ret tt /\
    trace (snd (_flush_album w self gid st)) = trace st ++ calls ++ new /\
    length ids = length (omap media_of msgs) /\
    sink_calls new
    = media_pairs (Some caption) (omap media_of msgs) ids
      ++ (if (no_media msgs && truthy_opt (first_text msgs))%bool
          then [text_send] else []) /\
    downloads new = album_downloads msgs.
Proof.
  intros Hsink Hget Hmsgs Hns msgs caption text_send.
  destruct (flush_album_gate w self gid album first rest st Hget Hmsgs)
    as [calls [st1 [Hc [Ht [_ Hrun]]]]].
  rewrite (not_skipped_gate w self _ _ _ _ Hns) in Hrun.
  destruct (deliver_album_delivers w album first st1 Hsink)
    as [new [ids [Hret [Htr [Hl [Hs Hd]]]]]].
  exists calls, new, ids. rewrite Hrun, Htr, Ht, <- app_assoc.
  repeat split; assumption.
Qed.

(** C8. A media whose download returns nothing never makes the pipeline
    raise.  For a single message the filter lets through, whose media is
    supported and does not download, the only calls after the filter's are
    the download attempt and, if the message has text, one [send_text] of the
    formatted text; with no text nothing is sent and the call returns.  For
    an album the filter lets through, the messages whose media is missing,
    unsupported or not downloaded add nothing to the calls to the sink; when
    this is every message, the only call to the sink is one [send_text] of
    the album text, if there is one, and none otherwise.  The run returns
    normally whenever the sink itself does not raise. *)
Theorem absent_fetch_degrades :
  (forall (ch : str) (m : Message) (st : State) (wa mime fn : str),
     skipped w self (msg_text m) st = false ->
     _detect_media m = Some (wa, mime, fn) ->
     supported mime = true ->
     download_media m = None ->
     let text_send :=
       SendText (_format_text w ch (msg_date m) (default [] (msg_text m))
                   (_build_source_link (get_chat m) (msg_id m))) in
     exists calls,
       Forall is_llm_call calls /\
       trace (snd (_forward_single w self ch m st))
       = trace st ++ calls
         ++ DownloadMedia (msg_id m)
            :: (if truthy_opt (msg_text m) then [text_send] else []) /\
       (truthy_opt (msg_text m) = false ->
        fst (_forward_single w self ch m st) = Ret tt) /\
       (sink_ok w -> fst (_forward_single w self ch m st) = Ret tt)) /\
  (forall (gid : Z) (album : _PendingAlbum) (first : Message)
          (rest : list Message) (st : State),
     dict_get gid (_pending_albums st) = Some album ->
     album_messages album = first :: rest ->
     skipped w self (first_text (album_messages album)) st = false ->
     Forall (fun m => media_of m = None) (album_messages album) ->
     let msgs := album_messages album in
     let text_send :=
       SendText (_format_text w (album_channel_name album) (msg_date first)
                   (default [] (first_text msgs))
                   (_build_source_link (get_chat first) (msg_id first))) in
     exists calls,
       Forall is_llm_call calls /\
       trace (snd (_flush_album w self gid st))
       = trace st ++ calls ++ album_downloads msgs
         ++ (if truthy_opt (first_text msgs) then [text_send] else []) /\
       (truthy_opt (first_text msgs) = false ->
        fst (_flush_album w self gid st) = Ret tt) /\
       (sink_ok w -> fst (_flush_album w self gid st) = Ret tt)) /\
  (forall (gid : Z) (album : _PendingAlbum) (first : Message)
          (rest : list Message) (st : State),
     sink_ok w ->
     dict_get gid (_pending_albums st) = Some album ->
     album_messages album = first :: rest ->
     skipped w self (first_text (album_messages album)) st = false ->
     let msgs := album_messages album in
     let caption :=
       _format_caption w (album_channel_name album) (msg_date first)
         (first_text msgs)
         (_build_source_link (get_chat first) (msg_id first)) in
     let text_send :=
       SendText (_format_text w (album_channel_name album) (msg_date first)
                   (default [] (first_text msgs))
                   (_build_source_link (get_chat first) (msg_id first))) in
     exists calls new ids,
       Forall is_llm_call calls /\
       fst (_flush_album w self gid st) = Ret tt /\
       trace (snd (_flush_album w self gid st)) = trace st ++ calls ++ new /\
       length ids = length (omap media_of msgs) /\
       sink_calls new
       = media_pairs (Some caption) (omap media_of msgs) ids
         ++ (if (no_media msgs && truthy_opt (first_text msgs))%bool
             then [text_send] else []) /\
       downloads new = album_downloads msgs).
Proof.
  split; [|split].
  - intros ch m st wa mime fn Hns Hd Hs Hf text_send.
    destruct (forward_single_gate w self ch m st)
      as [calls [st1 [Hc [Ht [_ Hrun]]]]].
    rewrite (not_skipped_gate w self _ _ _ _ Hns) in Hrun.
    destruct (deliver_single_absent w ch m st1 wa mime fn Hd Hs Hf)
      as [Htr [Hno Hok]].
    exists calls. rewrite Hrun, Htr, Ht, <- app_assoc.
    repeat split; assumption.
  - intros gid album first rest st Hget Hmsgs Hns Hall msgs text_send.
    destruct (flush_album_gate w self gid album first rest st Hget Hmsgs)
      as [calls [st1 [Hc [Ht [_ Hrun]]]]].
    rewrite (not_skipped_gate w self _ _ _ _ Hns) in Hrun.
    destruct (deliver_album_excluded w album first st1 Hall)
      as [Htr [Hno Hok]].
    exists calls. rewrite Hrun, Htr, Ht, <- app_assoc.
    repeat split; assumption.
  - intros gid album first rest st Hsink Hget Hmsgs Hns.
    exact (flush_album_delivers gid album first rest st Hsink Hget Hmsgs
             Hns).
Qed.

(** C9. When an album the filter lets through is flushed and the sink does
    not raise, the calls to the sink are one [upload_media] and one
    [send_media] for each message whose media is supported and downloads, in
    the order of the messages; the first [send_media] carries the caption and
    every later one carries none.  The caption contains the channel name, the
    formatted time of the first message, the link to it when the chat has a
    username, and the album text, which is the text of the first message, in
    order, that has one. *)
Theorem album_caption_on_first_only :
  sink_ok w ->
  forall (gid : Z) (album : _PendingAlbum) (first : Message)
         (rest : list Message) (st : State),
    dict_get gid (_pending_albums st) = Some album ->
    album_messages album = first :: rest ->
    skipped w self (first_text (album_messages album)) st = false ->
    let msgs := album_messages album in
    let media := omap media_of msgs in
    let link := _build_source_link (get_chat first) (msg_id first) in
    let caption :=
      _format_caption w (album_channel_name album) (msg_date first)
        (first_text msgs) link in
    exists calls new ids,
      Forall is_llm_call calls /\
      trace (snd (_flush_album w self gid st)) = trace st ++ calls ++ new /\
      length ids = length media /\
      (media <> [] ->
       sink_calls new = media_pairs (Some caption) media ids) /\
      contains (album_channel_name album) caption /\
      contains (strftime_local w (msg_date first)) caption /\
      (forall url, link = Some url -> contains url caption) /\
      (forall text, first_text msgs = Some text -> contains text caption) /\
      (forall pre m post,
         msgs = pre ++ m :: post ->
         Forall (fun x => truthy_opt (msg_text x) = false) pre ->
         truthy_opt (msg_text m) = true ->
         first_text msgs = msg_text m).
Proof.
  intros Hsink gid album first rest st Hget Hmsgs Hns msgs media link
         caption.
  destruct (flush_album_delivers gid album first rest st
              Hsink Hget Hmsgs Hns)
    as [calls [new [ids [Hc [_ [Htr [Hl [Hs _]]]]]]]].
  exists calls, new, ids.
  destruct (format_caption_contents w (album_channel_name album)
              (msg_date first) (first_text msgs) (get_chat first)
              (msg_id first)) as [H1 [H2 [H3 H4]]].
  split; [exact Hc|]. split; [exact Htr|]. split; [exact Hl|].
  split.
  { intros Hne. fold msgs in Hs. rewrite Hs.
    unfold no_media. fold msgs media.
    destruct media; [congruence|]. simpl. now rewrite app_nil_r. }
  split; [exact H1|]. split; [exact H2|]. split; [exact H3|].
  split.
  { intros text Ht. apply H4; [exact Ht|].
    destruct (first_text_truthy msgs) as [E|E];
      rewrite Ht in E; [exact E|discriminate]. }
  intros pre m post -> Hpre Hm. now apply first_text_first.
Qed.

End RouterClaims.

(** ** The pending albums *)

Lemma dict_get_set_same (k : Z) (v : _PendingAlbum) (d : dict) :
  dict_get k (dict_set k v d) = Some v.
Proof.
  induction d as [|[k' v'] d IH]; simpl.
  - now rewrite Z.eqb_refl.
  - destruct (Z.eqb_spec k k'); simpl.
    + now rewrite Z.eqb_refl.
    + destruct (Z.eqb_spec k k'); [contradiction|exact IH].
Qed.

Lemma dict_get_set_other (k k' : Z) (v : _PendingAlbum) (d : dict) :
  k' <> k -> dict_get k' (dict_set k v d) = dict_get k' d.
Proof.
  intros Hne. induction d as [|[k0 v0] d IH]; simpl.
  - destruct (Z.eqb_spec k' k); [contradiction|reflexivity].
  - destruct (Z.eqb_spec k k0); simpl.
    + subst k0. destruct (Z.eqb_spec k' k); [contradiction|reflexivity].
    + destruct (Z.eqb_spec k' k0); [reflexivity|exact IH].
Qed.

Lemma dict_set_set (k : Z) (v1 v2 : _PendingAlbum) (d : dict) :
  dict_set k v2 (dict_set k v1 d) = dict_set k v2 d.
Proof.
  induction d as [|[k' v'] d IH]; simpl.
  - now rewrite Z.eqb_refl.
  - destruct (Z.eqb_spec k k'); simpl.
    + now rewrite Z.eqb_refl.
    + destruct (Z.eqb_spec k k'); [contradiction|now rewrite IH].
Qed.

Lemma dict_get_in (k : Z) (d : dict) :
  dict_get k d <> None <-> In k (dict_keys d).
Proof.
  unfold dict_keys. induction d as [|[k' v'] d IH]; simpl.
  - split; [congruence|tauto].
  - destruct (Z.eqb_spec k k').
    + subst. split; [now left|discriminate].
    + rewrite IH. split; [now right|]. intros [E|H]; [congruence|exact H].
Qed.

Lemma dict_set_keys (k : Z) (v : _PendingAlbum) (d : dict) :
  dict_keys (dict_set k v d)
  = match dict_get k d with
    | Some _ => dict_keys d
    | None => dict_keys d ++ [k]
    end.
Proof.
  unfold dict_keys. induction d as [|[k' v'] d IH]; simpl; [reflexivity|].
  destruct (Z.eqb_spec k k'); simpl.
  - now subst.
  - rewrite IH. now destruct (dict_get k d).
Qed.

Lemma dict_set_nodup (k : Z) (v : _PendingAlbum) (d : dict) :
  NoDup (dict_keys d) -> NoDup (dict_keys (dict_set k v d)).
Proof.
  intros Hnd. rewrite dict_set_keys.
  destruct (dict_get k d) eqn:E; [exact Hnd|].
  apply list.NoDup_app. split; [exact Hnd|]. split.
  - intros x Hx Hk. apply list_elem_of_In in Hx.
    apply list_elem_of_singleton in Hk. subst x.
    apply dict_get_in in Hx. congruence.
  - apply list.NoDup_singleton.
Qed.

Lemma dict_del_keys_in (k x : Z) (d : dict) :
  In x (dict_keys (dict_del k d)) -> In x (dict_keys d).
Proof.
  unfold dict_keys. induction d as [|[k' v'] d IH]; simpl; [tauto|].
  destruct (Z.eqb_spec k k'); simpl; [now right|].
  intros [E|H]; [now left|right; now apply IH].
Qed.

Lemma dict_del_nodup (k : Z) (d : dict) :
  NoDup (dict_keys d) -> NoDup (dict_keys (dict_del k d)).
Proof.
  unfold dict_keys. induction d as [|[k' v'] d IH]; simpl; intros Hnd;
    [constructor|].
  apply list.NoDup_cons in Hnd as [Hnot Hnd'].
  destruct (Z.eqb_spec k k'); simpl; [exact Hnd'|].
  apply list.NoDup_cons. split; [|now apply IH].
  intros Hin. apply Hnot. apply list_elem_of_In.
  apply list_elem_of_In in Hin. now apply (dict_del_keys_in k).
Qed.

(** Once popped, a key is no longer in the dict, provided the dict held it
    at most once. *)
Lemma dict_get_del_same (k : Z) (d : dict) :
  NoDup (dict_keys d) -> dict_get k (dict_del k d) = None.
Proof.
  unfold dict_keys. induction d as [|[k' v'] d IH]; simpl; intros Hnd;
    [reflexivity|].
  apply list.NoDup_cons in Hnd as [Hnot Hnd'].
  destruct (Z.eqb_spec k k'); simpl.
  - subst k'. destruct (dict_get k d) eqn:E; [|reflexivity].
    exfalso. apply Hnot. apply list_elem_of_In.
    apply (dict_get_in k d). congruence.
  - destruct (Z.eqb_spec k k'); [contradiction|now apply IH].
Qed.

Lemma dict_get_del_other (k k' : Z) (d : dict) :
  k' <> k -> dict_get k' (dict_del k d) = dict_get k' d.
Proof.
  intros Hne. induction d as [|[k0 v0] d IH]; simpl; [reflexivity|].
  destruct (Z.eqb_spec k k0); simpl.
  - subst k0. destruct (Z.eqb_spec k' k); [contradiction|reflexivity].
  - destruct (Z.eqb_spec k' k0); [reflexivity|exact IH].
Qed.

Lemma dict_del_absent (k : Z) (d : dict) :
  dict_get k d = None -> dict_del k d = d.
Proof.
  induction d as [|[k' v'] d IH]; simpl; [reflexivity|].
  destruct (Z.eqb_spec k k'); [discriminate|].
  intros H. now rewrite IH.
Qed.

Section Aggregator.

Variable w : World.
Variable self : MessageRouter.

Lemma quiet_pending {A} (m : M A) (st : State) :
  quiet m -> _pending_albums (snd (m st)) = _pending_albums st.
Proof.
  intros Hq. destruct (Hq st) as [Hr _]. unfold router_of in Hr. congruence.
Qed.

(** Buffering a message of a group: the group's album gains the message at
    the end of its list (or is created with it), nothing is sent. *)
Lemma forward_album (ch : str) (m : Message) (gid : Z) (st : State) :
  grouped_id m = Some gid ->
  gid <> 0 ->
  fst (forward w self ch m st) = Ret tt /\
  _pending_albums (snd (forward w self ch m st))
  = dict_set gid
      (album_after ch m (dict_get gid (_pending_albums st)) (loop_next st))
      (_pending_albums st) /\
  trace (snd (forward w self ch m st)) = trace st.
Proof.
  intros Hg Hne. unfold forward. rewrite Hg.
  destruct (Z.eqb_spec gid 0); [contradiction|].
  unfold bind, call_later, timer_cancel, ret.
  destruct (dict_get gid (_pending_albums st)) as [album|] eqn:Eg; simpl.
  - destruct (album_timer album); simpl; rewrite dict_set_set;
      repeat split; reflexivity.
  - rewrite dict_set_set. repeat split; reflexivity.
Qed.

Lemma flush_album_pending (gid : Z) (st : State) :
  _pending_albums (snd (_flush_album w self gid st))
  = dict_del gid (_pending_albums st).
Proof.
  rewrite flush_album_eq.
  destruct (dict_get gid (_pending_albums st)) as [album|] eqn:Eg.
  - rewrite (quiet_pending _ _ (quiet_process_album w self album)).
    reflexivity.
  - simpl. symmetry. now apply dict_del_absent.
Qed.

Lemma flush_one_pending (gid : Z) (st : State) :
  _pending_albums (snd (flush_one w self gid st))
  = dict_del gid (_pending_albums st).
Proof.
  unfold flush_one, bind, cancel_timer_at.
  destruct (dict_get gid (_pending_albums st)) as [album|];
    [destruct (album_timer album)|]; simpl; rewrite flush_album_pending;
    reflexivity.
Qed.

Lemma for_each_keeps {A} (P : State -> Prop) (body : A -> M unit) :
  (forall x st, P st -> P (snd (body x st))) ->
  forall xs st, P st -> P (snd (for_each xs body st)).
Proof.
  intros Hbody. induction xs as [|x xs IH]; intros st HP; simpl; [exact HP|].
  unfold bind. pose proof (Hbody x st HP) as H1.
  destruct (body x st) as [[[]|e|] st1]; simpl in *; auto.
Qed.

Lemma exec_keys_unique (s : Step) (st : State) :
  keys_unique st -> keys_unique (exec w self s st).
Proof.
  unfold keys_unique. intros Hnd. destruct s as [ch m|h| |]; unfold exec.
  - destruct (grouped_id m) as [gid|] eqn:Eg.
    + destruct (Z.eq_dec gid 0) as [E0|Hne].
      * unfold forward. rewrite Eg. subst gid.
        change (0 =? 0) with true. cbv iota.
        now rewrite (quiet_pending _ _ (quiet_forward_single w self ch m)).
      * destruct (forward_album ch m gid st Eg Hne) as [_ [Hp _]].
        rewrite Hp. now apply dict_set_nodup.
    + unfold forward. rewrite Eg.
      now rewrite (quiet_pending _ _ (quiet_forward_single w self ch m)).
  - unfold loop_fire.
    destruct (find _ (loop_timers st)) as [[h' gid]|]; exact Hnd.
  - unfold loop_run_task. destruct (loop_tasks st) as [|gid rest];
      [exact Hnd|].
    rewrite flush_album_pending. simpl. now apply dict_del_nodup.
  - unfold flush_pending.
    apply (for_each_keeps (fun st => NoDup (dict_keys (_pending_albums st))));
      [|exact Hnd].
    intros gid st0 H0. rewrite flush_one_pending. now apply dict_del_nodup.
Qed.

Lemma run_keys_unique (steps : list Step) :
  forall st, keys_unique st -> keys_unique (run w self steps st).
Proof.
  induction steps as [|s steps IH]; intros st H; simpl; [exact H|].
  apply IH. now apply exec_keys_unique.
Qed.

Lemma for_each_cons {A} (x : A) (xs : list A) (body : A -> M unit)
  (st : State) :
  for_each (x :: xs) body st
  = match body x st with
    | (Ret _, st') => for_each xs body st'
    | (Raise e, st') => (Raise e, st')
    | (Diverge, st') => (Diverge, st')
    end.
Proof. reflexivity. Qed.

(** [flush_pending] completes the entries of the dict one by one, in the
    order of the dict, each exactly once. *)
Lemma flush_pending_entries (d : dict) :
  forall st,
    _pending_albums st = d ->
    for_each (dict_keys d) (flush_one w self) st
    = for_each d (complete_album w self) st.
Proof.
  induction d as [|[gid album] d IH]; intros st Hd; [reflexivity|].
  change (dict_keys ((gid, album) :: d)) with (gid :: dict_keys d).
  rewrite !for_each_cons.
  assert (Hone : flush_one w self gid st
                 = complete_album w self (gid, album) st).
  { unfold flush_one, complete_album, bind, cancel_timer_at.
    rewrite Hd. simpl.
    rewrite Z.eqb_refl.
    destruct (album_timer album); simpl; rewrite flush_album_eq; simpl;
      rewrite Hd; simpl; rewrite Z.eqb_refl; reflexivity. }
  rewrite Hone.
  assert (Hp : _pending_albums (snd (complete_album w self (gid, album) st))
               = d).
  { rewrite <- Hone, flush_one_pending, Hd. simpl. now rewrite Z.eqb_refl. }
  destruct (complete_album w self (gid, album) st) as [[[]|e|] st1];
    [now apply IH|reflexivity|reflexivity].
Qed.

Lemma flush_pending_empties (d : dict) :
  forall st,
    _pending_albums st = d ->
    fst (for_each (dict_keys d) (flush_one w self) st) = Ret tt ->
    _pending_albums (snd (for_each (dict_keys d) (flush_one w self) st)) = [].
Proof.
  induction d as [|[gid album] d IH]; intros st Hd; [now intros _|].
  change (dict_keys ((gid, album) :: d)) with (gid :: dict_keys d).
  rewrite !for_each_cons.
  pose proof (flush_one_pending gid st) as Hp. rewrite Hd in Hp.
  simpl in Hp. rewrite Z.eqb_refl in Hp.
  destruct (flush_one w self gid st) as [[[]|e|] st1]; simpl in *;
    [now apply IH|discriminate|discriminate].
Qed.

(** Whatever happens, [flush_pending] only removes entries it has started
    to complete: what is left in the dict is an untouched tail of it. *)
Lemma flush_pending_tail (d : dict) :
  forall st,
    _pending_albums st = d ->
    exists started,
      d = started
          ++ _pending_albums
               (snd (for_each (dict_keys d) (flush_one w self) st)).
Proof.
  induction d as [|[gid album] d IH]; intros st Hd.
  - exists []. simpl. now rewrite Hd.
  - change (dict_keys ((gid, album) :: d)) with (gid :: dict_keys d).
    rewrite for_each_cons.
    pose proof (flush_one_pending gid st) as Hp. rewrite Hd in Hp.
    simpl in Hp. rewrite Z.eqb_refl in Hp.
    destruct (flush_one w self gid st) as [[[]|e|] st1]; simpl in *.
    + destruct (IH st1 Hp) as [started Hs].
      exists ((gid, album) :: started). simpl. now rewrite <- Hs.
    + exists [(gid, album)]. simpl. now rewrite Hp.
    + exists [(gid, album)]. simpl. now rewrite Hp.
Qed.

End Aggregator.

(** ** Runs taken from the test suite *)

(** A text of 5000 characters without newline or space, cut at 4096. *)
Example split_hard_cut :
  option_map (map len) (_split_text (repeat 97%N (Z.to_nat 5000)) MAX_TEXT)
  = Some [4096; 904].
Proof. vm_compute. reflexivity. Qed.

(** A timer fires and its flush is queued; [flush_pending] runs before the
    queued flush does.  The album is delivered once, and the queued flush
    finds nothing to do. *)
Example flush_pending_wins_the_race :
  let m1 := photo_message (Some (lit "cap")) (Some 10) 1 (Some []) in
  let m2 := photo_message None (Some 10) 2 (Some []) in
  let st := run world_ok router_plain
              [Arrive (lit "Ch") m1; Arrive (lit "Ch") m2; Fire 1;
               FlushPending; RunTask] initial in
  downloads (trace st) = [DownloadMedia 1; DownloadMedia 2] /\
  length (sink_calls (trace st)) = 4%nat /\
  _pending_albums st = [] /\ loop_tasks st = [].
Proof. vm_compute. repeat split; reflexivity. Qed.

(** A message arrives after the timer has fired but before the queued flush
    runs: it joins the album, which is then delivered once with both
    messages; the timer set by the late arrival finds nothing to do. *)
Example late_arrival_joins_the_album :
  let m1 := photo_message (Some (lit "cap")) (Some 10) 1 (Some []) in
  let m2 := photo_message None (Some 10) 2 (Some []) in
  let st := run world_ok router_plain
              [Arrive (lit "Ch") m1; Fire 0; Arrive (lit "Ch") m2; RunTask;
               Fire 1; RunTask] initial in
  downloads (trace st) = [DownloadMedia 1; DownloadMedia 2] /\
  length (sink_calls (trace st)) = 4%nat /\
  _pending_albums st = [] /\ loop_tasks st = [] /\ loop_timers st = [].
Proof. vm_compute. repeat split; reflexivity. Qed.

(** Three photos under one group, the text on the second: three uploads and
    three sends, the caption on the first send only. *)
Example album_of_three :
  let m1 := photo_message None (Some 10) 1 (Some []) in
  let m2 := photo_message (Some (lit "cap")) (Some 10) 2 (Some []) in
  let m3 := photo_message None (Some 10) 3 (Some []) in
  let st := run world_ok router_plain
              [Arrive (lit "Ch") m1; Arrive (lit "Ch") m2;
               Arrive (lit "Ch") m3; FlushPending; FlushPending] initial in
  captions (trace st)
  = [Some (_format_caption world_ok (lit "Ch") 0 (Some (lit "cap"))
             (Some (lit "https://t.me/chan/1")));
     None; None] /\
  length (sink_calls (trace st)) = 6%nat.
Proof. vm_compute. repeat split; reflexivity. Qed.

(** An album whose text the filter rejects: one notice, no download. *)
Example album_rejected :
  let m1 := photo_message (Some (lit "buy")) (Some 10) 1 (Some []) in
  let m2 := photo_message None (Some 10) 2 (Some []) in
  let st := run world_ok router_filtering
              [Arrive (lit "Ch") m1; Arrive (lit "Ch") m2; FlushPending]
              initial in
  sink_calls (trace st)
  = [SendText (lit "[Skipped from Ch] (ads) ad" ++ [NL]
               ++ lit "https://t.me/chan/1")] /\
  downloads (trace st) = [].
Proof. vm_compute. repeat split; reflexivity. Qed.

(** The loop with suspensions.  The flush of an album is suspended after its
    pop; [flush_pending] and a second timer task of the same key run in
    between and find nothing of it; a message of the group that arrives
    meanwhile starts a new album, which is delivered by its own timer.
    Every message is downloaded once. *)
Example suspended_flush_is_not_repeated :
  let m1 := photo_message (Some (lit "cap")) (Some 10) 1 (Some []) in
  let m2 := photo_message None (Some 10) 2 (Some []) in
  let m3 := photo_message None (Some 10) 3 (Some []) in
  let s := play world_ok router_plain
             [Arrives (lit "Ch") m1; Fires 0; Arrives (lit "Ch") m2; Fires 1;
              Starts; Shutdown; Starts; Arrives (lit "Ch") m3; Resumes 0;
              Fires 2; Starts; Resumes 0] boot in
  map album_messages (processed s) = [[m1; m2]; [m3]] /\
  downloads (trace (now s))
  = [DownloadMedia 1; DownloadMedia 2; DownloadMedia 3] /\
  _pending_albums (now s) = [] /\ suspended s = [] /\
  loop_tasks (now s) = [] /\ loop_timers (now s) = [].
Proof. vm_compute. repeat split; reflexivity. Qed.

(** ** The theorems at work on concrete runs *)

Lemma skip_sends_one_notice_witness :
  let m := photo_message (Some (lit "buy now")) None 10 (Some []) in
  let result := {| action := SKIP; reason := lit "ad";
                   filter_name := lit "ads" |} in
  let notice :=
    skip_notice (lit "News") result
                (_build_source_link (get_chat m) (msg_id m)) in
  verdict_on world_ok router_filtering (msg_text m) initial = Some result /\
  action result = SKIP /\
  exists calls,
    trace (snd (_forward_single world_ok router_filtering (lit "News") m
                                initial))
    = trace initial ++ calls ++ [SendText notice] /\
    Forall is_llm_call calls.
Proof.
  intros m result notice.
  assert (Hv : verdict_on world_ok router_filtering (msg_text m) initial
               = Some result) by (vm_compute; reflexivity).
  split; [exact Hv|]. split; [reflexivity|].
  destruct (proj1 (skip_sends_one_notice world_ok router_filtering)
              (lit "News") m initial result Hv eq_refl)
    as [calls [Ht [Hc _]]].
  exists calls. split; [exact Ht|exact Hc].
Defined.

Lemma absent_fetch_degrades_witness :
  let m := photo_message (Some (lit "caption")) None 1 None in
  skipped world_ok router_plain (msg_text m) initial = false /\
  _detect_media m = Some (lit "image", lit "image/jpeg", lit "photo.jpg") /\
  supported (lit "image/jpeg") = true /\
  download_media m = None /\
  exists calls,
    Forall is_llm_call calls /\
    trace (snd (_forward_single world_ok router_plain (lit "Ch") m initial))
    = trace initial ++ calls
      ++ DownloadMedia (msg_id m)
         :: [SendText (_format_text world_ok (lit "Ch") (msg_date m)
                         (lit "caption")
                         (_build_source_link (get_chat m) (msg_id m)))].
Proof.
  intros m.
  assert (Hs : supported (lit "image/jpeg") = true)
    by (vm_compute; reflexivity).
  split; [reflexivity|]. split; [reflexivity|]. split; [exact Hs|].
  split; [reflexivity|].
  destruct (proj1 (absent_fetch_degrades world_ok router_plain)
              (lit "Ch") m initial (lit "image") (lit "image/jpeg")
              (lit "photo.jpg") eq_refl eq_refl Hs eq_refl)
    as [calls [Hc [Ht _]]].
  exists calls. split; [exact Hc|exact Ht].
Defined.

Lemma sink_ok_world_ok : sink_ok world_ok.
Proof. intros n. reflexivity. Defined.

Lemma album_caption_on_first_only_witness :
  let st := state_with 10 album_ex in
  let first := photo_message None (Some 10) 1 (Some []) in
  let caption :=
    _format_caption world_ok (lit "Ch") (msg_date first)
      (Some (lit "cap")) (_build_source_link (get_chat first) (msg_id first))
  in
  sink_ok world_ok /\
  dict_get 10 (_pending_albums st) = Some album_ex /\
  skipped world_ok router_plain (first_text (album_messages album_ex)) st
  = false /\
  exists calls new ids,
    trace (snd (_flush_album world_ok router_plain 10 st))
    = trace st ++ calls ++ new /\
    length ids = 2%nat /\
    sink_calls new
    = media_pairs (Some caption) (omap media_of (album_messages album_ex))
                  ids.
Proof.
  intros st first caption.
  split; [exact sink_ok_world_ok|]. split; [reflexivity|].
  split; [reflexivity|].
  destruct (album_caption_on_first_only world_ok router_plain
              sink_ok_world_ok 10 album_ex first
              (tl (album_messages album_ex)) st eq_refl eq_refl eq_refl)
    as [calls [new [ids [_ [Ht [Hl [Hs _]]]]]]].
  exists calls, new, ids. split; [exact Ht|]. split; [exact Hl|].
  apply Hs. discriminate.
Defined.

Lemma keys_unique_state_with (gid : Z) (album : _PendingAlbum) :
  keys_unique (state_with gid album).
Proof. apply list.NoDup_singleton. Defined.


(** * Further properties *)

(** ** Python strings: what [rfind] finds *)

Lemma char_at_nil (i : Z) : char_at [] i = None.
Proof. unfold char_at. destruct (i <? 0); [reflexivity|]. apply lookup_nil. Qed.

Lemma char_at_head (x : char) (s : str) : char_at (x :: s) 0 = Some x.
Proof. reflexivity. Qed.

Lemma char_at_cons (x : char) (s : str) (i : Z) :
  0 <= i -> char_at (x :: s) (i + 1) = char_at s i.
Proof.
  intros Hi. unfold char_at.
  destruct (Z.ltb_spec (i + 1) 0); [lia|].
  destruct (Z.ltb_spec i 0); [lia|].
  replace (Z.to_nat (i + 1)) with (S (Z.to_nat i)) by lia. reflexivity.
Qed.

Lemma char_at_beyond (s : str) (i : Z) : len s <= i -> char_at s i = None.
Proof.
  intros H. unfold char_at, len in *. destruct (i <? 0); [reflexivity|].
  apply lookup_ge_None. lia.
Qed.

Lemma rfind_at_sign (s : str) (c : char) (i lo hi : Z) :
  0 <= i -> rfind_at s c i lo hi < 0 -> rfind_at s c i lo hi = -1.
Proof.
  intros Hi Hn. destruct (rfind_at_range s c i lo hi) as [E|[_ H]]; lia.
Qed.

(** A failed search: the character is nowhere in the window. *)
Lemma rfind_at_none (c : char) (lo hi : Z) (s : str) :
  forall i,
    0 <= i -> rfind_at s c i lo hi = -1 ->
    forall k, i <= k -> lo <= k < hi -> char_at s (k - i) <> Some c.
Proof.
  induction s as [|x s IH]; intros i Hi Hn k Hk Hw.
  - rewrite char_at_nil. discriminate.
  - simpl in Hn.
    destruct (Z.leb_spec 0 (rfind_at s c (i + 1) lo hi)) as [H0|H0]; [lia|].
    pose proof (rfind_at_sign s c (i + 1) lo hi ltac:(lia) H0) as Hrec.
    destruct (Z.eq_dec k i) as [->|Hne].
    + replace (i - i) with 0 by lia. rewrite char_at_head. intros E.
      inversion E; subst x. rewrite N.eqb_refl in Hn.
      destruct (Z.leb_spec lo i); [|lia].
      destruct (Z.ltb_spec i hi); [|lia]. simpl in Hn. lia.
    + replace (k - i) with (k - (i + 1) + 1) by lia.
      rewrite char_at_cons by lia. apply (IH (i + 1)); lia.
Qed.

(** A successful search: the result is the last occurrence in the window. *)
Lemma rfind_at_found (c : char) (lo hi : Z) (s : str) :
  forall i r,
    0 <= i -> rfind_at s c i lo hi = r -> 0 <= r ->
    char_at s (r - i) = Some c /\ lo <= r < hi /\ i <= r /\
    forall k, r < k < hi -> lo <= k -> char_at s (k - i) <> Some c.
Proof.
  induction s as [|x s IH]; intros i r Hi Hr Hpos; simpl in Hr; [lia|].
  destruct (Z.leb_spec 0 (rfind_at s c (i + 1) lo hi)) as [H0|H0].
  - destruct (IH (i + 1) r ltac:(lia) Hr Hpos) as [Hc [Hw [Hge Hmax]]].
    split; [|split; [exact Hw|split; [lia|]]].
    + replace (r - i) with (r - (i + 1) + 1) by lia.
      rewrite char_at_cons by lia. exact Hc.
    + intros k Hk Hlo. replace (k - i) with (k - (i + 1) + 1) by lia.
      rewrite char_at_cons by lia. now apply Hmax.
  - pose proof (rfind_at_sign s c (i + 1) lo hi ltac:(lia) H0) as Hrec.
    destruct (N.eqb_spec x c) as [Exc|Exc]; simpl in Hr; [|lia].
    destruct (Z.leb_spec lo i); simpl in Hr; [|lia].
    destruct (Z.ltb_spec i hi); simpl in Hr; [|lia].
    subst r x. split; [|split; [lia|split; [lia|]]].
    + replace (i - i) with 0 by lia. apply char_at_head.
    + intros k Hk Hlo. replace (k - i) with (k - (i + 1) + 1) by lia.
      rewrite char_at_cons by lia.
      apply (rfind_at_none c lo hi s (i + 1)); lia.
Qed.

Lemma adjust_limit (limit n : Z) :
  0 < limit -> adjust limit n = Z.min limit n.
Proof. intros H. unfold adjust. destruct (Z.ltb_spec limit 0); lia. Qed.

Lemma adjust_zero (n : Z) : 0 <= n -> adjust 0 n = 0.
Proof. intros H. unfold adjust. simpl. lia. Qed.

(** [s.rfind(c, 0, limit)] for a positive [limit]. *)
Lemma rfind_found (s : str) (c : char) (limit r : Z) :
  0 < limit -> rfind s c 0 limit = r -> 0 <= r ->
  char_at s r = Some c /\ r < limit /\
  forall k, r < k < limit -> char_at s k <> Some c.
Proof.
  intros Hl Hr Hpos. unfold rfind in Hr.
  assert (Hlen : 0 <= len s) by (unfold len; lia).
  rewrite adjust_zero, adjust_limit in Hr by assumption.
  destruct (rfind_at_found c 0 (Z.min limit (len s)) s 0 r ltac:(lia) Hr Hpos)
    as [Hc [Hw [_ Hmax]]].
  rewrite Z.sub_0_r in Hc. split; [exact Hc|]. split; [lia|].
  intros k Hk. destruct (Z.lt_ge_cases k (len s)) as [Hin|Hout].
  - specialize (Hmax k ltac:(lia) ltac:(lia)).
    now rewrite Z.sub_0_r in Hmax.
  - rewrite char_at_beyond by lia. discriminate.
Qed.

Lemma rfind_not_found (s : str) (c : char) (limit : Z) :
  0 < limit -> rfind s c 0 limit < 0 ->
  forall k, 0 <= k < limit -> char_at s k <> Some c.
Proof.
  intros Hl Hr k Hk. unfold rfind in *.
  assert (Hlen : 0 <= len s) by (unfold len; lia).
  rewrite adjust_zero, adjust_limit in * by assumption.
  pose proof (rfind_at_sign s c 0 0 _ ltac:(lia) Hr) as Hn.
  destruct (Z.lt_ge_cases k (len s)) as [Hin|Hout].
  - pose proof (rfind_at_none c 0 _ s 0 ltac:(lia) Hn k ltac:(lia)
                  ltac:(lia)) as H.
    now rewrite Z.sub_0_r in H.
  - rewrite char_at_beyond by lia. discriminate.
Qed.

(** ** The text splitter: boundaries, hard cuts, progress *)

Lemma truthy_len (s : str) : truthy s = true <-> 0 < len s.
Proof. unfold len. destruct s; simpl; split; intros; try lia; congruence. Qed.

(** One round of the loop on a text that is too long. *)
Lemma split_loop_round (fuel : nat) (text : str) (limit : Z)
  (chunks : list str) :
  0 <= limit -> limit < len text ->
  split_loop (S fuel) text limit chunks
  = split_loop fuel
      (lstrip_with is_nl_sp (slice_from text (split_cut text limit))) limit
      (chunks ++ [slice_to text (split_cut text limit)]).
Proof.
  intros Hl Hlong. simpl.
  rewrite (proj2 (truthy_len text)) by lia. simpl.
  destruct (Z.leb_spec (len text) limit); [lia|reflexivity].
Qed.

(** The first chunk of a text that is too long is the text up to the cut. *)
Lemma split_text_first (text : str) (limit : Z) :
  0 < limit -> limit < len text ->
  exists more,
    _split_text text limit
    = Some (slice_to text (split_cut text limit) :: more).
Proof.
  intros Hl Hlong. unfold _split_text.
  destruct (Z.leb_spec (len text) limit); [lia|].
  rewrite split_loop_round by lia.
  pose proof (split_cut_range text limit Hl) as Hc.
  destruct (split_loop_spec limit Hl (length text)
              (lstrip_with is_nl_sp (slice_from text (split_cut text limit)))
              ([] ++ [slice_to text (split_cut text limit)]))
    as [cs [gaps [Hrun _]]].
  { pose proof (lstrip_with_length is_nl_sp
                  (slice_from text (split_cut text limit))).
    pose proof (len_slice_from text (split_cut text limit) ltac:(lia)).
    unfold len in *. lia. }
  exists cs. rewrite Hrun. reflexivity.
Qed.

(** X1. A text longer than the limit is cut at the last newline that lies
    strictly between its first character and the limit; if there is none, at
    the last space there; if there is neither, exactly at the limit. *)
Theorem split_cuts_at_last_boundary (text : str) (limit : Z) :
  0 < limit -> limit < len text ->
  exists first more,
    _split_text text limit = Some (first :: more) /\
    text = first ++ slice_from text (len first) /\
    ((exists i, 0 < i < limit /\ char_at text i = Some NL) ->
     0 < len first < limit /\ char_at text (len first) = Some NL /\
     forall k, len first < k < limit -> char_at text k <> Some NL) /\
    ((forall i, 0 < i < limit -> char_at text i <> Some NL) ->
     (exists i, 0 < i < limit /\ char_at text i = Some SP) ->
     0 < len first < limit /\ char_at text (len first) = Some SP /\
     forall k, len first < k < limit -> char_at text k <> Some SP) /\
    ((forall i, 0 < i < limit ->
                char_at text i <> Some NL /\ char_at text i <> Some SP) ->
     len first = limit).
Proof.
  intros Hl Hlong.
  destruct (split_text_first text limit Hl Hlong) as [more Hrun].
  pose proof (split_cut_range text limit Hl) as Hc.
  exists (slice_to text (split_cut text limit)), more.
  rewrite len_slice_to by lia.
  split; [exact Hrun|]. split; [apply slice_split|].
  unfold split_cut in *.
  set (rn := rfind text NL 0 limit) in *.
  set (rs := rfind text SP 0 limit) in *.
  assert (Hnl : 0 < rn \/
                forall i, 0 < i < limit -> char_at text i <> Some NL).
  { destruct (Z.lt_ge_cases 0 rn) as [H|H]; [now left|right].
    intros i Hi. destruct (Z.eq_dec rn 0) as [E0|Hne].
    - destruct (rfind_found text NL limit rn Hl eq_refl ltac:(lia))
        as [_ [_ Hmax]]. apply Hmax. lia.
    - apply (rfind_not_found text NL limit Hl); unfold rn in *; lia. }
  assert (Hsp : 0 < rs \/
                forall i, 0 < i < limit -> char_at text i <> Some SP).
  { destruct (Z.lt_ge_cases 0 rs) as [H|H]; [now left|right].
    intros i Hi. destruct (Z.eq_dec rs 0) as [E0|Hne].
    - destruct (rfind_found text SP limit rs Hl eq_refl ltac:(lia))
        as [_ [_ Hmax]]. apply Hmax. lia.
    - apply (rfind_not_found text SP limit Hl); unfold rs in *; lia. }
  split; [|split].
  - intros [i [Hi Hci]].
    destruct Hnl as [Hpos|Hnone]; [|exfalso; now apply (Hnone i)].
    destruct (Z.leb_spec rn 0); [lia|].
    destruct (Z.leb_spec rn 0); [lia|].
    destruct (rfind_found text NL limit rn Hl eq_refl ltac:(lia))
      as [Hf [Hlt Hmax]].
    repeat split; try lia; assumption.
  - intros Hnone [i [Hi Hci]].
    destruct Hsp as [Hpos|Hnos]; [|exfalso; now apply (Hnos i)].
    destruct Hnl as [Hposn|_].
    { destruct (rfind_found text NL limit rn Hl eq_refl ltac:(lia))
        as [Hf [Hlt _]]. exfalso. apply (Hnone rn); [lia|exact Hf]. }
    destruct (Z.leb_spec rn 0) as [Hle|Hgt].
    + destruct (Z.leb_spec rs 0); [lia|].
      destruct (rfind_found text SP limit rs Hl eq_refl ltac:(lia))
        as [Hf [Hlt Hmax]].
      repeat split; try lia; assumption.
    + destruct (rfind_found text NL limit rn Hl eq_refl ltac:(lia))
        as [Hf [Hlt _]]. exfalso. apply (Hnone rn); [lia|exact Hf].
  - intros Hnone.
    assert (Hrn : rn <= 0).
    { destruct (Z.lt_ge_cases 0 rn) as [H|H]; [|lia].
      destruct (rfind_found text NL limit rn Hl eq_refl ltac:(lia))
        as [Hf [Hlt _]]. exfalso.
      apply (proj1 (Hnone rn ltac:(lia))). exact Hf. }
    assert (Hrs : rs <= 0).
    { destruct (Z.lt_ge_cases 0 rs) as [H|H]; [|lia].
      destruct (rfind_found text SP limit rs Hl eq_refl ltac:(lia))
        as [Hf [Hlt _]]. exfalso.
      apply (proj2 (Hnone rs ltac:(lia))). exact Hf. }
    destruct (Z.leb_spec rn 0); [|lia].
    destruct (Z.leb_spec rs 0); [reflexivity|lia].
Qed.

Lemma rfind_at_absent (c : char) (lo hi : Z) (s : str) :
  Forall (fun x => x <> c) s -> forall i, rfind_at s c i lo hi = -1.
Proof.
  induction 1 as [|x s Hx _ IH]; intros i; simpl; [reflexivity|].
  rewrite IH. simpl. destruct (N.eqb_spec x c); [contradiction|reflexivity].
Qed.

Lemma no_boundary_no_nl (s : str) :
  Forall (fun x => is_nl_sp x = false) s ->
  Forall (fun x => x <> NL) s /\ Forall (fun x => x <> SP) s.
Proof.
  induction 1 as [|x s Hx _ [IH1 IH2]]; [split; constructor|].
  unfold is_nl_sp in Hx. apply orb_false_elim in Hx as [H1 H2].
  split; constructor; auto; intros ->; [now rewrite N.eqb_refl in H1|
                                        now rewrite N.eqb_refl in H2].
Qed.

Lemma split_cut_no_boundary (text : str) (limit : Z) :
  Forall (fun x => is_nl_sp x = false) text -> split_cut text limit = limit.
Proof.
  intros H. destruct (no_boundary_no_nl text H) as [Hn Hs].
  unfold split_cut, rfind. now rewrite !rfind_at_absent by assumption.
Qed.

Lemma lstrip_with_clean_id (s : str) :
  Forall (fun x => is_nl_sp x = false) s -> lstrip_with is_nl_sp s = s.
Proof. destruct 1 as [|x s Hx _]; simpl; [reflexivity|now rewrite Hx]. Qed.

Lemma split_loop_hard (limit : Z) :
  0 < limit ->
  forall (fuel : nat) (text : str) (chunks : list str),
    (length text < fuel)%nat ->
    Forall (fun x => is_nl_sp x = false) text ->
    exists cs,
      split_loop fuel text limit chunks = Some (chunks ++ cs) /\
      concat cs = text /\
      forall i c, (S i < length cs)%nat -> cs !! i = Some c -> len c = limit.
Proof.
  intros Hl. induction fuel as [|fuel IH]; intros text chunks Hf Hclean;
    [lia|].
  destruct text as [|x text'] eqn:Et.
  { exists []. simpl. rewrite app_nil_r. repeat split. simpl. lia. }
  rewrite <- Et in *.
  destruct (Z.leb_spec (len text) limit) as [Hshort|Hlong].
  { exists [text]. simpl. rewrite app_nil_r.
    assert (truthy text = true) as -> by now subst.
    simpl. destruct (Z.leb_spec (len text) limit); [|lia].
    repeat split. simpl. lia. }
  rewrite split_loop_round by lia.
  rewrite split_cut_no_boundary by assumption.
  assert (Hrest : Forall (fun x => is_nl_sp x = false)
                         (slice_from text limit)).
  { unfold slice_from. now apply Forall_drop. }
  rewrite lstrip_with_clean_id by assumption.
  destruct (IH (slice_from text limit) (chunks ++ [slice_to text limit]))
    as [cs [Hrun [Hcat Hlen]]]; [|exact Hrest|].
  { pose proof (len_slice_from text limit ltac:(lia)). unfold len in *. lia. }
  exists (slice_to text limit :: cs).
  split; [rewrite Hrun, <- app_assoc; reflexivity|].
  split; [simpl; rewrite Hcat; symmetry; apply slice_split|].
  intros i c Hi Hc. destruct i as [|i]; simpl in *.
  - inversion Hc; subst c. apply len_slice_to. lia.
  - apply (Hlen i); [lia|exact Hc].
Qed.

(** X2. A text without any newline or space is cut into pieces of exactly
    [limit] characters, the last one possibly shorter, and nothing is lost:
    the chunks concatenated are the text. *)
Theorem split_hard_cuts (text : str) (limit : Z) :
  0 < limit ->
  Forall (fun x => is_nl_sp x = false) text ->
  exists chunks,
    _split_text text limit = Some chunks /\
    concat chunks = text /\
    forall i c, (S i < length chunks)%nat -> chunks !! i = Some c ->
                len c = limit.
Proof.
  intros Hl Hclean. unfold _split_text.
  destruct (Z.leb_spec (len text) limit) as [Hshort|Hlong].
  - exists [text]. simpl. rewrite app_nil_r. repeat split. simpl. lia.
  - destruct (split_loop_hard limit Hl (S (length text)) text []
                ltac:(lia) Hclean) as [cs H].
    exists cs. exact H.
Qed.

Lemma lstrip_with_starts_clean (s : str) :
  starts_clean (lstrip_with is_nl_sp s).
Proof.
  induction s as [|x s IH]; simpl; [exact I|].
  destruct (is_nl_sp x) eqn:E; [exact IH|exact E].
Qed.

Lemma slice_to_starts_clean (s : str) (i : Z) :
  starts_clean s -> starts_clean (slice_to s i).
Proof.
  unfold slice_to. destruct s as [|x s]; simpl.
  - now rewrite take_nil.
  - intros H. destruct (Z.to_nat _); [exact I|exact H].
Qed.

Lemma split_loop_clean (limit : Z) :
  0 < limit ->
  forall (fuel : nat) (text : str) (chunks : list str),
    (length text < fuel)%nat ->
    starts_clean text ->
    exists cs,
      split_loop fuel text limit chunks = Some (chunks ++ cs) /\
      (truthy text = true -> cs <> []) /\
      Forall (fun c => truthy c = true /\ starts_clean c) cs.
Proof.
  intros Hl. induction fuel as [|fuel IH]; intros text chunks Hf Hclean;
    [lia|].
  destruct text as [|x text'] eqn:Et.
  { exists []. simpl. rewrite app_nil_r. repeat split; [discriminate|].
    constructor. }
  rewrite <- Et in *. assert (Htr : truthy text = true) by now subst.
  destruct (Z.leb_spec (len text) limit) as [Hshort|Hlong].
  { exists [text]. simpl. rewrite Htr. simpl.
    destruct (Z.leb_spec (len text) limit); [|lia].
    repeat split; [discriminate|]. repeat constructor; assumption. }
  rewrite split_loop_round by lia.
  pose proof (split_cut_range text limit Hl) as Hc.
  destruct (IH (lstrip_with is_nl_sp (slice_from text (split_cut text limit)))
              (chunks ++ [slice_to text (split_cut text limit)]))
    as [cs [Hrun [_ Hall]]].
  { pose proof (lstrip_with_length is_nl_sp
                  (slice_from text (split_cut text limit))).
    pose proof (len_slice_from text (split_cut text limit) ltac:(lia)).
    unfold len in *. lia. }
  { apply lstrip_with_starts_clean. }
  exists (slice_to text (split_cut text limit) :: cs).
  split; [rewrite Hrun, <- app_assoc; reflexivity|].
  split; [discriminate|].
  constructor; [|exact Hall]. split.
  - apply truthy_len. rewrite len_slice_to; lia.
  - now apply slice_to_starts_clean.
Qed.

(** X3. For a non-empty text the splitter returns at least one chunk and no
    empty chunk, and every chunk after the first begins with a character
    other than a newline or a space. *)
Theorem split_chunks_nonempty (text : str) (limit : Z) :
  0 < limit ->
  truthy text = true ->
  exists first more,
    _split_text text limit = Some (first :: more) /\
    truthy first = true /\
    Forall (fun c => truthy c = true /\ starts_clean c) more.
Proof.
  intros Hl Htr. unfold _split_text.
  destruct (Z.leb_spec (len text) limit) as [Hshort|Hlong].
  - exists text, []. repeat split; [exact Htr|constructor].
  - rewrite split_loop_round by lia.
    pose proof (split_cut_range text limit Hl) as Hc.
    destruct (split_loop_clean limit Hl (length text)
                (lstrip_with is_nl_sp
                   (slice_from text (split_cut text limit)))
                ([] ++ [slice_to text (split_cut text limit)]))
      as [cs [Hrun [_ Hall]]].
    { pose proof (lstrip_with_length is_nl_sp
                    (slice_from text (split_cut text limit))).
      pose proof (len_slice_from text (split_cut text limit) ltac:(lia)).
      unfold len in *. lia. }
    { apply lstrip_with_starts_clean. }
    exists (slice_to text (split_cut text limit)), cs.
    split; [rewrite Hrun; reflexivity|]. split; [|exact Hall].
    apply truthy_len. rewrite len_slice_to; lia.
Qed.

(** X4. With a limit of 0 the loop makes no progress on a text that begins
    with a character other than a newline or a space: each round appends an
    empty chunk and leaves the text as it was, so no number of rounds ends
    the loop. *)
Theorem split_limit_zero_diverges (text : str) :
  truthy text = true ->
  starts_clean text ->
  (forall fuel chunks,
     split_loop (S fuel) text 0 chunks
     = split_loop fuel text 0 (chunks ++ [[]])) /\
  (forall fuel chunks, split_loop fuel text 0 chunks = None) /\
  _split_text text 0 = None.
Proof.
  intros Htr Hclean.
  assert (Hlong : 0 < len text) by now apply truthy_len.
  assert (Hcut : split_cut text 0 = 0).
  { unfold split_cut, rfind, adjust. simpl.
    assert (Hw : forall c, rfind_at text c 0 (Z.min 0 (len text))
                                     (Z.min 0 (len text)) = -1).
    { intros c.
      destruct (rfind_at_range text c 0 (Z.min 0 (len text))
                  (Z.min 0 (len text))) as [E|[H _]]; [exact E|lia]. }
    now rewrite !Hw. }
  assert (Hstep : forall fuel chunks,
             split_loop (S fuel) text 0 chunks
             = split_loop fuel text 0 (chunks ++ [[]])).
  { intros fuel chunks. rewrite split_loop_round by lia. rewrite Hcut.
    assert (E1 : slice_from text 0 = text).
    { unfold slice_from. rewrite adjust_zero by lia. reflexivity. }
    assert (E2 : slice_to text 0 = []).
    { unfold slice_to. rewrite adjust_zero by lia. reflexivity. }
    rewrite E1, E2.
    assert (E3 : lstrip_with is_nl_sp text = text).
    { destruct text as [|x t]; [reflexivity|]. simpl in *.
      now rewrite Hclean. }
    now rewrite E3. }
  assert (Hall : forall fuel chunks, split_loop fuel text 0 chunks = None).
  { induction fuel as [|fuel IH]; intros chunks; [reflexivity|].
    rewrite Hstep. apply IH. }
  split; [exact Hstep|]. split; [exact Hall|].
  unfold _split_text. destruct (Z.leb_spec (len text) 0); [lia|apply Hall].
Qed.

(** ** The sender: failures, receipts and the caption cut *)

Section SenderMore.

Variable w : World.
Variable self : WhatsAppSender.

Lemma accepted_inv (response : Response) :
  accepted response = true ->
  is_error response = false /\ is_success response = true /\
  exists body, response_json response = Some body.
Proof.
  unfold accepted. intros H. apply andb_prop in H. destruct H as [Hs Hj].
  split; [|split; [exact Hs|]].
  - destruct (is_error response) eqn:E; [|reflexivity].
    apply is_error_not_success in E. congruence.
  - destruct (response_json response) as [body|]; [now exists body|].
    discriminate.
Qed.

Lemma send_text_loop_cons_ok (chunk : str) (rest : list str)
  (results : list Json) (st : State) (body : Json) :
  accepted (http w (length (trace st))) = true ->
  response_json (http w (length (trace st))) = Some body ->
  send_text_loop w self (chunk :: rest) results st
  = send_text_loop w self rest (results ++ [body])
      (snd (emit (Post (_messages_url self)
                       (TextPayload (recipient self) chunk)) st)).
Proof.
  intros H Hb. destruct (accepted_inv _ H) as [He [Hs _]].
  simpl. unfold bind, emit, ret, raise_for_status, json. simpl.
  rewrite He, Hs, Hb. reflexivity.
Qed.

Lemma send_text_loop_fails (k : nat) :
  forall (chunks : list str) (results : list Json) (st : State),
    (k < length chunks)%nat ->
    (forall j, (j < k)%nat ->
               accepted (http w (length (trace st) + j)) = true) ->
    accepted (http w (length (trace st) + k)) = false ->
    let response := http w (length (trace st) + k) in
    fst (send_text_loop w self chunks results st)
    = Raise (if is_success response then ValueError
             else HTTPStatusError) /\
    trace (snd (send_text_loop w self chunks results st))
    = trace st ++ take (S k) (text_posts self chunks) /\
    log (snd (send_text_loop w self chunks results st))
    = log st ++ (if is_error response
                 then [(ERROR, fmt [lit "WhatsApp API error: ";
                                    response_text response])]
                 else []).
Proof.
  induction k as [|k IH]; intros chunks results st Hk Hok Herr;
    destruct chunks as [|chunk rest]; simpl in Hk; try lia.
  - rewrite Nat.add_0_r in Herr. cbv zeta. rewrite Nat.add_0_r.
    unfold accepted in Herr.
    simpl. unfold bind, emit, logger, ret, raise, raise_for_status, json.
    simpl.
    destruct (is_error (http w (length (trace st)))) eqn:He;
      destruct (is_success (http w (length (trace st)))) eqn:Hs;
      destruct (response_json (http w (length (trace st)))) eqn:Hj;
      simpl in *; try discriminate;
      try (apply is_error_not_success in He; congruence);
      rewrite ?app_nil_r; repeat split.
  - pose proof (Hok O ltac:(lia)) as H0. rewrite Nat.add_0_r in H0.
    destruct (accepted_inv _ H0) as [_ [_ [body Hb]]].
    rewrite (send_text_loop_cons_ok chunk rest results st body H0 Hb).
    cbv zeta.
    match goal with
    | |- context [send_text_loop w self rest ?r ?s] =>
        destruct (IH rest r s) as [Ho [Ht Hl]]
    end.
    + lia.
    + intros j Hj. simpl. rewrite length_app. simpl.
      replace (length (trace st) + 1 + j)%nat
        with (length (trace st) + S j)%nat by lia.
      apply Hok. lia.
    + simpl. rewrite length_app. simpl.
      replace (length (trace st) + 1 + k)%nat
        with (length (trace st) + S k)%nat by lia.
      exact Herr.
    + simpl in Ho, Ht, Hl. rewrite length_app in Ho, Hl. simpl in Ho, Hl.
      replace (length (trace st) + 1 + k)%nat
        with (length (trace st) + S k)%nat in Ho, Hl by lia.
      split; [exact Ho|]. split; [|exact Hl].
      etransitivity; [exact Ht|]. simpl. now rewrite <- app_assoc.
Qed.

(** X5. When the response to one of the text requests is not accepted,
    [send_text] raises and the chunks after that one are never posted.  A
    status other than 2xx raises [HTTPStatusError]; a 2xx status with a body
    that is not JSON raises [ValueError].  An error record is logged
    exactly when the status is a 4xx or a 5xx: a redirect, for one, raises
    without a record. *)
Theorem send_text_stops_at_failure (text : str) (chunks : list str)
  (k : nat) (st : State) :
  _split_text text MAX_TEXT = Some chunks ->
  (k < length chunks)%nat ->
  (forall j, (j < k)%nat ->
             accepted (http w (length (trace st) + j)) = true) ->
  accepted (http w (length (trace st) + k)) = false ->
  let response := http w (length (trace st) + k) in
  fst (send_text w self text st)
  = Raise (if is_success response then ValueError
           else HTTPStatusError) /\
  trace (snd (send_text w self text st))
  = trace st ++ take (S k) (text_posts self chunks) /\
  log (snd (send_text w self text st))
  = log st ++ (if is_error response
               then [(ERROR, fmt [lit "WhatsApp API error: ";
                                  response_text response])]
               else []).
Proof.
  intros Hs Hk Hok Herr. unfold send_text. rewrite Hs.
  now apply send_text_loop_fails.
Qed.

Lemma send_text_loop_receipts (chunks : list str) :
  forall (results : list Json) (st : State),
    (forall j, (j < length chunks)%nat ->
               accepted (http w (length (trace st) + j)) = true) ->
    exists bodies,
      Forall2 (fun j body =>
                 response_json (http w (length (trace st) + j)) = Some body)
              (seq 0 (length chunks)) bodies /\
      fst (send_text_loop w self chunks results st)
      = Ret (results ++ bodies) /\
      trace (snd (send_text_loop w self chunks results st))
      = trace st ++ text_posts self chunks /\
      log (snd (send_text_loop w self chunks results st)) = log st.
Proof.
  induction chunks as [|chunk rest IH]; intros results st Hok.
  - exists []. simpl. rewrite !app_nil_r. repeat split. constructor.
  - pose proof (Hok O ltac:(simpl; lia)) as H0. rewrite Nat.add_0_r in H0.
    destruct (accepted_inv _ H0) as [_ [_ [body Hb]]].
    rewrite (send_text_loop_cons_ok chunk rest results st body H0 Hb).
    match goal with
    | |- context [send_text_loop w self rest ?r ?s] =>
        destruct (IH r s) as [bodies [Hf [Ho [Ht Hl]]]]
    end.
    { intros j Hj. simpl. rewrite length_app. simpl.
      replace (length (trace st) + 1 + j)%nat
        with (length (trace st) + S j)%nat by lia.
      apply Hok. simpl. lia. }
    exists (body :: bodies). split; [|split; [|split]].
    + simpl. constructor; [now rewrite Nat.add_0_r|].
      rewrite <- seq_shift. apply Forall2_fmap_l.
      revert Hf. apply Forall2_impl.
      intros j b Hj. simpl in Hj. rewrite length_app in Hj. simpl in Hj.
      unfold compose.
      replace (length (trace st) + S j)%nat
        with (length (trace st) + 1 + j)%nat by lia.
      exact Hj.
    + etransitivity; [exact Ho|]. now rewrite <- app_assoc.
    + etransitivity; [exact Ht|]. simpl. now rewrite <- app_assoc.
    + exact Hl.
Qed.

(** X6. When every response is accepted (a 2xx status and a body that is
    JSON), [send_text] posts one request per chunk, in the order of the
    chunks, returns the decoded bodies of the responses in that order, and
    logs nothing. *)
Theorem send_text_receipts (text : str) (chunks : list str) (st : State) :
  _split_text text MAX_TEXT = Some chunks ->
  (forall j, (j < length chunks)%nat ->
             accepted (http w (length (trace st) + j)) = true) ->
  exists bodies,
    Forall2 (fun j body =>
               response_json (http w (length (trace st) + j)) = Some body)
            (seq 0 (length chunks)) bodies /\
    fst (send_text w self text st) = Ret bodies /\
    trace (snd (send_text w self text st))
    = trace st ++ text_posts self chunks /\
    log (snd (send_text w self text st)) = log st.
Proof.
  intros Hs Hok. unfold send_text. rewrite Hs.
  exact (send_text_loop_receipts chunks [] st Hok).
Qed.

End SenderMore.

Section SendMediaMore.

Variable w : World.
Variable self : WhatsAppSender.

(** X7. A caption within the limit is never cut: [send_media] makes one
    request and no other.  For an image, a video or a document the request
    carries the caption as given; without a caption, or with an empty one,
    the request carries none, whatever the media type. *)
Theorem send_media_short_caption (media_type media_id : str) (st : State) :
  (forall caption : str,
     In media_type caption_types ->
     truthy caption = true ->
     len caption <= MAX_CAPTION ->
     trace (snd (send_media w self media_type media_id (Some caption) st))
     = trace st ++ [Post (_messages_url self)
                         (MediaPayload (recipient self) media_type media_id
                                       (Some caption))]) /\
  (forall caption : option str,
     truthy_opt caption = false ->
     trace (snd (send_media w self media_type media_id caption st))
     = trace st ++ [Post (_messages_url self)
                         (MediaPayload (recipient self) media_type media_id
                                       None)]).
Proof.
  split.
  - intros caption Hin Htr Hlen. unfold send_media.
    unfold truthy_opt. rewrite Htr, (caption_types_accept _ Hin).
    change (default [] (Some caption)) with caption. simpl andb.
    destruct (Z.ltb_spec MAX_CAPTION (len caption)); [lia|].
    unfold bind, emit, raise, ret, raise_for_status, json. simpl.
    destruct (is_success (http w (length (trace st))));
      destruct (response_json (http w (length (trace st)))); reflexivity.
  - intros caption Hno. unfold send_media. rewrite Hno. simpl andb.
    unfold bind, emit, raise, ret, raise_for_status, json. simpl.
    destruct (is_success (http w (length (trace st))));
      destruct (response_json (http w (length (trace st)))); reflexivity.
Qed.

(** X8. When the response to the media request is an error, [send_media]
    raises at once: the media request is the only request made, so the part
    of a long caption that was to follow as text is never sent, and, unlike
    [send_text], nothing is logged. *)
Theorem send_media_failure_drops_overflow (media_type media_id : str)
  (caption : option str) (st : State) :
  is_error (http w (length (trace st))) = true ->
  fst (send_media w self media_type media_id caption st)
  = Raise HTTPStatusError /\
  (exists attached,
     trace (snd (send_media w self media_type media_id caption st))
     = trace st ++ [Post (_messages_url self)
                         (MediaPayload (recipient self) media_type media_id
                                       attached)]) /\
  log (snd (send_media w self media_type media_id caption st)) = log st.
Proof.
  intros Herr. apply is_error_not_success in Herr. unfold send_media.
  destruct (truthy_opt caption && existsb (str_eqb media_type) caption_types)%bool.
  - destruct (MAX_CAPTION <? len (default [] caption));
      unfold bind, emit, raise, ret, raise_for_status; simpl;
      rewrite Herr; simpl; repeat split; eexists; reflexivity.
  - unfold bind, emit, raise, ret, raise_for_status. simpl.
    rewrite Herr. simpl. repeat split. eexists. reflexivity.
Qed.

(** The first request of [send_media] for a caption that is too long. *)
Lemma send_media_long_first (media_type media_id caption : str)
  (st : State) :
  In media_type caption_types ->
  MAX_CAPTION < len caption ->
  exists more,
    trace (snd (send_media w self media_type media_id (Some caption) st))
    = trace st
      ++ Post (_messages_url self)
              (MediaPayload (recipient self) media_type media_id
                 (Some (slice_to caption (caption_cut caption))))
      :: more.
Proof.
  intros Hin Hlong. unfold send_media, truthy_opt.
  change (default [] (Some caption)) with caption.
  rewrite (len_pos_truthy caption) by (unfold MAX_CAPTION in Hlong; lia).
  rewrite (caption_types_accept _ Hin). simpl andb.
  destruct (Z.ltb_spec MAX_CAPTION (len caption)) as [_|Hs']; [|lia].
  fold (caption_cut caption).
  unfold bind at 1. unfold bind at 1. unfold bind at 1.
  unfold emit, ret, raise, raise_for_status, json. simpl.
  destruct (is_success (http w (length (trace st))));
    [|exists []; reflexivity].
  destruct (response_json (http w (length (trace st))));
    [|exists []; reflexivity].
  simpl.
  destruct (truthy (lstrip (slice_from caption (caption_cut caption)))).
  - unfold bind.
    match goal with
    | |- context [send_text w self ?t ?s] =>
        destruct (send_text_trace w self t s) as [chunks [k [_ [_ Ht]]]];
        destruct (send_text w self t s) as [[out|e|] s'] eqn:E
    end; simpl in *; rewrite Ht; simpl; rewrite <- app_assoc;
      eexists; reflexivity.
  - exists []. reflexivity.
Qed.

(** X9. A caption that is too long, sent with an image, a video or a
    document, is cut at its last space that lies strictly between its first
    character and the caption limit, and exactly at the limit when there is
    no such space; the caption of the media request is the part before the
    cut. *)
Theorem send_media_cuts_at_last_space (media_type media_id caption : str)
  (st : State) :
  In media_type caption_types ->
  MAX_CAPTION < len caption ->
  exists head more,
    trace (snd (send_media w self media_type media_id (Some caption) st))
    = trace st
      ++ Post (_messages_url self)
              (MediaPayload (recipient self) media_type media_id (Some head))
      :: more /\
    caption = head ++ slice_from caption (len head) /\
    ((exists i, 0 < i < MAX_CAPTION /\ char_at caption i = Some SP) ->
     0 < len head < MAX_CAPTION /\
     char_at caption (len head) = Some SP /\
     forall k, len head < k < MAX_CAPTION -> char_at caption k <> Some SP) /\
    ((forall i, 0 < i < MAX_CAPTION -> char_at caption i <> Some SP) ->
     len head = MAX_CAPTION).
Proof.
  intros Hin Hlong.
  destruct (send_media_long_first media_type media_id caption st Hin Hlong)
    as [more Ht].
  pose proof (caption_cut_range caption) as Hc.
  exists (slice_to caption (caption_cut caption)), more.
  rewrite len_slice_to by lia.
  split; [exact Ht|]. split; [apply slice_split|].
  assert (Hl : 0 < MAX_CAPTION) by reflexivity.
  unfold caption_cut in *.
  set (rs := rfind caption SP 0 MAX_CAPTION) in *.
  split.
  - intros [i [Hi Hci]].
    destruct (Z.leb_spec rs 0) as [Hle|Hgt].
    + exfalso. destruct (Z.eq_dec rs 0) as [E0|Hne].
      * destruct (rfind_found caption SP MAX_CAPTION rs Hl eq_refl
                    ltac:(lia)) as [_ [_ Hmax]].
        apply (Hmax i); [lia|exact Hci].
      * apply (rfind_not_found caption SP MAX_CAPTION Hl
                 ltac:(unfold rs in *; lia) i ltac:(lia)). exact Hci.
    + destruct (rfind_found caption SP MAX_CAPTION rs Hl eq_refl
                  ltac:(lia)) as [Hf [Hlt Hmax]].
      repeat split; try lia; assumption.
  - intros Hnone. destruct (Z.leb_spec rs 0) as [Hle|Hgt]; [reflexivity|].
    destruct (rfind_found caption SP MAX_CAPTION rs Hl eq_refl ltac:(lia))
      as [Hf [Hlt _]].
    exfalso. apply (Hnone rs); [lia|exact Hf].
Qed.

End SendMediaMore.

(** ** The content filter: what a verdict can be *)

Section FilterMore.

Variable w : World.
Variable config : LLMConfig.
Variable text : str.

Lemma evaluate_loop_prefix (rules : list FilterRule) :
  forall st,
    exists k,
      (k <= length rules)%nat /\
      trace (snd (evaluate_loop w config rules text st))
      = trace st ++ map (llm_event config text) (take k rules).
Proof.
  induction rules as [|rule rest IH]; intros st.
  - exists O. simpl. now rewrite app_nil_r.
  - destruct (run_filter_cases w config text (name rule) (prompt rule) st)
      as [result [st1 [Hrun [Htr _]]]].
    simpl. unfold bind at 1. rewrite Hrun. unfold bind at 1. simpl.
    destruct (is_skip (action result)).
    + exists 1%nat. simpl. split; [lia|exact Htr].
    + match goal with
      | |- context [evaluate_loop w config rest text ?s] =>
          destruct (IH s) as [k [Hk Ht]]
      end.
      exists (S k). split; [simpl; lia|].
      rewrite Ht. simpl. rewrite Htr, <- app_assoc. reflexivity.
Qed.

Lemma evaluate_prefix (st : State) :
  exists k,
    trace (snd (evaluate w config text st))
    = trace st ++ map (llm_event config text) (take k (filters config)).
Proof.
  unfold evaluate.
  destruct (negb (truthy text) || negb (truthy (strip text)))%bool.
  { exists O. simpl. now rewrite app_nil_r. }
  destruct (filters config) as [|rule rest] eqn:Ef.
  { exists O. simpl. now rewrite app_nil_r. }
  destruct (evaluate_loop_prefix (rule :: rest) st) as [k [_ H]].
  now exists k.
Qed.

(** X10. The calls [evaluate] makes to the LLM are those of the first rules
    of the configuration, in the configured order and without a gap, each
    with the configured model and the text under evaluation; there is at
    most one call per rule, and nothing else is recorded. *)
Theorem evaluate_calls_in_order (st : State) :
  exists k,
    (k <= length (filters config))%nat /\
    trace (snd (evaluate w config text st))
    = trace st ++ map (llm_event config text) (take k (filters config)).
Proof.
  unfold evaluate.
  destruct (negb (truthy text) || negb (truthy (strip text)))%bool.
  { exists O. simpl. rewrite app_nil_r. split; [lia|reflexivity]. }
  destruct (filters config) as [|rule rest] eqn:Ef.
  { exists O. simpl. rewrite app_nil_r. split; [lia|reflexivity]. }
  apply evaluate_loop_prefix.
Qed.

Lemma evaluate_loop_verdict (rules : list FilterRule) :
  forall st result st',
    evaluate_loop w config rules text st = (Ret result, st') ->
    match action result with
    | SKIP =>
        exists k rule decision,
          rules !! k = Some rule /\
          llm w (length (trace st) + k) = Some decision /\
          decision_action decision = SKIP /\
          result = {| action := SKIP; reason := decision_reason decision;
                      filter_name := name rule |} /\
          forall j, (j < k)%nat ->
                    rejects (llm w (length (trace st) + j)) = false
    | FORWARD =>
        result = {| action := FORWARD; reason := lit "Passed all filters";
                    filter_name := lit "all" |}
    end.
Proof.
  induction rules as [|rule rest IH]; intros st result st' Hrun.
  - simpl in Hrun. inversion Hrun; subst. reflexivity.
  - destruct (run_filter_cases w config text (name rule) (prompt rule) st)
      as [r1 [st1 [Hr1 [Htr [Hname Hout]]]]].
    simpl in Hrun. unfold bind at 1 in Hrun. rewrite Hr1 in Hrun.
    unfold bind at 1 in Hrun. simpl in Hrun.
    destruct (is_skip (action r1)) eqn:Hsk.
    + inversion Hrun; subst result st'. clear Hrun.
      destruct (action r1) eqn:Ea; [discriminate|].
      destruct (llm w (length (trace st))) as [decision|] eqn:El.
      * destruct Hout as [Had [Hre _]].
        exists O, rule, decision. rewrite Nat.add_0_r.
        split; [reflexivity|]. split; [exact El|].
        split; [congruence|]. split; [|intros j Hj; lia].
        now apply result_eta.
      * destruct Hout as [Had _]. congruence.
    + specialize (IH _ _ _ Hrun).
      assert (Hpass : rejects (llm w (length (trace st))) = false).
      { unfold rejects. destruct (llm w (length (trace st))) as [d|];
          [|reflexivity].
        destruct Hout as [Had _]. now rewrite <- Had. }
      destruct (action result); [exact IH|].
      destruct IH as [k [r [d [Hk [Hl [Hd [Hres Hbefore]]]]]]].
      simpl in Hl, Hbefore. rewrite Htr, length_app in Hl, Hbefore.
      simpl in Hl, Hbefore.
      exists (S k), r, d. split; [exact Hk|].
      split; [now replace (length (trace st) + S k)%nat
                with (length (trace st) + 1 + k)%nat by lia|].
      split; [exact Hd|]. split; [exact Hres|].
      intros j Hj. destruct j as [|j].
      * now rewrite Nat.add_0_r.
      * replace (length (trace st) + S j)%nat
          with (length (trace st) + 1 + j)%nat by lia.
        apply Hbefore. lia.
Qed.

(** X11. A skip verdict always comes from the LLM: when [evaluate] returns
    one, the text is not blank, some configured rule was answered with skip
    by the LLM, every rule before it was not, and the verdict has that
    rule's name and the LLM's reason.  A failed call can therefore never
    cause a skip.  A forward verdict is one of the three sentinels: the
    forward verdicts of the individual rules, "Filter error" included, are
    never returned. *)
Theorem evaluate_verdict_origin (st : State) (result : FilterResult)
  (st' : State) :
  evaluate w config text st = (Ret result, st') ->
  match action result with
  | SKIP =>
      ~ blank text /\
      exists k rule decision,
        filters config !! k = Some rule /\
        llm w (length (trace st) + k) = Some decision /\
        decision_action decision = SKIP /\
        result = {| action := SKIP; reason := decision_reason decision;
                    filter_name := name rule |} /\
        forall j, (j < k)%nat ->
                  rejects (llm w (length (trace st) + j)) = false
  | FORWARD =>
      result = {| action := FORWARD; reason := lit "No text to analyze";
                  filter_name := lit "none" |} \/
      result = {| action := FORWARD; reason := lit "No filters configured";
                  filter_name := lit "none" |} \/
      result = {| action := FORWARD; reason := lit "Passed all filters";
                  filter_name := lit "all" |}
  end.
Proof.
  unfold evaluate. intros Hrun.
  destruct (negb (truthy text) || negb (truthy (strip text)))%bool eqn:Eb.
  { inversion Hrun; subst. simpl. now left. }
  destruct (filters config) as [|rule rest] eqn:Ef.
  { inversion Hrun; subst. simpl. right. now left. }
  pose proof (evaluate_loop_verdict _ _ _ _ Hrun) as H.
  destruct (action result).
  - right. right. exact H.
  - split; [|exact H].
    intros Hb. apply blank_test in Hb. congruence.
Qed.

End FilterMore.

(** ** Media classification: category and MIME type *)

Lemma fold_flags (attrs : list DocumentAttribute) :
  forall f,
    let g := fold_left detect_attr attrs f in
    is_sticker g = (is_sticker f || existsb is_sticker_attr attrs)%bool /\
    is_voice g = (is_voice f || existsb is_voice_attr attrs)%bool /\
    is_audio g = (is_audio f || existsb is_audio_attr attrs)%bool /\
    (is_video g || is_gif g
     = is_video f || is_gif f || existsb is_video_attr attrs)%bool.
Proof.
  induction attrs as [|a attrs IH]; intros f; simpl.
  - rewrite !orb_false_r. repeat split.
  - destruct (IH (detect_attr f a)) as [H1 [H2 [H3 H4]]].
    rewrite H1, H2, H3, H4.
    destruct a as [n|[|]|[|]| | |]; simpl;
      destruct (is_sticker f), (is_voice f), (is_audio f), (is_video f),
               (is_gif f); simpl; repeat split;
      try reflexivity; try (now rewrite ?orb_true_r).
Qed.

(** Category and MIME type of a document, from the kinds of attributes it
    has. *)
Lemma detect_media_kind (message : Message) (doc : Document) :
  photo message = false ->
  document message = Some doc ->
  kind_of (_detect_media message)
  = Some (if existsb is_sticker_attr (attributes doc)
          then (lit "sticker", declared_mime doc)
          else if existsb is_voice_attr (attributes doc)
          then (lit "audio", lit "audio/ogg")
          else if existsb is_audio_attr (attributes doc)
          then (lit "audio", declared_mime doc)
          else if existsb is_video_attr (attributes doc)
          then (lit "video", declared_mime doc)
          else (lit "document", declared_mime doc)).
Proof.
  intros Hp Hd. unfold _detect_media. rewrite Hp, Hd.
  fold (declared_mime doc).
  match goal with
  | |- context [fold_left detect_attr (attributes doc) ?f0] =>
      destruct (fold_flags (attributes doc) f0) as [H1 [H2 [H3 H4]]];
      destruct (fold_left detect_attr (attributes doc) f0)
        as [fn v vi au stk gif]
  end.
  simpl in *. subst stk v au. rewrite H4.
  destruct (existsb is_sticker_attr (attributes doc)); [reflexivity|].
  destruct (existsb is_voice_attr (attributes doc)); [reflexivity|].
  destruct (existsb is_audio_attr (attributes doc)); [reflexivity|].
  destruct (existsb is_video_attr (attributes doc)); reflexivity.
Qed.

Lemma existsb_in (p : DocumentAttribute -> bool)
  (attrs : list DocumentAttribute) :
  existsb p attrs = true <-> exists a, In a attrs /\ p a = true.
Proof. apply existsb_exists. Qed.

Lemma existsb_none (p : DocumentAttribute -> bool)
  (attrs : list DocumentAttribute) :
  (forall a, In a attrs -> p a = false) -> existsb p attrs = false.
Proof.
  intros H. destruct (existsb p attrs) eqn:E; [|reflexivity].
  apply existsb_in in E as [a [Ha Hp]]. rewrite (H a Ha) in Hp. discriminate.
Qed.

(** X12. The category of a document is decided by which kinds of attributes
    it has, by priority and wherever they stand in the list: a sticker
    attribute makes it a sticker; failing that, a voice-flagged audio
    attribute makes it audio with the MIME type forced to "audio/ogg";
    failing that, any audio attribute makes it audio; failing that, a video
    or an animated attribute makes it a video; otherwise it is a document.
    Except for voice, the MIME type is the declared one, or
    "application/octet-stream" when none is declared. *)
Theorem detect_media_priority (message : Message) (doc : Document) :
  photo message = false ->
  document message = Some doc ->
  let attrs := attributes doc in
  let kind := kind_of (_detect_media message) in
  (In DocumentAttributeSticker attrs ->
   kind = Some (lit "sticker", declared_mime doc)) /\
  (~ In DocumentAttributeSticker attrs ->
   In (DocumentAttributeAudio true) attrs ->
   kind = Some (lit "audio", lit "audio/ogg")) /\
  (~ In DocumentAttributeSticker attrs ->
   ~ In (DocumentAttributeAudio true) attrs ->
   In (DocumentAttributeAudio false) attrs ->
   kind = Some (lit "audio", declared_mime doc)) /\
  (~ In DocumentAttributeSticker attrs ->
   (forall v, ~ In (DocumentAttributeAudio v) attrs) ->
   (In DocumentAttributeAnimated attrs \/
    exists r, In (DocumentAttributeVideo r) attrs) ->
   kind = Some (lit "video", declared_mime doc)) /\
  (~ In DocumentAttributeSticker attrs ->
   (forall v, ~ In (DocumentAttributeAudio v) attrs) ->
   ~ In DocumentAttributeAnimated attrs ->
   (forall r, ~ In (DocumentAttributeVideo r) attrs) ->
   kind = Some (lit "document", declared_mime doc)).
Proof.
  intros Hp Hd attrs kind. unfold kind.
  rewrite (detect_media_kind message doc Hp Hd). fold attrs.
  assert (Hst : ~ In DocumentAttributeSticker attrs ->
                existsb is_sticker_attr attrs = false).
  { intros Hn. apply existsb_none. intros a Ha.
    destruct a; try reflexivity. contradiction. }
  assert (Hvo : ~ In (DocumentAttributeAudio true) attrs ->
                existsb is_voice_attr attrs = false).
  { intros Hn. apply existsb_none. intros a Ha.
    destruct a as [n|r|[|]| | |]; try reflexivity. contradiction. }
  assert (Hau : (forall v, ~ In (DocumentAttributeAudio v) attrs) ->
                existsb is_audio_attr attrs = false).
  { intros Hn. apply existsb_none. intros a Ha.
    destruct a as [n|r|v| | |]; try reflexivity. now apply Hn in Ha. }
  repeat split.
  - intros Hin.
    assert (existsb is_sticker_attr attrs = true) as ->; [|reflexivity].
    apply existsb_in. now exists DocumentAttributeSticker.
  - intros Hns Hin. rewrite (Hst Hns).
    assert (existsb is_voice_attr attrs = true) as ->; [|reflexivity].
    apply existsb_in. now exists (DocumentAttributeAudio true).
  - intros Hns Hnv Hin. rewrite (Hst Hns), (Hvo Hnv).
    assert (existsb is_audio_attr attrs = true) as ->; [|reflexivity].
    apply existsb_in. now exists (DocumentAttributeAudio false).
  - intros Hns Hna Hin. rewrite (Hst Hns), (Hvo (Hna true)), (Hau Hna).
    assert (existsb is_video_attr attrs = true) as ->; [|reflexivity].
    apply existsb_in. destruct Hin as [Hin|[r Hin]].
    + now exists DocumentAttributeAnimated.
    + now exists (DocumentAttributeVideo r).
  - intros Hns Hna Hng Hnv.
    rewrite (Hst Hns), (Hvo (Hna true)), (Hau Hna).
    assert (existsb is_video_attr attrs = false) as ->; [|reflexivity].
    apply existsb_none. intros a Ha.
    destruct a as [n|r|v| | |]; try reflexivity.
    + now apply Hnv in Ha.
    + contradiction.
Qed.

Lemma existsb_perm (p : DocumentAttribute -> bool)
  (l1 l2 : list DocumentAttribute) :
  l1 ≡ₚ l2 -> existsb p l1 = existsb p l2.
Proof.
  induction 1 as [|x l l' _ IH|x y l|l l' l'' _ IH1 _ IH2]; simpl.
  - reflexivity.
  - now rewrite IH.
  - destruct (p x), (p y); reflexivity.
  - congruence.
Qed.

(** X13. The category and the MIME type of a document do not depend on the
    order of its attributes: two documents with the same declared MIME type
    and the same attributes in different orders are classified alike (the
    filename may differ). *)
Theorem detect_media_kind_order_free (m1 m2 : Message) (d1 d2 : Document) :
  photo m1 = false -> photo m2 = false ->
  document m1 = Some d1 -> document m2 = Some d2 ->
  mime_type d1 = mime_type d2 ->
  attributes d1 ≡ₚ attributes d2 ->
  kind_of (_detect_media m1) = kind_of (_detect_media m2).
Proof.
  intros Hp1 Hp2 Hd1 Hd2 Hm Hperm.
  rewrite (detect_media_kind m1 d1 Hp1 Hd1), (detect_media_kind m2 d2 Hp2 Hd2).
  unfold declared_mime. rewrite Hm.
  now rewrite !(existsb_perm _ _ _ Hperm).
Qed.

(** X14. A photo is always classified as supported, and so is a voice
    message that is not a sticker, whatever MIME type its document
    declares: their download is always attempted. *)
Theorem photo_and_voice_supported (message : Message) :
  (photo message = true -> fetched message = true) /\
  (forall doc,
     photo message = false ->
     document message = Some doc ->
     ~ In DocumentAttributeSticker (attributes doc) ->
     In (DocumentAttributeAudio true) (attributes doc) ->
     fetched message = true).
Proof.
  split.
  - intros Hp. unfold fetched, _detect_media. rewrite Hp.
    vm_compute. reflexivity.
  - intros doc Hp Hd Hns Hv.
    pose proof (detect_media_kind message doc Hp Hd) as Hk.
    assert (existsb is_sticker_attr (attributes doc) = false) as Est.
    { apply existsb_none. intros a Ha.
      destruct a; try reflexivity. contradiction. }
    assert (existsb is_voice_attr (attributes doc) = true) as Evo.
    { apply existsb_in. now exists (DocumentAttributeAudio true). }
    rewrite Est, Evo in Hk.
    unfold fetched. destruct (_detect_media message) as [[[wa mime] fn]|];
      simpl in Hk; [|discriminate].
    inversion Hk; subst. vm_compute. reflexivity.
Qed.

(** X15. A message is classified as carrying no media exactly when it has
    neither a photo nor a document; otherwise the category is one of the
    five the sink knows and the MIME type is not empty. *)
Theorem detect_media_range (message : Message) :
  (_detect_media message = None <->
   photo message = false /\ document message = None) /\
  (forall wa_type mime fn,
     _detect_media message = Some (wa_type, mime, fn) ->
     In wa_type [lit "image"; lit "video"; lit "audio"; lit "document";
                 lit "sticker"] /\
     truthy mime = true).
Proof.
  assert (Hmime : forall doc, truthy (declared_mime doc) = true).
  { intros doc. unfold declared_mime.
    destruct (mime_type doc) as [s|]; simpl; [|reflexivity].
    destruct (truthy s) eqn:E; [exact E|reflexivity]. }
  destruct (photo message) eqn:Hp.
  - unfold _detect_media. rewrite Hp. split.
    + split; [discriminate|]. intros [H _]. discriminate.
    + intros wa mime fn H. inversion H; subst. split; [now left|reflexivity].
  - destruct (document message) as [doc|] eqn:Hd.
    + pose proof (detect_media_kind message doc Hp Hd) as Hk. split.
      * split; [|intros [_ H]; discriminate].
        intros H. rewrite H in Hk. discriminate.
      * intros wa mime fn H. rewrite H in Hk. simpl in Hk.
        specialize (Hmime doc).
        repeat match type of Hk with
               | context [if ?b then _ else _] => destruct b
               end; inversion Hk; subst; split;
          try exact Hmime; try reflexivity; simpl; tauto.
    + unfold _detect_media. rewrite Hp, Hd. split.
      * split; [now split|reflexivity].
      * discriminate.
Qed.

(** ** The router: what a delivery may record and how it may end *)

Lemma tame_ret (P : Event -> Prop) {A} (a : A) : tame P (ret a).
Proof.
  intros st. split; [|split; discriminate].
  exists []. simpl. rewrite app_nil_r. split; [reflexivity|constructor].
Qed.

Lemma tame_raise_http (P : Event -> Prop) {A} :
  tame P (@raise A HTTPStatusError).
Proof.
  intros st. split; [|split; discriminate].
  exists []. simpl. rewrite app_nil_r. split; [reflexivity|constructor].
Qed.

Lemma tame_emit (P : Event -> Prop) (e : Event) : P e -> tame P (emit e).
Proof.
  intros He st. split; [|split; discriminate].
  exists [e]. split; [reflexivity|repeat constructor; exact He].
Qed.

Lemma tame_logger (P : Event -> Prop) (lv : Level) (msg : str) :
  tame P (logger lv msg).
Proof.
  intros st. split; [|split; discriminate].
  exists []. simpl. rewrite app_nil_r. split; [reflexivity|constructor].
Qed.

Lemma tame_bind (P : Event -> Prop) {A B} (m : M A) (k : A -> M B) :
  tame P m -> (forall a, tame P (k a)) -> tame P (bind m k).
Proof.
  intros Hm Hk st. unfold bind.
  destruct (Hm st) as [[new [Hn Hf]] [Hd Hi]].
  destruct (m st) as [[a|e|] st1]; simpl in *.
  - destruct (Hk a st1) as [[new2 [Hn2 Hf2]] [Hd2 Hi2]].
    split; [|split; assumption].
    exists (new ++ new2). rewrite Hn2, Hn, <- app_assoc.
    split; [reflexivity|]. apply Forall_app. now split.
  - split; [exists new; now split|].
    split; [discriminate|]. intros E. apply Hi. now inversion E.
  - congruence.
Qed.

Lemma tame_if (P : Event -> Prop) {A} (b : bool) (m1 m2 : M A) :
  tame P m1 -> tame P m2 -> tame P (if b then m1 else m2).
Proof. destruct b; auto. Qed.

Ltac tame_tac :=
  repeat first
    [ apply tame_ret | apply tame_raise_http | apply tame_logger
    | apply tame_emit; intros []
    | apply tame_bind; [|intros ?]
    | apply tame_if
    | match goal with
      | |- tame _ (match ?x with _ => _ end) => destruct x
      end ].

Section RouterTame.

Variable w : World.

Lemma tame_sender_send_text (text : str) :
  tame not_llm_call (sender_send_text w text).
Proof. unfold sender_send_text. tame_tac. Qed.

Lemma tame_sender_upload_media (b : bytes) (mime fn : str) :
  tame not_llm_call (sender_upload_media w b mime fn).
Proof. unfold sender_upload_media. tame_tac. Qed.

Lemma tame_sender_send_media (ty id : str) (caption : option str) :
  tame not_llm_call (sender_send_media w ty id caption).
Proof. unfold sender_send_media. tame_tac. Qed.

Lemma tame_fetch (m : Message) : tame not_llm_call (fetch m).
Proof. unfold fetch. tame_tac. Qed.

Lemma tame_album_loop (ch caption : str) (msgs : list Message) :
  forall is_first, tame not_llm_call (album_loop w ch caption msgs is_first).
Proof.
  induction msgs as [|msg rest IH]; intros is_first; simpl.
  - apply tame_ret.
  - destruct (_detect_media msg) as [[[wa mime] fn]|]; [|apply IH].
    destruct (negb (supported mime)).
    + apply tame_bind; [apply tame_logger|intros _; apply IH].
    + apply tame_bind; [apply tame_fetch|]. intros [b|].
      * apply tame_bind; [apply tame_sender_upload_media|]. intros id.
        apply tame_bind; [apply tame_sender_send_media|]. intros _.
        apply tame_bind; [apply tame_logger|intros _; apply IH].
      * apply tame_bind; [apply tame_logger|intros _; apply IH].
Qed.

Lemma tame_deliver_single (ch : str) (m : Message) :
  tame not_llm_call (deliver_single w ch m).
Proof.
  unfold deliver_single.
  destruct (_detect_media m) as [[[wa mime] fn]|].
  - destruct (negb (supported mime)).
    + apply tame_bind; [apply tame_sender_send_text|].
      intros _. apply tame_logger.
    + apply tame_bind; [apply tame_fetch|]. intros [b|].
      * apply tame_bind; [apply tame_sender_upload_media|]. intros id.
        apply tame_bind; [apply tame_sender_send_media|]. intros _.
        apply tame_logger.
      * apply tame_bind; [apply tame_logger|]. intros _.
        apply tame_if; [apply tame_sender_send_text|apply tame_ret].
  - apply tame_if; [apply tame_ret|].
    apply tame_bind; [apply tame_sender_send_text|].
    intros _. apply tame_logger.
Qed.

Lemma tame_deliver_album (album : _PendingAlbum) (first : Message) :
  tame not_llm_call (deliver_album w album first).
Proof.
  unfold deliver_album.
  apply tame_bind; [apply tame_album_loop|]. intros is_first.
  apply tame_if; [|apply tame_ret].
  apply tame_bind; [apply tame_sender_send_text|].
  intros _. apply tame_logger.
Qed.

End RouterTame.

(** ** The router: the stages of a unit of work *)

Section RouterStages.

Variable w : World.
Variable self : MessageRouter.

Lemma evaluate_calls_about (config : LLMConfig) (text : str) (st : State) :
  exists result st' calls,
    evaluate w config text st = (Ret result, st') /\
    trace st' = trace st ++ calls /\
    Forall (llm_call_about text) calls /\
    router_of st' = router_of st.
Proof.
  destruct (evaluate_calls w config text st)
    as [result [st' [calls [He [Ht [_ Hr]]]]]].
  destruct (evaluate_prefix w config text st) as [k Hk].
  rewrite He in Hk. simpl in Hk. rewrite Ht in Hk.
  apply app_inv_head in Hk. subst calls.
  exists result, st'. eexists. split; [exact He|]. split; [exact Ht|].
  split; [|exact Hr].
  apply Forall_forall. intros e He'. apply in_map_iff in He'.
  destruct He' as [rule [<- _]]. unfold llm_event, llm_call_about. eauto.
Qed.

(** [_forward_single]: the filter stage, with what it records, then either
    the skip notice or the delivery. *)
Lemma forward_single_stages (ch : str) (m : Message) (st : State) :
  exists calls st1,
    Forall (llm_call_about (default [] (msg_text m))) calls /\
    trace st1 = trace st ++ calls /\
    router_of st1 = router_of st /\
    ((filter self = None \/ truthy_opt (msg_text m) = false) -> st1 = st) /\
    _forward_single w self ch m st
    = match verdict_on w self (msg_text m) st with
      | Some result =>
          if is_skip (action result) then
            sender_send_text w
              (skip_notice ch result
                 (_build_source_link (get_chat m) (msg_id m))) st1
          else deliver_single w ch m st1
      | None => deliver_single w ch m st1
      end.
Proof.
  unfold _forward_single, verdict_on.
  destruct (filter self) as [config|].
  2:{ exists [], st. rewrite app_nil_r. repeat split. constructor. }
  destruct (truthy_opt (msg_text m)).
  2:{ exists [], st. rewrite app_nil_r. repeat split. constructor. }
  destruct (evaluate_calls_about config (default [] (msg_text m)) st)
    as [result [st0 [calls [He [Ht [Hc Hr]]]]]].
  unfold bind at 1. rewrite He. simpl. unfold bind at 1. simpl.
  eexists calls, _. split; [exact Hc|].
  split; [|split; [|split]].
  4:{ destruct (is_skip (action result)); reflexivity. }
  - simpl. assumption.
  - simpl. assumption.
  - intros [H|H]; discriminate.
Qed.

(** The same for [_flush_album] of a pending album. *)
Lemma flush_album_stages (gid : Z) (album : _PendingAlbum) (first : Message)
  (rest : list Message) (st : State) :
  dict_get gid (_pending_albums st) = Some album ->
  album_messages album = first :: rest ->
  exists calls st1,
    Forall (llm_call_about (default [] (first_text (album_messages album))))
           calls /\
    trace st1 = trace st ++ calls /\
    ((filter self = None \/
      truthy_opt (first_text (album_messages album)) = false) ->
     calls = []) /\
    _flush_album w self gid st
    = match verdict_on w self (first_text (album_messages album)) st with
      | Some result =>
          if is_skip (action result) then
            (sender_send_text w
               (skip_notice (album_channel_name album) result
                  (_build_source_link (get_chat first) (msg_id first))) ;;
             logger INFO
               (fmt [lit "Skipped album (";
                     of_int (Z.of_nat (length (album_messages album)));
                     lit " items) from ["; album_channel_name album;
                     lit "]"])) st1
          else deliver_album w album first st1
      | None => deliver_album w album first st1
      end.
Proof.
  intros Hget Hmsgs. rewrite flush_album_eq, Hget.
  rewrite <- (verdict_on_set_pending w self _
                (dict_del gid (_pending_albums st)) st).
  set (st0 := set_pending (dict_del gid (_pending_albums st)) st).
  assert (Ht0 : trace st0 = trace st) by reflexivity.
  rewrite <- Ht0. clearbody st0.
  unfold process_album, verdict_on. rewrite Hmsgs.
  destruct (filter self) as [config|].
  2:{ exists [], st0. rewrite app_nil_r. repeat split. constructor. }
  destruct (truthy_opt (first_text (first :: rest))).
  2:{ exists [], st0. rewrite app_nil_r. repeat split. constructor. }
  destruct (evaluate_calls_about config
              (default [] (first_text (first :: rest))) st0)
    as [result [st1 [calls [He [Ht [Hc Hr]]]]]].
  unfold bind at 1. rewrite He. simpl. unfold bind at 1. simpl.
  eexists calls, _. split; [exact Hc|].
  split; [|split].
  3:{ destruct (is_skip (action result)); reflexivity. }
  - simpl. assumption.
  - intros [H|H]; discriminate.
Qed.

(** X16. The filter always runs before anything is fetched or sent: what a
    single message, or the flush of a pending album, records is first the
    calls to the LLM, all of them about the text of the unit, and then
    downloads and calls to the sink only.  Without a filter, or without
    text, the LLM is not called at all. *)
Theorem filter_runs_first :
  (forall (ch : str) (m : Message) (st : State),
     exists calls rest,
       trace (snd (_forward_single w self ch m st))
       = trace st ++ calls ++ rest /\
       Forall (llm_call_about (default [] (msg_text m))) calls /\
       Forall not_llm_call rest /\
       ((filter self = None \/ truthy_opt (msg_text m) = false) ->
        calls = [])) /\
  (forall (gid : Z) (album : _PendingAlbum) (first : Message)
          (others : list Message) (st : State),
     dict_get gid (_pending_albums st) = Some album ->
     album_messages album = first :: others ->
     exists calls rest,
       trace (snd (_flush_album w self gid st))
       = trace st ++ calls ++ rest /\
       Forall (llm_call_about
                 (default [] (first_text (album_messages album)))) calls /\
       Forall not_llm_call rest /\
       ((filter self = None \/
         truthy_opt (first_text (album_messages album)) = false) ->
        calls = [])).
Proof.
  split.
  - intros ch m st.
    destruct (forward_single_stages ch m st)
      as [calls [st1 [Hc [Ht [_ [Hno Hrun]]]]]].
    assert (Hrest : exists rest,
               trace (snd (_forward_single w self ch m st))
               = trace st1 ++ rest /\ Forall not_llm_call rest).
    { rewrite Hrun.
      destruct (verdict_on w self (msg_text m) st) as [result|];
        [destruct (is_skip (action result))|].
      - apply (tame_sender_send_text w _ st1).
      - apply (tame_deliver_single w ch m st1).
      - apply (tame_deliver_single w ch m st1). }
    destruct Hrest as [rest [Hr Hf]].
    exists calls, rest. rewrite Hr, Ht, <- app_assoc.
    split; [reflexivity|]. split; [exact Hc|]. split; [exact Hf|].
    intros H. specialize (Hno H). subst st1.
    apply (app_inv_head (trace st)). now rewrite app_nil_r.
  - intros gid album first others st Hget Hmsgs.
    destruct (flush_album_stages gid album first others st Hget Hmsgs)
      as [calls [st1 [Hc [Ht [Hno Hrun]]]]].
    assert (Hrest : exists rest,
               trace (snd (_flush_album w self gid st))
               = trace st1 ++ rest /\ Forall not_llm_call rest).
    { rewrite Hrun.
      destruct (verdict_on w self (first_text (album_messages album)) st)
        as [result|]; [destruct (is_skip (action result))|].
      - refine (proj1 (tame_bind not_llm_call _ _ _ _ st1)).
        + apply tame_sender_send_text.
        + intros _. apply tame_logger.
      - apply (tame_deliver_album w album first st1).
      - apply (tame_deliver_album w album first st1). }
    destruct Hrest as [rest [Hr Hf]].
    exists calls, rest. rewrite Hr, Ht, <- app_assoc.
    split; [reflexivity|]. split; [exact Hc|]. split; [exact Hf|exact Hno].
Qed.

End RouterStages.

(** ** The router: the paths of a single message *)

Lemma format_text_contents (w : World) (ch : str) (ts : Z) (text : str)
  (chat : Chat) (id : Z) :
  let body := _format_text w ch ts text (_build_source_link chat id) in
  contains ch body /\
  contains (strftime_local w ts) body /\
  contains text body /\
  (forall url, _build_source_link chat id = Some url -> contains url body).
Proof.
  intros body. unfold body, _format_text.
  destruct (format_header_contents w ch ts chat id) as [H1 [H2 H3]].
  assert (Hh : forall x header, contains x header ->
                                contains x (fmt [header; [NL; NL]; text])).
  { intros x header [a [b ->]]. unfold fmt. simpl.
    exists a, (b ++ [NL; NL] ++ text ++ []). now rewrite <- !app_assoc. }
  repeat split; auto. apply contains_fmt. simpl. tauto.
Qed.

Section SinglePaths.

Variable w : World.
Variable self : MessageRouter.

(** X17. A single message without media that the filter lets through goes
    out as one [send_text] whose text contains the channel name, the
    formatted time, the text of the message and, when the chat has a
    username, the link to it; a message with neither media nor text changes
    nothing at all: no call, no log record. *)
Theorem text_only_message (ch : str) (m : Message) (st : State) :
  skipped w self (msg_text m) st = false ->
  _detect_media m = None ->
  let link := _build_source_link (get_chat m) (msg_id m) in
  let body := _format_text w ch (msg_date m) (default [] (msg_text m)) link in
  (truthy_opt (msg_text m) = true ->
   exists calls,
     Forall (llm_call_about (default [] (msg_text m))) calls /\
     trace (snd (_forward_single w self ch m st))
     = trace st ++ calls ++ [SendText body] /\
     contains ch body /\ contains (strftime_local w (msg_date m)) body /\
     contains (default [] (msg_text m)) body /\
     (forall url, link = Some url -> contains url body)) /\
  (truthy_opt (msg_text m) = false ->
   _forward_single w self ch m st = (Ret tt, st)).
Proof.
  intros Hns Hd link body.
  destruct (forward_single_stages w self ch m st)
    as [calls [st1 [Hc [Ht [_ [Hno Hrun]]]]]].
  rewrite (not_skipped_gate w self _ _ _ _ Hns) in Hrun.
  split.
  - intros Htxt. exists calls. split; [exact Hc|].
    destruct (format_text_contents w ch (msg_date m)
                (default [] (msg_text m)) (get_chat m) (msg_id m))
      as [H1 [H2 [H3 H4]]].
    split; [|repeat split; assumption].
    rewrite Hrun. unfold deliver_single. rewrite Hd, Htxt. simpl negb.
    cbv iota. unfold sender_send_text, bind, emit, logger, ret, raise. simpl.
    destruct (sink_raises w (length (trace st1))); simpl;
      rewrite Ht, <- app_assoc; reflexivity.
  - intros Htxt. rewrite Hrun, (Hno (or_intror Htxt)).
    unfold deliver_single. rewrite Hd, Htxt. reflexivity.
Qed.

(** X18. A single message the filter lets through whose media has a MIME
    type the sink does not support is answered by one [send_text] notice
    that contains the channel name, the MIME type and, when the chat has a
    username, the link; the media is not downloaded and nothing else is
    sent. *)
Theorem unsupported_media_notice (ch : str) (m : Message) (st : State)
  (wa mime fn : str) :
  skipped w self (msg_text m) st = false ->
  _detect_media m = Some (wa, mime, fn) ->
  supported mime = false ->
  let link := _build_source_link (get_chat m) (msg_id m) in
  exists calls notice,
    Forall (llm_call_about (default [] (msg_text m))) calls /\
    trace (snd (_forward_single w self ch m st))
    = trace st ++ calls ++ [SendText notice] /\
    contains ch notice /\ contains mime notice /\
    contains (lit "Unsupported media") notice /\
    (forall url, link = Some url -> contains url notice).
Proof.
  intros Hns Hd Hs link.
  destruct (forward_single_stages w self ch m st)
    as [calls [st1 [Hc [Ht [_ [_ Hrun]]]]]].
  rewrite (not_skipped_gate w self _ _ _ _ Hns) in Hrun.
  set (base := fmt [lit "["; ch; lit "] Unsupported media (";
                    mime; [41; 32; 226; 8364; 8221; 32]%N;
                    lit "view on Telegram"]).
  set (notice := if truthy_opt link
                 then base ++ fmt [[NL]; default [] link] else base).
  exists calls, notice. split; [exact Hc|]. split.
  { rewrite Hrun. unfold deliver_single. rewrite Hd, Hs. simpl negb.
    cbv iota. fold link. fold base. fold notice.
    unfold sender_send_text, bind, emit, logger, ret, raise. simpl.
    destruct (sink_raises w (length (trace st1))); simpl;
      rewrite Ht, <- app_assoc; reflexivity. }
  assert (Hb : forall x, In x [ch; mime] -> contains x base).
  { intros x Hx. apply contains_fmt. simpl in *. tauto. }
  assert (Hu : contains (lit "Unsupported media") base).
  { unfold base, fmt. simpl.
    exists (lit "[" ++ ch ++ lit "] "),
           (lit " (" ++ mime ++ [41; 32; 226; 8364; 8221; 32]%N
            ++ lit "view on Telegram" ++ []).
    rewrite <- !app_assoc. reflexivity. }
  unfold notice. destruct link as [url|] eqn:El.
  - rewrite (source_link_truthy _ _ _ El : truthy_opt (Some url) = true).
    repeat split; try (apply contains_app_l; auto; apply Hb; simpl; tauto).
    intros url' E. inversion E; subst url'. apply contains_app_r.
    apply contains_fmt. simpl. tauto.
  - simpl. repeat split; auto; try (apply Hb; simpl; tauto). discriminate.
Qed.


End SinglePaths.

(** ** The pending albums: what they hold in every reachable state *)

Lemma dict_get_In (k : Z) (v : _PendingAlbum) (d : dict) :
  dict_get k d = Some v -> In (k, v) d.
Proof.
  induction d as [|[k' v'] d IH]; simpl; [discriminate|].
  destruct (Z.eqb_spec k k').
  - intros E. inversion E; subst. now left.
  - intros E. right. now apply IH.
Qed.

Lemma dict_set_In (k g : Z) (v a : _PendingAlbum) (d : dict) :
  NoDup (dict_keys d) ->
  In (g, a) (dict_set k v d) ->
  (g, a) = (k, v) \/ (g <> k /\ In (g, a) d).
Proof.
  unfold dict_keys. induction d as [|[k' v'] d IH]; simpl; intros Hnd Hin.
  - destruct Hin as [E|[]]. left. now symmetry.
  - apply list.NoDup_cons in Hnd as [Hnot Hnd'].
    destruct (Z.eqb_spec k k') as [->|Hne]; simpl in Hin.
    + destruct Hin as [E|Hin]; [left; now symmetry|].
      right. split; [|now right].
      intros ->. apply Hnot. apply list_elem_of_In.
      apply in_map_iff. now exists (k', a).
    + destruct Hin as [E|Hin].
      * inversion E; subst. right. split; [congruence|now left].
      * destruct (IH Hnd' Hin) as [E|[Hg Hi]]; [now left|].
        right. split; [exact Hg|now right].
Qed.

Lemma dict_del_In (k g : Z) (a : _PendingAlbum) (d : dict) :
  NoDup (dict_keys d) ->
  In (g, a) (dict_del k d) -> g <> k /\ In (g, a) d.
Proof.
  unfold dict_keys. induction d as [|[k' v'] d IH]; simpl; intros Hnd Hin;
    [contradiction|].
  apply list.NoDup_cons in Hnd as [Hnot Hnd'].
  destruct (Z.eqb_spec k k') as [->|Hne]; simpl in Hin.
  - split; [|now right]. intros ->. apply Hnot. apply list_elem_of_In.
    apply in_map_iff. now exists (k', a).
  - destruct Hin as [E|Hin].
    + inversion E; subst. split; [congruence|now left].
    + destruct (IH Hnd' Hin) as [Hg Hi]. split; [exact Hg|now right].
Qed.

Section RouterInvariants.

Variable w : World.
Variable self : MessageRouter.

Lemma tame_forward_single (ch : str) (m : Message) :
  tame (fun _ => True) (_forward_single w self ch m).
Proof.
  intros st.
  destruct (forward_single_stages w self ch m st)
    as [calls [st1 [_ [Ht [_ [_ Hrun]]]]]].
  assert (Hrest : (exists rest,
                      trace (snd (_forward_single w self ch m st))
                      = trace st1 ++ rest /\ Forall not_llm_call rest) /\
                   fst (_forward_single w self ch m st) <> Diverge /\
                   fst (_forward_single w self ch m st) <> Raise IndexError).
  { rewrite Hrun.
    destruct (verdict_on w self (msg_text m) st) as [result|];
      [destruct (is_skip (action result))|].
    - apply (tame_sender_send_text w _ st1).
    - apply (tame_deliver_single w ch m st1).
    - apply (tame_deliver_single w ch m st1). }
  destruct Hrest as [[rest [Hr _]] Ho]. split; [|exact Ho].
  exists (calls ++ rest). rewrite Hr, Ht, <- app_assoc.
  split; [reflexivity|]. apply Forall_forall. auto.
Qed.

(** The flush of a key whose album, if any, has a first message. *)
Lemma flush_album_sound (gid : Z) (st : State) :
  (forall album, dict_get gid (_pending_albums st) = Some album ->
                 album_messages album <> []) ->
  sound_outcome (fst (_flush_album w self gid st)).
Proof.
  intros Hne.
  destruct (dict_get gid (_pending_albums st)) as [album|] eqn:Hget.
  - specialize (Hne album eq_refl).
    destruct (album_messages album) as [|first others] eqn:Hm; [congruence|].
    destruct (flush_album_stages w self gid album first others st Hget Hm)
      as [calls [st1 [_ [_ [_ Hrun]]]]].
    rewrite Hrun. unfold sound_outcome.
    destruct (verdict_on w self (first_text (album_messages album)) st)
      as [result|]; [destruct (is_skip (action result))|].
    + refine (proj2 (tame_bind not_llm_call _ _ _ _ st1)).
      * apply tame_sender_send_text.
      * intros _. apply tame_logger.
    + apply (tame_deliver_album w album first st1).
    + apply (tame_deliver_album w album first st1).
  - rewrite flush_album_eq, Hget. split; discriminate.
Qed.

Lemma exec_well_formed (s : Step) (st : State) :
  keys_unique st -> albums_well_formed st ->
  albums_well_formed (exec w self s st).
Proof.
  intros Hnd Hwf. destruct s as [ch m|h| |]; unfold exec.
  - destruct (grouped_id m) as [gid|] eqn:Eg.
    + destruct (Z.eq_dec gid 0) as [E0|Hne].
      * unfold forward. rewrite Eg. subst gid.
        change (0 =? 0) with true. cbv iota.
        unfold albums_well_formed.
        now rewrite (quiet_pending _ _ (quiet_forward_single w self ch m)).
      * destruct (forward_album w self ch m gid st Eg Hne) as [_ [Hp _]].
        unfold albums_well_formed. rewrite Hp. intros g a Hin.
        apply dict_set_In in Hin; [|exact Hnd].
        destruct Hin as [E|[_ Hin]]; [|now apply Hwf].
        inversion E; subst g a. split; [exact Hne|].
        destruct (dict_get gid (_pending_albums st)) as [old|] eqn:Hget;
          simpl.
        -- destruct (Hwf gid old (dict_get_In _ _ _ Hget)) as [_ [_ Hall]].
           split; [now destruct (album_messages old)|].
           apply Forall_app. split; [exact Hall|]. now repeat constructor.
        -- split; [discriminate|]. now repeat constructor.
    + unfold forward. rewrite Eg. unfold albums_well_formed.
      now rewrite (quiet_pending _ _ (quiet_forward_single w self ch m)).
  - unfold loop_fire.
    destruct (find _ (loop_timers st)) as [[h' gid]|]; exact Hwf.
  - unfold loop_run_task. destruct (loop_tasks st) as [|gid rest];
      [exact Hwf|].
    unfold albums_well_formed. rewrite flush_album_pending. simpl.
    intros g a Hin. apply dict_del_In in Hin; [|exact Hnd].
    now apply Hwf.
  - unfold flush_pending.
    refine (proj2 (for_each_keeps
                     (fun st => keys_unique st /\ albums_well_formed st)
                     (flush_one w self) _ _ st (conj Hnd Hwf))).
    intros gid st0 [Hnd0 Hwf0]. unfold keys_unique, albums_well_formed.
    rewrite flush_one_pending. split; [now apply dict_del_nodup|].
    intros g a Hin. apply dict_del_In in Hin; [|exact Hnd0].
    now apply Hwf0.
Qed.

Lemma run_well_formed (steps : list Step) :
  forall st,
    keys_unique st -> albums_well_formed st ->
    albums_well_formed (run w self steps st).
Proof.
  induction steps as [|s steps IH]; intros st Hnd Hwf; simpl; [exact Hwf|].
  apply IH; [now apply exec_keys_unique|now apply exec_well_formed].
Qed.

Lemma flush_one_sound (gid : Z) (st : State) :
  albums_well_formed st ->
  sound_outcome (fst (flush_one w self gid st)).
Proof.
  intros Hwf. unfold flush_one, bind, cancel_timer_at.
  assert (Hs : forall st0, _pending_albums st0 = _pending_albums st ->
                           sound_outcome (fst (_flush_album w self gid st0))).
  { intros st0 E. apply flush_album_sound. rewrite E. intros album Hget.
    now destruct (Hwf gid album (dict_get_In _ _ _ Hget)) as [_ [H _]]. }
  destruct (dict_get gid (_pending_albums st)) as [album|];
    [destruct (album_timer album)|]; simpl; now apply Hs.
Qed.

Lemma for_each_flush_sound (gids : list Z) :
  forall st,
    keys_unique st -> albums_well_formed st ->
    sound_outcome (fst (for_each gids (flush_one w self) st)).
Proof.
  induction gids as [|gid gids IH]; intros st Hnd Hwf.
  - split; discriminate.
  - rewrite for_each_cons.
    pose proof (flush_one_sound gid st Hwf) as [Hd Hi].
    pose proof (flush_one_pending w self gid st) as Hp.
    destruct (flush_one w self gid st) as [[[]|e|] st1]; simpl in *.
    + apply IH.
      * unfold keys_unique. rewrite Hp. now apply dict_del_nodup.
      * unfold albums_well_formed. rewrite Hp. intros g a Hin.
        apply dict_del_In in Hin; [|exact Hnd]. now apply Hwf.
    + split; [discriminate|exact Hi].
    + congruence.
Qed.

(** X20. In every state the router can reach, each pending album has a
    non-zero key and at least one message, and all its messages carry the
    album's key as their group id.  So no step of the router ever fails on
    an empty album: an arrival, the flush of any key and [flush_pending]
    either return or raise the sink's error, never [IndexError], and they
    always come to an end. *)
Theorem pending_albums_well_formed (steps : list Step) :
  let st := run w self steps initial in
  albums_well_formed st /\
  (forall ch m, sound_outcome (fst (forward w self ch m st))) /\
  (forall gid, sound_outcome (fst (_flush_album w self gid st))) /\
  sound_outcome (fst (flush_pending w self st)).
Proof.
  intros st.
  assert (Hnd : keys_unique st).
  { apply run_keys_unique. apply list.NoDup_nil. constructor. }
  assert (Hwf : albums_well_formed st).
  { apply run_well_formed; [apply list.NoDup_nil; constructor|].
    intros gid album []. }
  split; [exact Hwf|]. split; [|split].
  - intros ch m. unfold forward.
    destruct (grouped_id m) as [gid|] eqn:Eg;
      [|apply (tame_forward_single ch m st)].
    destruct (Z.eqb_spec gid 0) as [E0|Hne];
      [apply (tame_forward_single ch m st)|].
    destruct (forward_album w self ch m gid st Eg Hne) as [Hret _].
    unfold forward in Hret. rewrite Eg in Hret.
    destruct (Z.eqb_spec gid 0); [contradiction|].
    rewrite Hret. split; discriminate.
  - intros gid. apply flush_album_sound. intros album Hget.
    now destruct (Hwf gid album (dict_get_In _ _ _ Hget)) as [_ [H _]].
  - unfold flush_pending. now apply for_each_flush_sound.
Qed.

End RouterInvariants.

(** ** The pending albums and their timers *)

Section RouterTimers.

Variable w : World.
Variable self : MessageRouter.

Lemma quiet_loop {A} (m : M A) (st : State) :
  quiet m ->
  loop_timers (snd (m st)) = loop_timers st /\
  loop_next (snd (m st)) = loop_next st /\
  loop_tasks (snd (m st)) = loop_tasks st.
Proof.
  intros Hq. destruct (Hq st) as [Hr _]. unfold router_of in Hr.
  inversion Hr. repeat split; assumption.
Qed.

(** What buffering a message does to the event loop: the timer the album
    had is cancelled and a new one, with a fresh handle, is scheduled. *)
Lemma forward_album_loop (ch : str) (m : Message) (gid : Z) (st : State) :
  grouped_id m = Some gid ->
  gid <> 0 ->
  loop_timers (snd (forward w self ch m st))
  = cancel_timer_of (dict_get gid (_pending_albums st)) (loop_timers st)
    ++ [(loop_next st, gid)] /\
  loop_next (snd (forward w self ch m st)) = S (loop_next st) /\
  loop_tasks (snd (forward w self ch m st)) = loop_tasks st.
Proof.
  intros Hg Hne. unfold forward. rewrite Hg.
  destruct (Z.eqb_spec gid 0); [contradiction|].
  unfold bind, call_later, timer_cancel, ret, cancel_timer_of.
  destruct (dict_get gid (_pending_albums st)) as [album|] eqn:Eg; simpl.
  - destruct (album_timer album); simpl; repeat split; reflexivity.
  - repeat split; reflexivity.
Qed.

Lemma flush_album_loop (gid : Z) (st : State) :
  loop_timers (snd (_flush_album w self gid st)) = loop_timers st /\
  loop_next (snd (_flush_album w self gid st)) = loop_next st /\
  loop_tasks (snd (_flush_album w self gid st)) = loop_tasks st.
Proof.
  rewrite !flush_album_eq.
  destruct (dict_get gid (_pending_albums st)) as [album|].
  - destruct (quiet_loop _ (set_pending (dict_del gid (_pending_albums st))
                                         st)
                (quiet_process_album w self album)) as [H1 [H2 H3]].
    rewrite H1, H2, H3. repeat split; reflexivity.
  - repeat split; reflexivity.
Qed.

Lemma flush_one_loop (gid : Z) (st : State) :
  loop_timers (snd (flush_one w self gid st))
  = cancel_timer_of (dict_get gid (_pending_albums st)) (loop_timers st) /\
  loop_next (snd (flush_one w self gid st)) = loop_next st /\
  loop_tasks (snd (flush_one w self gid st)) = loop_tasks st.
Proof.
  unfold flush_one, bind, cancel_timer_at, cancel_timer_of, timer_cancel.
  destruct (dict_get gid (_pending_albums st)) as [album|];
    [destruct (album_timer album)|]; simpl;
    match goal with
    | |- context [_flush_album w self gid ?s] =>
        destruct (flush_album_loop gid s) as [H1 [H2 H3]]
    end; rewrite H1, H2, H3; repeat split; reflexivity.
Qed.

Lemma cancel_timer_of_In (o : option _PendingAlbum)
  (timers : list (nat * Z)) (x : nat * Z) :
  In x (cancel_timer_of o timers) -> In x timers.
Proof.
  unfold cancel_timer_of. destruct o as [album|]; [|auto].
  destruct (album_timer album); [|auto].
  intros H. now apply filter_In in H.
Qed.

(** Cancelling the timer of one album leaves the timer of another album
    scheduled. *)
Lemma cancel_keeps_other (st : State) (gid0 gid : Z) (album : _PendingAlbum)
  (h : nat) :
  albums_timed st ->
  gid <> gid0 ->
  (forall g, In (h, g) (loop_timers st) -> g = gid) ->
  In (h, gid) (loop_timers st) ->
  In (h, gid)
     (cancel_timer_of (dict_get gid0 (_pending_albums st)) (loop_timers st)).
Proof.
  intros Htimed Hne Hown Hin. unfold cancel_timer_of.
  destruct (dict_get gid0 (_pending_albums st)) as [album0|] eqn:Hget;
    [|exact Hin].
  destruct (album_timer album0) as [h0|] eqn:Ht0; [|exact Hin].
  apply filter_In. split; [exact Hin|]. simpl.
  destruct (Nat.eqb_spec h h0) as [->|]; [|reflexivity].
  destruct (Htimed gid0 album0 (dict_get_In _ _ _ Hget))
    as [h1 [E1 [_ [Hown0 _]]]].
  rewrite Ht0 in E1. inversion E1; subst h1.
  exfalso. apply Hne. now apply Hown0.
Qed.

Lemma flush_one_timed (gid0 : Z) (st : State) :
  keys_unique st /\ timers_fresh st /\ albums_timed st ->
  keys_unique (snd (flush_one w self gid0 st)) /\
  timers_fresh (snd (flush_one w self gid0 st)) /\
  albums_timed (snd (flush_one w self gid0 st)).
Proof.
  intros [Hnd [Hfresh Htimed]].
  destruct (flush_one_loop gid0 st) as [Ht [Hn Hk]].
  pose proof (flush_one_pending w self gid0 st) as Hp.
  split; [|split].
  - unfold keys_unique. rewrite Hp. now apply dict_del_nodup.
  - intros h g Hin. rewrite Ht in Hin. rewrite Hn.
    apply cancel_timer_of_In in Hin. now apply (Hfresh h g).
  - intros gid album Hin. rewrite Hp in Hin.
    apply dict_del_In in Hin as [Hne Hin]; [|exact Hnd].
    destruct (Htimed gid album Hin) as [h [E [Hlt [Hown Hev]]]].
    exists h. rewrite Ht, Hn, Hk. split; [exact E|]. split; [exact Hlt|].
    split.
    + intros g Hg. apply Hown. now apply cancel_timer_of_In in Hg.
    + destruct Hev as [Hs|Hq]; [left|now right].
      now apply (cancel_keeps_other st gid0 gid album h).
Qed.

Lemma exec_timed (s : Step) (st : State) :
  keys_unique st /\ timers_fresh st /\ albums_timed st ->
  keys_unique (exec w self s st) /\ timers_fresh (exec w self s st) /\
  albums_timed (exec w self s st).
Proof.
  intros [Hnd [Hfresh Htimed]].
  split; [now apply exec_keys_unique|].
  destruct s as [ch m|h0| |]; unfold exec.
  - assert (Hquiet : grouped_id m = None \/ grouped_id m = Some 0 ->
                     router_of (snd (forward w self ch m st)) = router_of st).
    { intros Hg. unfold forward.
      destruct Hg as [-> | ->];
        [|change (0 =? 0) with true; cbv iota];
        apply (quiet_forward_single w self ch m st). }
    destruct (grouped_id m) as [gid|] eqn:Eg.
    + destruct (Z.eq_dec gid 0) as [E0|Hne].
      * subst gid. specialize (Hquiet (or_intror eq_refl)).
        unfold router_of in Hquiet. inversion Hquiet as [[Hp Ht Hn Hk]].
        unfold timers_fresh, albums_timed. rewrite Hp, Ht, Hn, Hk.
        split; assumption.
      * destruct (forward_album w self ch m gid st Eg Hne) as [_ [Hp _]].
        destruct (forward_album_loop ch m gid st Eg Hne) as [Ht [Hn Hk]].
        split.
        -- intros h g Hin. rewrite Ht in Hin. rewrite Hn.
           apply in_app_or in Hin as [Hin|[E|[]]].
           ++ apply cancel_timer_of_In in Hin.
              pose proof (Hfresh h g Hin). lia.
           ++ inversion E; subst. lia.
        -- intros g a Hin. rewrite Hp in Hin.
           apply dict_set_In in Hin; [|exact Hnd].
           rewrite Ht, Hn, Hk.
           destruct Hin as [E|[Hg Hin]].
           ++ inversion E; subst g a. exists (loop_next st).
              split; [now destruct (dict_get gid (_pending_albums st))|].
              split; [lia|]. split.
              ** intros g Hg. apply in_app_or in Hg as [Hg|[E'|[]]].
                 --- apply cancel_timer_of_In in Hg.
                     pose proof (Hfresh _ _ Hg). lia.
                 --- now inversion E'.
              ** left. apply in_or_app. right. now left.
           ++ destruct (Htimed g a Hin) as [h [E [Hlt [Hown Hev]]]].
              exists h. split; [exact E|]. split; [lia|]. split.
              ** intros g' Hg'. apply in_app_or in Hg' as [Hg'|[E'|[]]].
                 --- apply Hown. now apply cancel_timer_of_In in Hg'.
                 --- inversion E'; subst. lia.
              ** destruct Hev as [Hs|Hq]; [left|now right].
                 apply in_or_app. left.
                 now apply (cancel_keeps_other st gid g a h).
    + specialize (Hquiet (or_introl eq_refl)).
      unfold router_of in Hquiet. inversion Hquiet as [[Hp Ht Hn Hk]].
      unfold timers_fresh, albums_timed. rewrite Hp, Ht, Hn, Hk.
      split; assumption.
  - unfold loop_fire.
    destruct (find (fun t => Nat.eqb (fst t) h0) (loop_timers st))
      as [[h' gid0]|] eqn:Ef; [|split; assumption].
    apply find_some in Ef as [Hin0 Heq]. simpl in Heq.
    apply Nat.eqb_eq in Heq. subst h'. simpl. split.
    + intros h g Hin. apply filter_In in Hin as [Hin _].
      now apply (Hfresh h g).
    + intros gid album Hin.
      destruct (Htimed gid album Hin) as [h [E [Hlt [Hown Hev]]]].
      exists h. simpl. split; [exact E|]. split; [exact Hlt|]. split.
      * intros g Hg. apply filter_In in Hg as [Hg _]. now apply Hown.
      * destruct (Nat.eqb_spec h h0) as [->|Hneq].
        -- right. apply in_or_app.
           destruct Hev as [Hs|Hq]; [right|now left].
           rewrite (Hown gid0 Hin0). now left.
        -- destruct Hev as [Hs|Hq].
           ++ left. apply filter_In. split; [exact Hs|]. simpl.
              now apply negb_true_iff, Nat.eqb_neq.
           ++ right. apply in_or_app. now left.
  - unfold loop_run_task.
    destruct (loop_tasks st) as [|gid0 rest] eqn:Etasks; [split; assumption|].
    match goal with
    | |- context [_flush_album w self gid0 ?s] =>
        destruct (flush_album_loop gid0 s) as [Ht [Hn Hk]];
        pose proof (flush_album_pending w self gid0 s) as Hp
    end.
    simpl in Ht, Hn, Hk, Hp. split.
    + intros h g Hin. rewrite Ht in Hin. rewrite Hn. now apply (Hfresh h g).
    + intros gid album Hin. rewrite Hp in Hin.
      apply dict_del_In in Hin as [Hne Hin]; [|exact Hnd].
      destruct (Htimed gid album Hin) as [h [E [Hlt [Hown Hev]]]].
      exists h. rewrite Ht, Hn, Hk. split; [exact E|]. split; [exact Hlt|].
      split; [exact Hown|].
      destruct Hev as [Hs|Hq]; [now left|right].
      rewrite Etasks in Hq. destruct Hq as [E0|Hq]; [congruence|exact Hq].
  - unfold flush_pending.
    refine (proj2 (for_each_keeps
                     (fun st => keys_unique st /\ timers_fresh st /\
                                albums_timed st)
                     (flush_one w self) _ _ st
                     (conj Hnd (conj Hfresh Htimed)))).
    intros gid st0 H0. now apply flush_one_timed.
Qed.

Lemma run_timed (steps : list Step) :
  forall st,
    keys_unique st /\ timers_fresh st /\ albums_timed st ->
    albums_timed (run w self steps st).
Proof.
  induction steps as [|s steps IH]; intros st H; simpl; [apply H|].
  apply IH. now apply exec_timed.
Qed.

(** X21. No pending album is ever left without a way to be flushed: in every
    state the router can reach, each pending album holds the handle of a
    timer that is still scheduled for its key, or a flush of its key is
    already queued. *)
Theorem pending_album_has_live_timer (steps : list Step) (gid : Z)
  (album : _PendingAlbum) :
  let st := run w self steps initial in
  In (gid, album) (_pending_albums st) ->
  exists h,
    album_timer album = Some h /\
    (In (h, gid) (loop_timers st) \/ In gid (loop_tasks st)).
Proof.
  intros st Hin.
  assert (Htimed : albums_timed st).
  { apply run_timed. split; [apply list.NoDup_nil; constructor|].
    split; [intros h g []|intros g a []]. }
  destruct (Htimed gid album Hin) as [h [E [_ [_ Hev]]]].
  exists h. split; assumption.
Qed.

End RouterTimers.

(** ** Bursts, repeated flushes, single messages and the listener *)

Section RouterMore.

Variable w : World.
Variable self : MessageRouter.

Lemma run_arrive_cons (a : str * Message) (more : list (str * Message))
  (st : State) :
  run w self (map (fun a => Arrive (fst a) (snd a)) (a :: more)) st
  = run w self (map (fun a => Arrive (fst a) (snd a)) more)
      (snd (forward w self (fst a) (snd a) st)).
Proof. reflexivity. Qed.

Lemma burst_continues (gid : Z) (more : list (str * Message)) :
  gid <> 0 ->
  Forall (fun a => grouped_id (snd a) = Some gid) more ->
  forall (st : State) (album : _PendingAlbum) (h : nat)
         (base : list (nat * Z)),
    dict_get gid (_pending_albums st) = Some album ->
    album_timer album = Some h ->
    loop_timers st = base ++ [(h, gid)] ->
    loop_next st = S h ->
    let st' := run w self (map (fun a => Arrive (fst a) (snd a)) more) st in
    dict_get gid (_pending_albums st')
    = Some {| album_channel_name := album_channel_name album;
              album_messages := album_messages album ++ map snd more;
              album_timer := Some (h + length more)%nat |} /\
    trace st' = trace st /\
    (forall gid', gid' <> gid ->
                  dict_get gid' (_pending_albums st')
                  = dict_get gid' (_pending_albums st)) /\
    loop_tasks st' = loop_tasks st /\
    exists base',
      loop_timers st' = base' ++ [((h + length more)%nat, gid)] /\
      forall x, In x base' -> In x base.
Proof.
  intros Hne. induction 1 as [|[ch m] more Hg _ IH];
    intros st album h base Hget Htimer Htimers Hnext.
  - simpl. rewrite Nat.add_0_r, app_nil_r.
    split; [rewrite Hget; now destruct album; simpl in *; subst|].
    split; [reflexivity|]. split; [reflexivity|]. split; [reflexivity|].
    exists base. split; [exact Htimers|auto].
  - simpl in Hg. rewrite run_arrive_cons. cbv zeta. simpl fst. simpl snd.
    destruct (forward_album w self ch m gid st Hg Hne) as [_ [Hp Ht]].
    destruct (forward_album_loop w self ch m gid st Hg Hne)
      as [Hl [Hn Hk]].
    rewrite Hget in Hp, Hl. unfold cancel_timer_of in Hl.
    rewrite Htimer, Htimers, Hnext in Hl. rewrite Hnext in Hp, Hn.
    rewrite filter_app in Hl. simpl in Hl. rewrite Nat.eqb_refl in Hl.
    simpl in Hl. rewrite app_nil_r in Hl.
    set (st1 := snd (forward w self ch m st)) in *.
    destruct (IH st1 (album_after ch m (Some album) (S h)) (S h)
                (List.filter (fun t => negb (Nat.eqb (fst t) h)) base))
      as [Hd' [Ht' [Ho' [Hk' [base' [Hb' Hsub]]]]]].
    + rewrite Hp. apply dict_get_set_same.
    + reflexivity.
    + exact Hl.
    + exact Hn.
    + simpl in Hd'. rewrite <- app_assoc in Hd'. simpl in Hd'.
      replace (S h + length more)%nat with (h + S (length more))%nat
        in Hb' by lia.
      split.
      { rewrite Hd'. simpl. do 3 f_equal. lia. }
      split; [congruence|].
      split.
      { intros gid' Hne'. rewrite (Ho' gid' Hne'), Hp.
        now apply dict_get_set_other. }
      split; [congruence|].
      exists base'. split; [exact Hb'|].
      intros x Hx. apply Hsub in Hx. now apply filter_In in Hx.
Qed.

(** X22. A burst of messages of one group, arriving while no album of the
    group is pending, is buffered as one album: it holds the messages in
    arrival order under the channel name of the first arrival, nothing is
    sent meanwhile, other groups are untouched, and the only timer scheduled
    that was not scheduled before the burst is the one set by the last
    arrival — every earlier one has been cancelled. *)
Theorem burst_is_one_album (gid : Z) (first : str * Message)
  (more : list (str * Message)) (st : State) :
  gid <> 0 ->
  Forall (fun a => grouped_id (snd a) = Some gid) (first :: more) ->
  dict_get gid (_pending_albums st) = None ->
  let arrivals := first :: more in
  let st' := run w self (map (fun a => Arrive (fst a) (snd a)) arrivals) st in
  let last := (loop_next st + length more)%nat in
  dict_get gid (_pending_albums st')
  = Some {| album_channel_name := fst first;
            album_messages := map snd arrivals;
            album_timer := Some last |} /\
  trace st' = trace st /\
  (forall gid', gid' <> gid ->
                dict_get gid' (_pending_albums st')
                = dict_get gid' (_pending_albums st)) /\
  loop_tasks st' = loop_tasks st /\
  exists base,
    loop_timers st' = base ++ [(last, gid)] /\
    forall x, In x base -> In x (loop_timers st).
Proof.
  intros Hne Hall Hget arrivals st' last.
  destruct first as [ch m]. inversion Hall as [|? ? Hg Hmore]; subst.
  simpl in Hg. unfold st', arrivals. rewrite run_arrive_cons.
  simpl fst. simpl snd.
  destruct (forward_album w self ch m gid st Hg Hne) as [_ [Hp Ht]].
  destruct (forward_album_loop w self ch m gid st Hg Hne) as [Hl [Hn Hk]].
  rewrite Hget in Hp, Hl. simpl in Hl.
  set (st1 := snd (forward w self ch m st)) in *.
  destruct (burst_continues gid more Hne Hmore st1
              (album_after ch m None (loop_next st)) (loop_next st)
              (loop_timers st))
    as [Hd' [Ht' [Ho' [Hk' [base' [Hb' Hsub]]]]]].
  - rewrite Hp. apply dict_get_set_same.
  - reflexivity.
  - exact Hl.
  - exact Hn.
  - simpl in Hd'. split; [exact Hd'|]. split; [congruence|].
    split.
    { intros gid' Hne'. rewrite (Ho' gid' Hne'), Hp.
      now apply dict_get_set_other. }
    split; [congruence|].
    exists base'. split; [exact Hb'|exact Hsub].
Qed.


(** X24. A message without a group id, or with group id 0, is handled at
    once, as a single message, and leaves the pending albums, their timers
    and the queued flushes exactly as they were. *)
Theorem ungrouped_leaves_albums (ch : str) (m : Message) (st : State) :
  grouped_id m = None \/ grouped_id m = Some 0 ->
  forward w self ch m st = _forward_single w self ch m st /\
  router_of (snd (forward w self ch m st)) = router_of st.
Proof.
  intros Hg.
  assert (E : forward w self ch m st = _forward_single w self ch m st).
  { unfold forward. destruct Hg as [-> | ->]; reflexivity. }
  split; [exact E|]. rewrite E.
  apply (quiet_forward_single w self ch m st).
Qed.

(** X25. Once the chat of an event has been found, the listener's handler
    never lets an exception of the router out: whatever the sink and the LLM
    do, it returns normally.  When [forward] raises, what [forward] recorded
    and changed stays and one error record, naming the channel, is added to
    the log; otherwise the handler does exactly what [forward] does.  The
    chat lookup itself is outside the [try]: when it raises, or returns no
    chat, the handler raises, without calling the router and without a log
    record. *)
Theorem handler_catches_callback (event : NewMessageEvent) (st : State) :
  (forall (title : option str) (id : Z),
     event_get_chat event = ChatFound title id ->
     let ch := channel_name_of title id in
     let r := forward w self ch (event_message event) st in
     fst (handler w self event st) = Ret tt /\
     trace (snd (handler w self event st)) = trace (snd r) /\
     router_of (snd (handler w self event st)) = router_of (snd r) /\
     (forall e, fst r = Raise e ->
                log (snd (handler w self event st))
                = log (snd r)
                  ++ [(ERROR,
                       fmt [lit "Callback failed for channel "; ch])]) /\
     (fst r = Ret tt -> handler w self event st = r)) /\
  (event_get_chat event = ChatMissing ->
   handler w self event st = (Raise AttributeError, st)) /\
  (forall e, event_get_chat event = ChatRaises e ->
             handler w self event st = (Raise e, st)).
Proof.
  split; [|split; [intros E|intros e E]; unfold handler; rewrite E;
           reflexivity].
  intros title id Echat ch r.
  assert (Hsound : fst r <> Diverge).
  { unfold r, forward.
    destruct (grouped_id (event_message event)) as [gid|] eqn:Eg;
      [|apply (tame_forward_single w self ch (event_message event) st)].
    destruct (Z.eqb_spec gid 0) as [E0|Hne];
      [apply (tame_forward_single w self ch (event_message event) st)|].
    destruct (forward_album w self ch (event_message event) gid st Eg Hne)
      as [Hret _].
    unfold forward in Hret. rewrite Eg in Hret.
    destruct (Z.eqb_spec gid 0); [contradiction|].
    rewrite Hret. discriminate. }
  unfold handler. rewrite Echat. fold ch. fold r.
  destruct r as [[[]|e|] st1]; simpl in *.
  - split; [reflexivity|]. split; [reflexivity|]. split; [reflexivity|].
    split; [intros e' E; discriminate E|reflexivity].
  - split; [reflexivity|]. split; [reflexivity|]. split; [reflexivity|].
    split; [intros e' _; reflexivity|intros E; discriminate E].
  - congruence.
Qed.

End RouterMore.

(** ** The channel list of the configuration *)

Lemma split_not_nil (sep : char) (s : str) : split sep s <> [].
Proof.
  induction s as [|c s IH]; simpl; [discriminate|].
  destruct (N.eqb c sep); [discriminate|].
  destruct (split sep s); discriminate.
Qed.

Lemma split_no_sep (sep : char) (s : str) :
  Forall (fun piece => ~ In sep piece) (split sep s).
Proof.
  induction s as [|c s IH]; simpl.
  - constructor; [intros []|constructor].
  - destruct (N.eqb_spec c sep) as [E|Hne].
    + constructor; [intros []|exact IH].
    + destruct (split sep s) as [|piece pieces].
      * constructor; [|constructor]. intros [H|[]]. now apply Hne.
      * inversion IH as [|? ? Hp Hps]; subst.
        constructor; [|exact Hps].
        intros [H|H]; [now apply Hne|now apply Hp].
Qed.

Lemma split_pieces_in (sep : char) (s : str) :
  Forall (fun piece => forall c, In c piece -> In c s) (split sep s).
Proof.
  induction s as [|c s IH]; simpl.
  - constructor; [intros c []|constructor].
  - assert (Hlift : Forall (fun piece => forall x, In x piece -> In x (c :: s))
                           (split sep s)).
    { eapply Forall_impl; [|exact IH].
      intros piece Hp x Hx. right. now apply Hp. }
    destruct (N.eqb c sep).
    + constructor; [intros x []|exact Hlift].
    + destruct (split sep s) as [|piece pieces].
      * constructor; [|constructor]. intros x [H|[]]. now left.
      * inversion Hlift as [|? ? Hp Hps]; subst.
        constructor; [|exact Hps].
        intros x [H|H]; [now left|now apply Hp].
Qed.

Lemma split_app_sep (sep : char) (a b : str) :
  ~ In sep a -> split sep (a ++ sep :: b) = a :: split sep b.
Proof.
  induction a as [|c a IH]; intros Hn; simpl.
  - now rewrite N.eqb_refl.
  - destruct (N.eqb_spec c sep) as [E|Hne]; [exfalso; apply Hn; now left|].
    rewrite IH; [reflexivity|]. intros H. apply Hn. now right.
Qed.

Lemma split_no_occurrence (sep : char) (a : str) :
  ~ In sep a -> split sep a = [a].
Proof.
  induction a as [|c a IH]; intros Hn; simpl; [reflexivity|].
  destruct (N.eqb_spec c sep) as [E|Hne]; [exfalso; apply Hn; now left|].
  rewrite IH; [reflexivity|]. intros H. apply Hn. now right.
Qed.

Lemma split_join (sep : char) (pieces : list str) :
  pieces <> [] ->
  Forall (fun piece => ~ In sep piece) pieces ->
  split sep (join sep pieces) = pieces.
Proof.
  induction pieces as [|a rest IH]; intros Hne Hall; [contradiction|].
  inversion Hall as [|? ? Ha Hrest]; subst.
  destruct rest as [|b rest].
  - simpl. now apply split_no_occurrence.
  - change (join sep (a :: b :: rest)) with (a ++ sep :: join sep (b :: rest)).
    rewrite split_app_sep by exact Ha.
    rewrite IH; [reflexivity|discriminate|exact Hrest].
Qed.

Lemma lstrip_with_solid (s : str) : starts_solid (lstrip_with isspace s).
Proof.
  induction s as [|x s IH]; simpl; [exact I|].
  destruct (isspace x) eqn:E; [exact IH|exact E].
Qed.

Lemma lstrip_with_solid_id (s : str) :
  starts_solid s -> lstrip_with isspace s = s.
Proof.
  destruct s as [|x s]; simpl; [reflexivity|]. now intros ->.
Qed.

Lemma starts_solid_prefix (a b : str) :
  starts_solid (a ++ b) -> starts_solid a.
Proof. destruct a; [intros _; exact I|exact id]. Qed.

Lemma strip_solid (s : str) :
  starts_solid (strip s) /\ starts_solid (rev (strip s)).
Proof.
  unfold strip, lstrip.
  set (t := lstrip_with isspace s).
  destruct (lstrip_with_prefix isspace (rev t)) as [gap [_ E]].
  split.
  - apply (starts_solid_prefix _ (rev gap)).
    rewrite <- rev_app_distr, <- E, rev_involutive.
    apply lstrip_with_solid.
  - rewrite rev_involutive. apply lstrip_with_solid.
Qed.

Lemma strip_solid_id (s : str) :
  starts_solid s -> starts_solid (rev s) -> strip s = s.
Proof.
  intros H1 H2. unfold strip, lstrip.
  rewrite (lstrip_with_solid_id s H1), (lstrip_with_solid_id (rev s) H2).
  apply rev_involutive.
Qed.

Lemma lstrip_with_in (p : char -> bool) (s : str) (c : char) :
  In c (lstrip_with p s) -> In c s.
Proof.
  destruct (lstrip_with_prefix p s) as [gap [_ E]].
  intros H. rewrite E. apply in_or_app. now right.
Qed.

Lemma strip_in (s : str) (c : char) : In c (strip s) -> In c s.
Proof.
  unfold strip, lstrip. intros H.
  apply in_rev in H. apply lstrip_with_in in H. apply in_rev in H.
  now apply lstrip_with_in in H.
Qed.

(** X26. Whatever the value of TELEGRAM_CHANNELS, every channel name kept by
    the configuration is non-empty, contains no comma and has no white space
    at either end, and consists of characters of the value. *)
Theorem parse_channels_names_ok (channels_raw : str) :
  Forall (fun ch => channel_name_ok ch /\
                    forall c, In c ch -> In c channels_raw)
         (parse_channels channels_raw).
Proof.
  unfold parse_channels.
  apply Forall_forall. intros ch Hin.
  apply in_map_iff in Hin. destruct Hin as [piece [<- Hin]].
  apply filter_In in Hin. destruct Hin as [Hin Ht].
  pose proof (split_no_sep COMMA channels_raw) as Hsep.
  pose proof (split_pieces_in COMMA channels_raw) as Hsub.
  rewrite Forall_forall in Hsep, Hsub.
  split.
  - split; [exact Ht|]. split.
    + intros Hc. apply strip_in in Hc. exact (Hsep piece Hin Hc).
    + apply strip_solid.
  - intros c Hc. apply strip_in in Hc. exact (Hsub piece Hin c Hc).
Qed.

(** X27. Channel names that are non-empty, without comma and without white
    space at either end are read back unchanged, in order, from their
    comma-separated list. *)
Theorem parse_channels_round_trip (names : list str) :
  Forall channel_name_ok names ->
  parse_channels (join COMMA names) = names.
Proof.
  intros Hall. unfold parse_channels.
  destruct names as [|a rest]; [reflexivity|].
  rewrite split_join.
  - induction Hall as [|ch names [Ht [_ [H1 H2]]] _ IH]; [reflexivity|].
    simpl. rewrite (strip_solid_id ch H1 H2), Ht. simpl.
    rewrite (strip_solid_id ch H1 H2). now f_equal.
  - discriminate.
  - eapply Forall_impl; [|exact Hall]. intros ch [_ [Hc _]]. exact Hc.
Qed.

(** ** Albums in the loop with suspensions *)

(** *** The processing keeps clear of the dict and of the loop *)

Lemma aloof_ret {A} (a : A) : aloof (ret a).
Proof. intros p ts n tk st. reflexivity. Qed.

Lemma aloof_raise {A} (e : Exn) : aloof (@raise A e).
Proof. intros p ts n tk st. reflexivity. Qed.

Lemma aloof_emit (e : Event) : aloof (emit e).
Proof. intros p ts n tk st. reflexivity. Qed.

Lemma aloof_logger (lv : Level) (msg : str) : aloof (logger lv msg).
Proof. intros p ts n tk st. reflexivity. Qed.

Lemma aloof_bind {A B} (m : M A) (k : A -> M B) :
  aloof m -> (forall a, aloof (k a)) -> aloof (bind m k).
Proof.
  intros Hm Hk p ts n tk st. unfold bind. rewrite Hm.
  destruct (m st) as [[a|e|] st1]; simpl; [apply Hk|reflexivity|reflexivity].
Qed.

Lemma aloof_if {A} (b : bool) (m1 m2 : M A) :
  aloof m1 -> aloof m2 -> aloof (if b then m1 else m2).
Proof. destruct b; auto. Qed.

Ltac aloof_tac :=
  repeat first
    [ apply aloof_ret | apply aloof_raise | apply aloof_emit
    | apply aloof_logger
    | apply aloof_bind; [|intros ?]
    | apply aloof_if
    | match goal with
      | |- aloof (match ?x with _ => _ end) => destruct x
      end
    | assumption ].

Lemma aloof_evaluate_loop (w : World) (config : LLMConfig)
  (rules : list FilterRule) (text : str) :
  aloof (evaluate_loop w config rules text).
Proof.
  induction rules as [|rule rest IH]; simpl; unfold _run_filter; aloof_tac.
Qed.

Lemma aloof_album_loop (w : World) (ch caption : str)
  (msgs : list Message) :
  forall is_first, aloof (album_loop w ch caption msgs is_first).
Proof.
  induction msgs as [|msg rest IH]; intros is_first; simpl;
    unfold fetch, sender_upload_media, sender_send_media; aloof_tac;
    apply IH.
Qed.

Lemma aloof_process_album (w : World) (self : MessageRouter)
  (album : _PendingAlbum) :
  aloof (process_album w self album).
Proof.
  pose proof (aloof_evaluate_loop w) as Hev.
  pose proof (aloof_album_loop w) as Hal.
  unfold process_album, deliver_album, evaluate, sender_send_text.
  aloof_tac; try apply Hev; try apply Hal.
Qed.

Section LoopFacts.

Variable w : World.
Variable self : MessageRouter.

Lemma timed_router_of (st st' : State) :
  router_of st' = router_of st -> timed st -> timed st'.
Proof.
  unfold router_of. intros E. inversion E as [[Hp Ht Hn Hk]].
  unfold timed, keys_unique, timers_fresh, albums_timed.
  now rewrite Hp, Ht, Hn, Hk.
Qed.

Lemma timed_initial : timed initial.
Proof.
  split; [apply list.NoDup_nil; constructor|].
  split; [intros h g []|intros g a []].
Qed.

Lemma pop_album_flush (gid : Z) (st : State) :
  router_of (snd (pop_album gid st))
  = router_of (snd (_flush_album w self gid st)).
Proof.
  rewrite flush_album_eq. unfold pop_album.
  destruct (dict_get gid (_pending_albums st)) as [album|]; [|reflexivity].
  simpl. symmetry. apply (quiet_process_album w self album).
Qed.

Lemma flush_one_split (gid : Z) (st : State) :
  flush_one w self gid st
  = _flush_album w self gid (snd (cancel_timer_at gid st)).
Proof.
  unfold flush_one, bind, cancel_timer_at.
  destruct (dict_get gid (_pending_albums st)) as [album|];
    [destruct (album_timer album)|]; reflexivity.
Qed.

Lemma cancel_pop_flush_one (gid : Z) (st : State) :
  router_of (snd (pop_album gid (snd (cancel_timer_at gid st))))
  = router_of (snd (flush_one w self gid st)).
Proof. rewrite flush_one_split. apply pop_album_flush. Qed.

Lemma to_await_timed (todo : list Z) :
  forall st, timed st -> timed (snd (flush_pending_to_await todo st)).
Proof.
  induction todo as [|gid rest IH]; intros st H; simpl; [exact H|].
  assert (H1 : timed (snd (pop_album gid (snd (cancel_timer_at gid st))))).
  { apply (timed_router_of (snd (flush_one w self gid st)));
      [apply cancel_pop_flush_one|].
    now apply flush_one_timed. }
  destruct (pop_album gid (snd (cancel_timer_at gid st)))
    as [[[album|]|e|] st']; simpl in *; auto.
Qed.

Lemma tick_timed (t : Tick) (s : Loop) :
  timed (now s) -> timed (now (tick w self t s)).
Proof.
  intros H. destruct t as [ch m|h| |i|]; simpl.
  - exact (exec_timed w self (Arrive ch m) (now s) H).
  - exact (exec_timed w self (Fire h) (now s) H).
  - destruct (loop_tasks (now s)) as [|gid rest] eqn:Etasks; [exact H|].
    pose proof (exec_timed w self RunTask (now s) H) as Hrun.
    unfold exec, loop_run_task in Hrun. rewrite Etasks in Hrun.
    match goal with
    | |- context [pop_album gid ?st] =>
        pose proof (pop_album_flush gid st) as Hr;
        destruct (pop_album gid st) as [[[album|]|e|] st'] eqn:Ep
    end; simpl in *; now apply (timed_router_of _ _ Hr).
  - destruct (suspended s !! i) as [[album|album todo]|]; [| |exact H].
    + simpl. apply (timed_router_of (now s)); [|exact H].
      apply (quiet_process_album w self album).
    + pose proof (proj1 (quiet_process_album w self album (now s))) as Hr.
      destruct (process_album w self album (now s)) as [[[]|e|] st] eqn:Ep;
        simpl in Hr.
      * pose proof (to_await_timed todo st
                      (timed_router_of _ _ Hr H)) as Hnext.
        destruct (flush_pending_to_await todo st) as [c st']. exact Hnext.
      * simpl. now apply (timed_router_of (now s)).
      * simpl. now apply (timed_router_of (now s)).
  - pose proof (to_await_timed (dict_keys (_pending_albums (now s)))
                  (now s) H) as Hnext.
    destruct (flush_pending_to_await _ (now s)) as [c st']. exact Hnext.
Qed.

Lemma play_timed (ticks : list Tick) :
  forall s, timed (now s) -> timed (now (play w self ticks s)).
Proof.
  induction ticks as [|t ticks IH]; intros s H; simpl; [exact H|].
  apply IH. now apply tick_timed.
Qed.

(** *** Every buffered message is in exactly one album *)

Lemma dict_del_albums (gid : Z) (album : _PendingAlbum) (d : dict) :
  dict_get gid d = Some album ->
  map snd d ≡ₚ album :: map snd (dict_del gid d).
Proof.
  induction d as [|[k v] d IH]; simpl; [discriminate|].
  destruct (Z.eqb_spec gid k).
  - intros E. inversion E; subst. reflexivity.
  - intros E. simpl. rewrite (IH E). apply perm_swap.
Qed.

Lemma dict_set_messages (gid : Z) (ch : str) (m : Message) (h : nat)
  (d : dict) :
  flat_map album_messages
    (map snd (dict_set gid (album_after ch m (dict_get gid d) h) d))
  ≡ₚ flat_map album_messages (map snd d) ++ [m].
Proof.
  induction d as [|[k v] d IH]; simpl.
  - reflexivity.
  - destruct (Z.eqb_spec gid k); simpl.
    + rewrite <- !app_assoc. apply Permutation_app_head.
      apply Permutation_app_comm.
    + rewrite IH. now rewrite app_assoc.
Qed.

Lemma dict_set_albums_in (gid : Z) (v x : _PendingAlbum) (d : dict) :
  In x (map snd (dict_set gid v d)) -> x = v \/ In x (map snd d).
Proof.
  induction d as [|[k v'] d IH]; simpl.
  - intros [E|[]]. now left.
  - destruct (Z.eqb_spec gid k); simpl.
    + intros [E|H]; [now left|right; now right].
    + intros [E|H]; [right; now left|].
      destruct (IH H) as [E|H']; [now left|right; now right].
Qed.

Lemma cancel_timer_at_pending (gid : Z) (st : State) :
  _pending_albums (snd (cancel_timer_at gid st)) = _pending_albums st.
Proof.
  unfold cancel_timer_at.
  destruct (dict_get gid (_pending_albums st)) as [album|];
    [destruct (album_timer album)|]; reflexivity.
Qed.

(** Running [flush_pending] on to its next await moves at most one album,
    from the pending dict to the coroutine. *)
Lemma to_await_albums (todo : list Z) :
  forall (st : State) (cs : list Coroutine),
    map coroutine_album (park (fst (flush_pending_to_await todo st)) cs)
    ++ map snd (_pending_albums (snd (flush_pending_to_await todo st)))
    ≡ₚ map coroutine_album cs ++ map snd (_pending_albums st).
Proof.
  induction todo as [|gid rest IH]; intros st cs; simpl; [reflexivity|].
  unfold pop_album. rewrite cancel_timer_at_pending.
  destruct (dict_get gid (_pending_albums st)) as [album|] eqn:Eg; simpl.
  - rewrite map_app, <- app_assoc. simpl.
    apply Permutation_app_head. symmetry. now apply dict_del_albums.
  - rewrite IH. now rewrite cancel_timer_at_pending.
Qed.

Lemma albums_resumed (cs : list Coroutine) (i : nat) (c : Coroutine)
  (done rest : list _PendingAlbum) :
  cs !! i = Some c ->
  (done ++ [coroutine_album c]) ++ map coroutine_album (delete i cs) ++ rest
  ≡ₚ done ++ map coroutine_album cs ++ rest.
Proof.
  intros Hi. rewrite <- app_assoc. apply Permutation_app_head. simpl.
  rewrite (Permutation_map coroutine_album (delete_Permutation cs i c Hi)).
  reflexivity.
Qed.

(** A step of the loop that brings no buffered message only moves albums:
    from the dict to a coroutine, from a coroutine to the processed ones. *)
Lemma tick_albums (t : Tick) (s : Loop) :
  arrived t = [] -> albums (tick w self t s) ≡ₚ albums s.
Proof.
  intros Ha. unfold albums. destruct t as [ch m|h| |i|]; simpl.
  - simpl in Ha. unfold buffered in Ha.
    assert (Hq : _pending_albums (snd (forward w self ch m (now s)))
                 = _pending_albums (now s)).
    { unfold forward.
      destruct (grouped_id m) as [gid|];
        [destruct (Z.eqb gid 0); [|discriminate]|];
        apply (quiet_pending _ _ (quiet_forward_single w self ch m)). }
    now rewrite Hq.
  - unfold loop_fire.
    destruct (find _ (loop_timers (now s))) as [[h' gid]|]; reflexivity.
  - destruct (loop_tasks (now s)) as [|gid rest]; [reflexivity|].
    unfold pop_album. simpl.
    destruct (dict_get gid (_pending_albums (now s))) as [album|] eqn:Eg;
      simpl; [|reflexivity].
    apply Permutation_app_head. rewrite map_app, <- app_assoc. simpl.
    apply Permutation_app_head. symmetry. now apply dict_del_albums.
  - destruct (suspended s !! i) as [[album|album todo]|] eqn:Ei;
      [| |reflexivity].
    + simpl.
      rewrite (quiet_pending _ _ (quiet_process_album w self album)).
      apply (albums_resumed (suspended s) i (InFlushAlbum album) _ _ Ei).
    + pose proof (quiet_pending _ (now s)
                    (quiet_process_album w self album)) as Hq.
      destruct (process_album w self album (now s)) as [[[]|e|] st] eqn:Ep;
        simpl in Hq.
      * pose proof (to_await_albums todo st (delete i (suspended s)))
          as Hnext.
        destruct (flush_pending_to_await todo st) as [c st']. simpl in *.
        rewrite Hnext, Hq.
        apply (albums_resumed (suspended s) i (InFlushPending album todo)
                 _ _ Ei).
      * simpl. rewrite Hq.
        apply (albums_resumed (suspended s) i (InFlushPending album todo)
                 _ _ Ei).
      * simpl. rewrite Hq.
        apply (albums_resumed (suspended s) i (InFlushPending album todo)
                 _ _ Ei).
  - pose proof (to_await_albums (dict_keys (_pending_albums (now s)))
                  (now s) (suspended s)) as Hnext.
    destruct (flush_pending_to_await _ (now s)) as [c st']. simpl in *.
    now rewrite Hnext.
Qed.

Lemma buffered_inv (m : Message) :
  buffered m = true -> exists gid, grouped_id m = Some gid /\ gid <> 0.
Proof.
  unfold buffered. destruct (grouped_id m) as [gid|]; [|discriminate].
  intros H. exists gid. split; [reflexivity|].
  intros ->. discriminate.
Qed.

Lemma tick_held (t : Tick) (s : Loop) :
  held (tick w self t s) ≡ₚ held s ++ arrived t.
Proof.
  destruct (arrived t) as [|m0 l] eqn:Ha.
  - rewrite app_nil_r. unfold held. now rewrite (tick_albums t s Ha).
  - destruct t as [ch m|h| |i|]; simpl in Ha; try discriminate.
    destruct (buffered m) eqn:Hb; [|discriminate].
    inversion Ha; subst m0 l.
    destruct (buffered_inv m Hb) as [gid [Hg Hne]].
    destruct (forward_album w self ch m gid (now s) Hg Hne) as [_ [Hp _]].
    unfold held, albums. simpl. rewrite Hp.
    rewrite !flat_map_app, dict_set_messages. now rewrite !app_assoc.
Qed.

Lemma play_held (ticks : list Tick) :
  forall s, held (play w self ticks s) ≡ₚ held s ++ arrivals ticks.
Proof.
  induction ticks as [|t ticks IH]; intros s; simpl.
  - now rewrite app_nil_r.
  - rewrite IH, tick_held. unfold arrivals. simpl.
    now rewrite app_assoc.
Qed.

(** *** The messages of an album are in the order of arrival *)

Lemma tick_in_order (t : Tick) (s : Loop) (a : list Message) :
  in_order a s -> in_order (a ++ arrived t) (tick w self t s).
Proof.
  intros Hord album Hin.
  destruct (arrived t) as [|m0 l] eqn:Ha.
  - rewrite app_nil_r. apply Hord.
    now apply (Permutation_in _ (tick_albums t s Ha)).
  - destruct t as [ch m|h| |i|]; simpl in Ha; try discriminate.
    destruct (buffered m) eqn:Hb; [|discriminate].
    inversion Ha; subst m0 l.
    destruct (buffered_inv m Hb) as [gid [Hg Hne]].
    destruct (forward_album w self ch m gid (now s) Hg Hne) as [_ [Hp _]].
    unfold albums in Hin. simpl in Hin. rewrite Hp in Hin.
    assert (Hold : forall x, In x (albums s) ->
                             sublist (album_messages x) (a ++ [m])).
    { intros x Hx. apply sublist_inserts_r. now apply Hord. }
    apply in_app_or in Hin as [Hin|Hin];
      [apply Hold; unfold albums; apply in_or_app; now left|].
    apply in_app_or in Hin as [Hin|Hin];
      [apply Hold; unfold albums; apply in_or_app; right;
       apply in_or_app; now left|].
    apply dict_set_albums_in in Hin as [->|Hin];
      [|apply Hold; unfold albums; apply in_or_app; right;
        apply in_or_app; now right].
    destruct (dict_get gid (_pending_albums (now s))) as [old|] eqn:Eg;
      simpl.
    + apply sublist_app; [|reflexivity].
      apply Hord. unfold albums. apply in_or_app. right.
      apply in_or_app. right.
      apply in_map_iff. exists (gid, old). split; [reflexivity|].
      now apply dict_get_In.
    + apply sublist_inserts_l. reflexivity.
Qed.

Lemma play_in_order (ticks : list Tick) :
  forall s a,
    in_order a s -> in_order (a ++ arrivals ticks) (play w self ticks s).
Proof.
  induction ticks as [|t ticks IH]; intros s a H; simpl.
  - now rewrite app_nil_r.
  - unfold arrivals. simpl. rewrite app_assoc.
    apply IH. now apply tick_in_order.
Qed.

(** *** The timer path, and what is left when the loop is idle *)

Lemma dict_get_of_In (gid : Z) (album : _PendingAlbum) (d : dict) :
  NoDup (dict_keys d) -> In (gid, album) d -> dict_get gid d = Some album.
Proof.
  unfold dict_keys. induction d as [|[k v] d IH]; simpl; intros Hnd Hin;
    [contradiction|].
  apply list.NoDup_cons in Hnd as [Hnot Hnd].
  destruct Hin as [E|Hin].
  - inversion E; subst. now rewrite Z.eqb_refl.
  - destruct (Z.eqb_spec gid k) as [->|]; [|now apply IH].
    exfalso. apply Hnot. apply list_elem_of_In.
    apply in_map_iff. now exists (k, album).
Qed.

Lemma find_timer (h : nat) (gid : Z) (timers : list (nat * Z)) :
  In (h, gid) timers ->
  (forall g, In (h, g) timers -> g = gid) ->
  find (fun t => Nat.eqb (fst t) h) timers = Some (h, gid).
Proof.
  intros Hin Hown.
  destruct (find (fun t => Nat.eqb (fst t) h) timers) as [[h' g]|] eqn:Ef.
  - apply find_some in Ef as [Hin' Heq]. simpl in Heq.
    apply Nat.eqb_eq in Heq. subst h'. now rewrite (Hown g Hin').
  - pose proof (find_none _ _ Ef (h, gid) Hin) as Hno. simpl in Hno.
    now rewrite Nat.eqb_refl in Hno.
Qed.

Lemma lookup_last (cs : list Coroutine) (c : Coroutine) :
  (cs ++ [c]) !! length cs = Some c.
Proof. induction cs as [|x cs IH]; simpl; [reflexivity|exact IH]. Qed.

Lemma delete_last (cs : list Coroutine) (c : Coroutine) :
  delete (length cs) (cs ++ [c]) = cs.
Proof. induction cs as [|x cs IH]; simpl; [reflexivity|now f_equal]. Qed.

Lemma lookup_beyond (cs : list Coroutine) : cs !! length cs = None.
Proof. induction cs as [|x cs IH]; simpl; [reflexivity|exact IH]. Qed.

(** The timer of a pending album fires, the flush it queues starts, and the
    flush goes on: the album is taken out of the dict by the start, before
    it is processed, and processed by the resumption. *)
Lemma timer_path (s : Loop) (gid : Z) (album : _PendingAlbum) (h : nat) :
  timed (now s) ->
  In (gid, album) (_pending_albums (now s)) ->
  album_timer album = Some h ->
  In (h, gid) (loop_timers (now s)) ->
  loop_tasks (now s) = [] ->
  let s1 := play w self [Fires h; Starts] s in
  let s2 := tick w self (Resumes (length (suspended s))) s1 in
  (suspended s1 = suspended s ++ [InFlushAlbum album] /\
   processed s1 = processed s /\
   _pending_albums (now s1) = dict_del gid (_pending_albums (now s)) /\
   dict_get gid (_pending_albums (now s1)) = None /\
   _flush_album w self gid (now s1) = (Ret tt, now s1) /\
   ~ In (h, gid) (loop_timers (now s1)) /\
   loop_tasks (now s1) = [] /\
   trace (now s1) = trace (now s)) /\
  (now s2 = snd (process_album w self album (now s1)) /\
   suspended s2 = suspended s /\
   processed s2 = processed s ++ [album]).
Proof.
  intros [Hnd [Hfresh Htimed]] Hin Ht Hsched Htasks s1 s2.
  destruct (Htimed gid album Hin) as [h' [E [_ [Hown _]]]].
  rewrite Ht in E. inversion E; subst h'.
  pose proof (dict_get_of_In gid album _ Hnd Hin) as Hget.
  pose proof (find_timer h gid _ Hsched Hown) as Hfind.
  assert (E1 : s1 = {| now :=
                         set_pending
                           (dict_del gid (_pending_albums (now s)))
                           (set_loop
                              (List.filter
                                 (fun t => negb (Nat.eqb (fst t) h))
                                 (loop_timers (now s)))
                              (loop_next (now s)) [] (now s));
                       suspended := suspended s ++ [InFlushAlbum album];
                       processed := processed s |}).
  { unfold s1, play. simpl. unfold loop_fire. rewrite Hfind. simpl.
    rewrite Htasks. simpl. unfold pop_album. simpl. rewrite Hget.
    reflexivity. }
  assert (Hgone : dict_get gid (dict_del gid (_pending_albums (now s)))
                  = None) by now apply dict_get_del_same.
  split.
  - rewrite E1. simpl.
    split; [reflexivity|]. split; [reflexivity|]. split; [reflexivity|].
    split; [exact Hgone|]. split.
    { rewrite flush_album_eq. simpl. now rewrite Hgone. }
    split; [|split; reflexivity].
    intros Hstill. apply filter_In in Hstill as [_ Hneq]. simpl in Hneq.
    now rewrite Nat.eqb_refl in Hneq.
  - unfold s2. rewrite E1. simpl. rewrite lookup_last.
    rewrite delete_last. repeat split.
Qed.

(** When no timer is scheduled and no flush is queued, nothing is
    pending. *)
Lemma idle_nothing_pending (st : State) :
  timed st -> loop_timers st = [] -> loop_tasks st = [] ->
  _pending_albums st = [].
Proof.
  intros [_ [_ Htimed]] Ht Hk.
  destruct (_pending_albums st) as [|[gid album] d] eqn:Ep; [reflexivity|].
  destruct (Htimed gid album) as [h [_ [_ [_ [Hin|Hin]]]]].
  - rewrite Ep. now left.
  - rewrite Ht in Hin. contradiction.
  - rewrite Hk in Hin. contradiction.
Qed.

(** *** The steps of [exec] are schedules without interruption *)

Lemma run_task_uninterrupted (s : Loop) :
  let s' := play w self [Starts; Resumes (length (suspended s))] s in
  now s' = exec w self RunTask (now s) /\ suspended s' = suspended s.
Proof.
  unfold play, exec, loop_run_task. simpl.
  destruct (loop_tasks (now s)) as [|gid rest].
  - simpl. rewrite lookup_beyond. split; reflexivity.
  - rewrite flush_album_eq. unfold pop_album. simpl.
    destruct (dict_get gid (_pending_albums (now s))) as [album|]; simpl.
    + rewrite lookup_last, delete_last. split; reflexivity.
    + rewrite lookup_beyond. split; reflexivity.
Qed.

Lemma to_await_uninterrupted (todo : list Z) :
  forall (st : State) (cs : list Coroutine) (done : list _PendingAlbum)
         (n : nat),
    (length todo <= n)%nat ->
    let s := {| now := snd (flush_pending_to_await todo st);
                suspended := park (fst (flush_pending_to_await todo st)) cs;
                processed := done |} in
    let s' := play w self (repeat (Resumes (length cs)) n) s in
    now s' = snd (for_each todo (flush_one w self) st) /\
    suspended s' = cs.
Proof.
  assert (Hidle : forall n st cs done,
             let s := {| now := st; suspended := cs; processed := done |} in
             now (play w self (repeat (Resumes (length cs)) n) s) = st /\
             suspended (play w self (repeat (Resumes (length cs)) n) s)
             = cs).
  { induction n as [|n IHn]; intros st cs done; simpl;
      [split; reflexivity|].
    rewrite lookup_beyond. apply IHn. }
  induction todo as [|gid rest IH]; intros st cs done n Hn.
  - simpl. apply Hidle.
  - simpl in Hn. rewrite for_each_cons, flush_one_split.
    simpl flush_pending_to_await.
    rewrite flush_album_eq. unfold pop_album.
    destruct (dict_get gid (_pending_albums (snd (cancel_timer_at gid st))))
      as [album|]; simpl.
    + destruct n as [|n]; [lia|]. simpl.
      rewrite lookup_last, delete_last.
      destruct (process_album w self album _) as [[[]|e|] st1] eqn:Ep;
        simpl.
      * pose proof (IH st1 cs (done ++ [album]) n ltac:(lia)) as Hrest.
        destruct (flush_pending_to_await rest st1) as [c st2].
        exact Hrest.
      * apply Hidle.
      * apply Hidle.
    + apply (IH _ cs done n). lia.
Qed.

Lemma shutdown_uninterrupted (s : Loop) (n : nat) :
  (length (_pending_albums (now s)) <= n)%nat ->
  let s' :=
    play w self (Shutdown :: repeat (Resumes (length (suspended s))) n) s in
  now s' = exec w self FlushPending (now s) /\ suspended s' = suspended s.
Proof.
  intros Hn. unfold exec, flush_pending. simpl.
  pose proof (to_await_uninterrupted (dict_keys (_pending_albums (now s)))
                (now s) (suspended s) (processed s) n) as H.
  unfold dict_keys in H at 1. rewrite length_map in H.
  specialize (H Hn).
  destruct (flush_pending_to_await _ (now s)) as [c st']. exact H.
Qed.

Lemma shutdown_first (s : Loop) (gid : Z) (album : _PendingAlbum)
  (d : dict) :
  _pending_albums (now s) = (gid, album) :: d ->
  let s1 := tick w self Shutdown s in
  suspended s1 = suspended s ++ [InFlushPending album (dict_keys d)] /\
  processed s1 = processed s /\
  _pending_albums (now s1) = d /\
  loop_timers (now s1) = cancel_timer_of (Some album) (loop_timers (now s)) /\
  loop_tasks (now s1) = loop_tasks (now s) /\
  trace (now s1) = trace (now s).
Proof.
  intros Hp. simpl. rewrite Hp.
  change (dict_keys ((gid, album) :: d)) with (gid :: dict_keys d).
  simpl. unfold pop_album, cancel_timer_at, cancel_timer_of, timer_cancel.
  rewrite Hp. simpl. rewrite Z.eqb_refl.
  destruct (album_timer album); simpl; rewrite Hp; simpl;
    rewrite Z.eqb_refl; simpl; repeat split.
Qed.

(** C1.  The loop is run with its suspensions: a flush can be interrupted
    between the pop of its album and the processing, and arrivals, timers,
    other flushes and [flush_pending] can run in between, in any order.

    At most one album is pending for a group key at any time.  Every
    buffered message is at any time in exactly one album, and an album is in
    exactly one place: pending in the dict, popped by a coroutine that has
    not processed it yet, or processed; a coroutine processes the album it
    popped, once.  So no album is delivered twice and no message is lost.
    The messages of every album are in the order in which they arrived, a
    new message goes to the end of the list of its group, and a completion
    goes through the list in order.

    The timer path: when the timer of a pending album fires, its flush is
    queued; when the flush starts, the album is taken out of the dict before
    anything is awaited, so that a second flush of the key, whatever
    triggers it while the first is suspended, finds nothing and does
    nothing; when the flush goes on, that album is processed.  No album is
    skipped: a pending album always holds a timer that is still scheduled
    for its key, unless a flush of its key is already queued, and once no
    timer is scheduled, no flush is queued and no coroutine is suspended,
    nothing is pending and every buffered message has been processed.
    The processing itself keeps clear of the dict, the timers and the queued
    flushes: it runs the same way whatever they hold and leaves them as they
    are, so the steps that fall between its own awaits change nothing for
    it, nor it for them.

    [flush_pending] cancels the timer of the first pending album and pops
    the album before it awaits anything; run without interruption it is the
    [flush_pending] of [exec], which completes the entries of the dict one
    after the other, each once, leaves the dict empty when it returns, and,
    when a completion raises, leaves the entries it has not reached pending
    as they were. *)
Theorem album_completes_once :
  (forall ticks : list Tick, keys_unique (now (play w self ticks boot))) /\
  (forall ticks : list Tick,
     held (play w self ticks boot) ≡ₚ arrivals ticks) /\
  (forall ticks : list Tick,
     in_order (arrivals ticks) (play w self ticks boot)) /\
  (forall (ticks : list Tick) (gid : Z) (album : _PendingAlbum) (h : nat),
     let s := play w self ticks boot in
     In (gid, album) (_pending_albums (now s)) ->
     album_timer album = Some h ->
     In (h, gid) (loop_timers (now s)) ->
     loop_tasks (now s) = [] ->
     let s1 := play w self [Fires h; Starts] s in
     let s2 := tick w self (Resumes (length (suspended s))) s1 in
     (suspended s1 = suspended s ++ [InFlushAlbum album] /\
      processed s1 = processed s /\
      _pending_albums (now s1) = dict_del gid (_pending_albums (now s)) /\
      dict_get gid (_pending_albums (now s1)) = None /\
      _flush_album w self gid (now s1) = (Ret tt, now s1) /\
      ~ In (h, gid) (loop_timers (now s1)) /\
      loop_tasks (now s1) = [] /\
      trace (now s1) = trace (now s)) /\
     (now s2 = snd (process_album w self album (now s1)) /\
      suspended s2 = suspended s /\
      processed s2 = processed s ++ [album])) /\
  (forall (ticks : list Tick) (gid : Z) (album : _PendingAlbum),
     let s := play w self ticks boot in
     In (gid, album) (_pending_albums (now s)) ->
     exists h,
       album_timer album = Some h /\
       (In (h, gid) (loop_timers (now s)) \/ In gid (loop_tasks (now s)))) /\
  (forall ticks : list Tick,
     let s := play w self ticks boot in
     loop_timers (now s) = [] ->
     loop_tasks (now s) = [] ->
     suspended s = [] ->
     _pending_albums (now s) = [] /\
     flat_map album_messages (processed s) ≡ₚ arrivals ticks) /\
  (forall album : _PendingAlbum, aloof (process_album w self album)) /\
  (forall (s : Loop) (gid : Z) (album : _PendingAlbum) (d : dict),
     _pending_albums (now s) = (gid, album) :: d ->
     let s1 := tick w self Shutdown s in
     suspended s1 = suspended s ++ [InFlushPending album (dict_keys d)] /\
     processed s1 = processed s /\
     _pending_albums (now s1) = d /\
     loop_timers (now s1)
     = cancel_timer_of (Some album) (loop_timers (now s)) /\
     loop_tasks (now s1) = loop_tasks (now s) /\
     trace (now s1) = trace (now s)) /\
  (forall s : Loop,
     let s' := play w self [Starts; Resumes (length (suspended s))] s in
     now s' = exec w self RunTask (now s) /\ suspended s' = suspended s) /\
  (forall (s : Loop) (n : nat),
     (length (_pending_albums (now s)) <= n)%nat ->
     let s' :=
       play w self (Shutdown :: repeat (Resumes (length (suspended s))) n) s
     in
     now s' = exec w self FlushPending (now s) /\
     suspended s' = suspended s) /\
  (forall st : State,
     flush_pending w self st
     = for_each (_pending_albums st) (complete_album w self) st) /\
  (forall st : State,
     fst (flush_pending w self st) = Ret tt ->
     _pending_albums (snd (flush_pending w self st)) = []) /\
  (forall st : State,
     exists started,
       _pending_albums st
       = started ++ _pending_albums (snd (flush_pending w self st))) /\
  (forall (ch : str) (m : Message) (gid : Z) (st : State),
     grouped_id m = Some gid ->
     gid <> 0 ->
     let st' := snd (forward w self ch m st) in
     dict_get gid (_pending_albums st')
     = Some (album_after ch m (dict_get gid (_pending_albums st))
                         (loop_next st)) /\
     (forall gid', gid' <> gid ->
                   dict_get gid' (_pending_albums st')
                   = dict_get gid' (_pending_albums st)) /\
     trace st' = trace st) /\
  (sink_ok w ->
   forall (gid : Z) (album : _PendingAlbum) (first : Message)
          (rest : list Message) (st : State),
     dict_get gid (_pending_albums st) = Some album ->
     album_messages album = first :: rest ->
     skipped w self (first_text (album_messages album)) st = false ->
     _flush_album w self gid st
     = process_album w self album
         (set_pending (dict_del gid (_pending_albums st)) st) /\
     exists calls new,
       Forall is_llm_call calls /\
       trace (snd (_flush_album w self gid st)) = trace st ++ calls ++ new /\
       downloads new = album_downloads (album_messages album)).
Proof.
  assert (Hreach : forall ticks, timed (now (play w self ticks boot))).
  { intros ticks. apply play_timed. exact timed_initial. }
  assert (Hheld : forall ticks,
             held (play w self ticks boot) ≡ₚ arrivals ticks).
  { intros ticks. rewrite play_held. reflexivity. }
  split; [intros ticks; apply (Hreach ticks)|].
  split; [exact Hheld|].
  split.
  { intros ticks.
    apply (play_in_order ticks boot []). intros album []. }
  split.
  { intros ticks gid album h s Hin Ht Hsched Htasks.
    exact (timer_path s gid album h (Hreach ticks) Hin Ht Hsched Htasks). }
  split.
  { intros ticks gid album s Hin.
    destruct (Hreach ticks) as [_ [_ Htimed]].
    destruct (Htimed gid album Hin) as [h [E [_ [_ Hev]]]].
    exists h. split; assumption. }
  split.
  { intros ticks s Ht Hk Hs.
    pose proof (idle_nothing_pending (now s) (Hreach ticks) Ht Hk) as Hp.
    split; [exact Hp|].
    rewrite <- (Hheld ticks). fold s. unfold held, albums.
    rewrite Hs, Hp. simpl. now rewrite app_nil_r. }
  split; [exact (aloof_process_album w self)|].
  split; [exact shutdown_first|].
  split; [exact run_task_uninterrupted|].
  split; [exact shutdown_uninterrupted|].
  split; [intros st; unfold flush_pending; now apply flush_pending_entries|].
  split; [intros st; unfold flush_pending; now apply flush_pending_empties|].
  split; [intros st; unfold flush_pending; now apply flush_pending_tail|].
  split.
  { intros ch m gid st Hg Hne st'.
    destruct (forward_album w self ch m gid st Hg Hne) as [_ [Hp Ht]].
    unfold st'. rewrite Hp.
    split; [apply dict_get_set_same|].
    split; [intros gid' Hne'; now apply dict_get_set_other|exact Ht]. }
  intros Hsink gid album first rest st Hget Hmsgs Hns.
  split; [rewrite flush_album_eq; now rewrite Hget|].
  destruct (flush_album_delivers w self gid album first rest st
              Hsink Hget Hmsgs Hns)
    as [calls [new [ids [Hc [_ [Htr [_ [_ Hd]]]]]]]].
  exists calls, new. auto.
Qed.

End LoopFacts.

(** ** The album properties at work on a concrete schedule *)

Lemma album_completes_once_witness :
  let m1 := photo_message (Some (lit "cap")) (Some 10) 1 (Some []) in
  let m2 := photo_message None (Some 10) 2 (Some []) in
  let album := {| album_channel_name := lit "Ch";
                  album_messages := [m1; m2];
                  album_timer := Some 1%nat |} in
  let s := play world_ok router_plain
             [Arrives (lit "Ch") m1; Arrives (lit "Ch") m2] boot in
  let s1 := play world_ok router_plain [Fires 1; Starts] s in
  let s2 := tick world_ok router_plain (Resumes 0) s1 in
  In (10, album) (_pending_albums (now s)) /\
  In (1%nat, 10) (loop_timers (now s)) /\
  loop_tasks (now s) = [] /\
  suspended s1 = [InFlushAlbum album] /\
  dict_get 10 (_pending_albums (now s1)) = None /\
  trace (now s1) = [] /\
  now s2 = snd (process_album world_ok router_plain album (now s1)) /\
  processed s2 = [album].
Proof.
  intros m1 m2 album s s1 s2.
  assert (Hin : In (10, album) (_pending_albums (now s)))
    by (left; reflexivity).
  assert (Ht : In (1%nat, 10) (loop_timers (now s))) by (left; reflexivity).
  assert (Hk : loop_tasks (now s) = []) by reflexivity.
  split; [exact Hin|]. split; [exact Ht|]. split; [exact Hk|].
  destruct (proj1 (proj2 (proj2 (proj2
              (album_completes_once world_ok router_plain))))
              [Arrives (lit "Ch") m1; Arrives (lit "Ch") m2] 10 album 1%nat
              Hin eq_refl Ht Hk)
    as [[Hs [_ [_ [Hd [_ [_ [_ Htr]]]]]]] [Hn [_ Hp]]].
  split; [exact Hs|]. split; [exact Hd|]. split; [exact Htr|].
  split; [exact Hn|exact Hp].
Defined.

(** ** The further properties at work on concrete runs *)

Lemma split_cuts_at_last_boundary_witness :
  0 < 7 /\ 7 < len (lit "hello world foo bar") /\
  exists first more,
    _split_text (lit "hello world foo bar") 7 = Some (first :: more) /\
    lit "hello world foo bar"
    = first ++ slice_from (lit "hello world foo bar") (len first).
Proof.
  split; [lia|]. split; [reflexivity|].
  destruct (split_cuts_at_last_boundary (lit "hello world foo bar") 7
              ltac:(lia) eq_refl)
    as [first [more [H1 [H2 _]]]].
  exists first, more. split; [exact H1|exact H2].
Defined.

Lemma split_hard_cuts_witness :
  exists chunks,
    _split_text (repeat 97%N 10) 4 = Some chunks /\
    concat chunks = repeat 97%N 10 /\
    forall i c, (S i < length chunks)%nat -> chunks !! i = Some c ->
                len c = 4.
Proof.
  apply (split_hard_cuts (repeat 97%N 10) 4); [lia|].
  repeat constructor.
Defined.

Lemma split_chunks_nonempty_witness :
  exists first more,
    _split_text (lit "hello world foo bar") 7 = Some (first :: more) /\
    truthy first = true /\
    Forall (fun c => truthy c = true /\ starts_clean c) more.
Proof.
  apply (split_chunks_nonempty (lit "hello world foo bar") 7);
    [lia|reflexivity].
Defined.

Lemma split_limit_zero_diverges_witness :
  truthy (lit "ab") = true /\ starts_clean (lit "ab") /\
  _split_text (lit "ab") 0 = None.
Proof.
  split; [reflexivity|]. split; [reflexivity|].
  apply (split_limit_zero_diverges (lit "ab")); reflexivity.
Defined.

Lemma send_text_stops_at_failure_witness :
  let chunks := [repeat 97%N 4096; repeat 97%N 904] in
  let w := world_http_redirects_second in
  _split_text long_word MAX_TEXT = Some chunks /\
  is_error (http w 1) = false /\
  fst (send_text w sender_ex long_word initial) = Raise HTTPStatusError /\
  trace (snd (send_text w sender_ex long_word initial))
  = trace initial ++ take 2 (text_posts sender_ex chunks) /\
  log (snd (send_text w sender_ex long_word initial)) = log initial ++ [].
Proof.
  intros chunks w.
  assert (Hs : _split_text long_word MAX_TEXT = Some chunks)
    by (vm_compute; reflexivity).
  split; [exact Hs|]. split; [reflexivity|].
  apply (send_text_stops_at_failure w sender_ex long_word chunks 1 initial
           Hs).
  - simpl. lia.
  - intros j Hj. destruct j as [|j]; [reflexivity|lia].
  - reflexivity.
Defined.

Lemma send_text_receipts_witness :
  exists bodies,
    Forall2 (fun j body =>
               response_json (http world_ok (length (trace initial) + j))
               = Some body)
            (seq 0 (length [lit "hello"])) bodies /\
    fst (send_text world_ok sender_ex (lit "hello") initial) = Ret bodies /\
    trace (snd (send_text world_ok sender_ex (lit "hello") initial))
    = trace initial ++ text_posts sender_ex [lit "hello"] /\
    log (snd (send_text world_ok sender_ex (lit "hello") initial))
    = log initial.
Proof.
  apply (send_text_receipts world_ok sender_ex (lit "hello") [lit "hello"]
           initial).
  - reflexivity.
  - intros j _. reflexivity.
Defined.

Lemma send_media_short_caption_witness :
  trace (snd (send_media world_ok sender_ex (lit "image") (lit "m1")
                         (Some (lit "a caption")) initial))
  = trace initial
    ++ [Post (_messages_url sender_ex)
             (MediaPayload (recipient sender_ex) (lit "image") (lit "m1")
                           (Some (lit "a caption")))].
Proof.
  apply (proj1 (send_media_short_caption world_ok sender_ex (lit "image")
                  (lit "m1") initial)).
  - left. reflexivity.
  - reflexivity.
  - vm_compute. discriminate.
Defined.

Lemma send_media_failure_drops_overflow_witness :
  fst (send_media world_http_down sender_ex (lit "image") (lit "m1")
                  (Some long_caption) initial)
  = Raise HTTPStatusError /\
  log (snd (send_media world_http_down sender_ex (lit "image") (lit "m1")
                       (Some long_caption) initial)) = log initial.
Proof.
  destruct (send_media_failure_drops_overflow world_http_down sender_ex
              (lit "image") (lit "m1") (Some long_caption) initial eq_refl)
    as [Hr [_ Hl]].
  split; [exact Hr|exact Hl].
Defined.

Lemma send_media_cuts_at_last_space_witness :
  In (lit "image") caption_types /\ MAX_CAPTION < len long_caption /\
  exists head more,
    trace (snd (send_media world_ok sender_ex (lit "image") (lit "m1")
                           (Some long_caption) initial))
    = trace initial
      ++ Post (_messages_url sender_ex)
              (MediaPayload (recipient sender_ex) (lit "image") (lit "m1")
                            (Some head))
      :: more /\
    long_caption = head ++ slice_from long_caption (len head).
Proof.
  assert (Hin : In (lit "image") caption_types) by (left; reflexivity).
  assert (Hlen : MAX_CAPTION < len long_caption) by reflexivity.
  split; [exact Hin|]. split; [exact Hlen|].
  destruct (send_media_cuts_at_last_space world_ok sender_ex (lit "image")
              (lit "m1") long_caption initial Hin Hlen)
    as [head [more [Ht [Hc _]]]].
  exists head, more. split; [exact Ht|exact Hc].
Defined.

Lemma evaluate_verdict_origin_witness :
  let r := evaluate world_second_rejects config_ex (lit "buy now") initial in
  let result := {| action := SKIP; reason := lit "spam detected";
                   filter_name := lit "spam" |} in
  r = (Ret result, snd r) /\
  ~ blank (lit "buy now") /\
  exists k rule decision,
    filters config_ex !! k = Some rule /\
    llm world_second_rejects (length (trace initial) + k) = Some decision /\
    decision_action decision = SKIP.
Proof.
  intros r result.
  assert (Hr : r = (Ret result, snd r)) by (vm_compute; reflexivity).
  split; [exact Hr|].
  destruct (evaluate_verdict_origin world_second_rejects config_ex
              (lit "buy now") initial result (snd r) Hr)
    as [Hb [k [rule [decision [H1 [H2 [H3 _]]]]]]].
  split; [exact Hb|].
  exists k, rule, decision. split; [exact H1|]. split; [exact H2|exact H3].
Defined.

Lemma detect_media_priority_witness :
  let doc := {| mime_type := Some (lit "image/webp");
                attributes := [DocumentAttributeAudio true;
                               DocumentAttributeSticker;
                               DocumentAttributeAnimated] |} in
  kind_of (_detect_media (document_message doc))
  = Some (lit "sticker", declared_mime doc).
Proof.
  intros doc.
  apply (proj1 (detect_media_priority (document_message doc) doc
                  eq_refl eq_refl)).
  right. left. reflexivity.
Defined.

Lemma detect_media_kind_order_free_witness :
  let d1 := {| mime_type := Some (lit "video/mp4");
               attributes := [DocumentAttributeAudio false;
                              DocumentAttributeVideo false] |} in
  let d2 := {| mime_type := Some (lit "video/mp4");
               attributes := [DocumentAttributeVideo false;
                              DocumentAttributeAudio false] |} in
  kind_of (_detect_media (document_message d1))
  = kind_of (_detect_media (document_message d2)).
Proof.
  intros d1 d2.
  apply (detect_media_kind_order_free (document_message d1)
           (document_message d2) d1 d2 eq_refl eq_refl eq_refl eq_refl
           eq_refl).
  apply perm_swap.
Defined.

Lemma photo_and_voice_supported_witness :
  let doc := {| mime_type := Some (lit "application/x-unknown");
                attributes := [DocumentAttributeAudio true] |} in
  supported (lit "application/x-unknown") = false /\
  fetched (document_message doc) = true.
Proof.
  intros doc. split; [vm_compute; reflexivity|].
  apply (proj2 (photo_and_voice_supported (document_message doc)) doc
           eq_refl eq_refl).
  - intros [H|[]]. discriminate H.
  - left. reflexivity.
Defined.

Lemma detect_media_range_witness :
  let m := photo_message None None 1 None in
  In (lit "image") [lit "image"; lit "video"; lit "audio"; lit "document";
                    lit "sticker"] /\
  truthy (lit "image/jpeg") = true.
Proof.
  intros m.
  apply (proj2 (detect_media_range m) (lit "image") (lit "image/jpeg")
           (lit "photo.jpg") eq_refl).
Defined.

Lemma filter_runs_first_witness :
  let st := state_with 10 album_ex in
  exists calls rest,
    trace (snd (_flush_album world_ok router_filtering 10 st))
    = trace st ++ calls ++ rest /\
    Forall (llm_call_about (lit "cap")) calls /\
    Forall not_llm_call rest.
Proof.
  intros st.
  destruct (proj2 (filter_runs_first world_ok router_filtering) 10 album_ex
              (photo_message None (Some 10) 1 (Some []))
              (tl album_arrivals) st eq_refl eq_refl)
    as [calls [rest [Ht [Hc [Hr _]]]]].
  exists calls, rest. split; [exact Ht|]. split; [exact Hc|exact Hr].
Defined.

Lemma text_only_message_witness :
  let m := text_message (lit "hello") in
  let body :=
    _format_text world_ok (lit "Ch") (msg_date m) (lit "hello")
                 (_build_source_link (get_chat m) (msg_id m)) in
  exists calls,
    Forall (llm_call_about (lit "hello")) calls /\
    trace (snd (_forward_single world_ok router_plain (lit "Ch") m initial))
    = trace initial ++ calls ++ [SendText body] /\
    contains (lit "hello") body.
Proof.
  intros m body.
  destruct (proj1 (text_only_message world_ok router_plain (lit "Ch") m
                     initial eq_refl eq_refl) eq_refl)
    as [calls [Hc [Ht [_ [_ [Hb _]]]]]].
  exists calls. split; [exact Hc|]. split; [exact Ht|exact Hb].
Defined.

Lemma unsupported_media_notice_witness :
  let m := document_message {| mime_type := Some (lit "application/zip");
                               attributes := [] |} in
  supported (lit "application/zip") = false /\
  exists calls notice,
    trace (snd (_forward_single world_ok router_filtering (lit "Ch") m
                                initial))
    = trace initial ++ calls ++ [SendText notice] /\
    contains (lit "application/zip") notice /\
    contains (lit "Unsupported media") notice.
Proof.
  intros m.
  assert (Hs : supported (lit "application/zip") = false)
    by (vm_compute; reflexivity).
  split; [exact Hs|].
  destruct (unsupported_media_notice world_ok router_filtering (lit "Ch") m
              initial (lit "document") (lit "application/zip") (lit "file")
              eq_refl eq_refl Hs)
    as [calls [notice [_ [Ht [_ [Hm [Hu _]]]]]]].
  exists calls, notice. split; [exact Ht|]. split; [exact Hm|exact Hu].
Defined.


Lemma pending_album_has_live_timer_witness :
  let m := photo_message None (Some 10) 1 (Some []) in
  let st := run world_ok router_plain [Arrive (lit "Ch") m] initial in
  let album := album_after (lit "Ch") m None 0 in
  In (10, album) (_pending_albums st) /\
  exists h,
    album_timer album = Some h /\
    (In (h, 10) (loop_timers st) \/ In 10 (loop_tasks st)).
Proof.
  intros m st album.
  assert (Hin : In (10, album) (_pending_albums st)) by (left; reflexivity).
  split; [exact Hin|].
  apply (pending_album_has_live_timer world_ok router_plain
           [Arrive (lit "Ch") m] 10 album Hin).
Defined.

Lemma burst_is_one_album_witness :
  let m1 := photo_message (Some (lit "cap")) (Some 10) 1 (Some []) in
  let m2 := photo_message None (Some 10) 2 (Some []) in
  let st' := run world_ok router_plain
               [Arrive (lit "Ch") m1; Arrive (lit "Other") m2] initial in
  dict_get 10 (_pending_albums st')
  = Some {| album_channel_name := lit "Ch"; album_messages := [m1; m2];
            album_timer := Some 1%nat |} /\
  trace st' = trace initial.
Proof.
  intros m1 m2 st'.
  destruct (burst_is_one_album world_ok router_plain 10 (lit "Ch", m1)
              [(lit "Other", m2)] initial)
    as [Hd [Ht _]].
  - discriminate.
  - repeat constructor.
  - reflexivity.
  - split; [exact Hd|exact Ht].
Defined.


Lemma ungrouped_leaves_albums_witness :
  let st := state_with 10 album_ex in
  let m := text_message (lit "hello") in
  router_of (snd (forward world_ok router_plain (lit "Ch") m st))
  = router_of st.
Proof.
  intros st m.
  apply (ungrouped_leaves_albums world_ok router_plain (lit "Ch") m st).
  left. reflexivity.
Defined.

Lemma handler_catches_callback_witness :
  let event := {| event_get_chat := ChatFound None 42;
                  event_message := text_message (lit "hello") |} in
  let r := forward world_sink_down router_plain (lit "42")
                   (event_message event) initial in
  fst r = Raise HTTPStatusError /\
  fst (handler world_sink_down router_plain event initial) = Ret tt /\
  log (snd (handler world_sink_down router_plain event initial))
  = log (snd r)
    ++ [(ERROR, fmt [lit "Callback failed for channel "; lit "42"])].
Proof.
  intros event r.
  assert (Hr : fst r = Raise HTTPStatusError) by (vm_compute; reflexivity).
  split; [exact Hr|].
  destruct (proj1 (handler_catches_callback world_sink_down router_plain
                     event initial) None 42 eq_refl)
    as [Hret [_ [_ [Hlog _]]]].
  split; [exact Hret|].
  apply (Hlog HTTPStatusError Hr).
Defined.

Lemma parse_channels_round_trip_witness :
  parse_channels (join COMMA [lit "news"; lit "tech talk"])
  = [lit "news"; lit "tech talk"].
Proof.
  apply (parse_channels_round_trip [lit "news"; lit "tech talk"]).
  repeat constructor; try reflexivity; vm_compute;
    intuition discriminate.
Defined.
